(** * The deterministic result generator of [js/script.js]

    A shallow embedding of the username-to-result computation of the page
    script: [hashUsername], [seededRandom], [normalDistribution],
    [calculatePercentile], [getDescriptionForSize] and [generateResults],
    for both copies of class [DickSizeChecker] that the script file holds
    (the first with sizes 1-13 and a percentile, the second with sizes 3-10).

    Conventions of the embedding.
    - A JavaScript Number that the code only ever uses at integer values
      below 2^53 (the hash, the confidence, array indices) is a [Z]; the
      arithmetic on it is exact in binary64, see [hash_step_exact].
    - Every other Number is a binary64 value: Rocq's primitive [float],
      whose operations are the IEEE 754 ones ([Prim2SF] relates them to the
      [SpecFloat] specification).
    - [Math.sin], [Math.cos] and [Math.log] are implementation-approximated
      in ECMAScript; they are the fields of the class [MathLib], and the
      generator is defined for any instance.
    - A String is a [string] of 8-bit code units.  [toLowerCase] and
      [toUpperCase] are modelled on the ASCII letters, which is exact for the
      strings that pass [isValidUsername], the only ones [handleFormSubmit]
      lets through.
    - Of the page, module [Page] keeps what the methods around the generator
      read and write: the value of the text field, the class lists of the
      elements under their keys in [this.elements], the overflow style of
      the body and the focus.  A method that would throw returns [None];
      the value of a call of [Math.random] is an argument.  Module
      [Analysis] gives [performAnalysis] as the sequence of its steps. *)

From Stdlib Require Import ZArith Floats String Ascii List Bool Lia.
From Stdlib Require Import Relations.Relation_Operators.
Import ListNotations.

Set Warnings "-inexact-float".
Local Open Scope string_scope.
Local Open Scope list_scope.
Local Open Scope Z_scope.

(** ** JavaScript integers: [ToInt32] and the 32-bit operators *)

Module JS.

(** [ToInt32]: reduce modulo 2^32 into the signed range. *)
Definition ToInt32 (n : Z) : Z :=
  let m := n mod 2 ^ 32 in
  if 2 ^ 31 <=? m then m - 2 ^ 32 else m.

(** [a << n]: both operands through [ToInt32]/[ToUint32], shift count
    masked to five bits, result truncated to 32 bits. *)
Definition shl (a n : Z) : Z :=
  ToInt32 (Z.shiftl (ToInt32 a) (n mod 32)).

(** [a & b] on the 32-bit two's complement representations. *)
Definition and (a b : Z) : Z :=
  ToInt32 (Z.land (ToInt32 a) (ToInt32 b)).

(** [arr[i]] for an integer-valued index: [undefined] (here [None]) outside
    the array. *)
Definition index {A : Type} (arr : list A) (i : Z) : option A :=
  if i <? 0 then None else nth_error arr (Z.to_nat i).

End JS.

(** ** JavaScript floating-point builtins *)

(** An integer as a Number: the nearest binary64 value (exact below 2^53). *)
Definition Z2F (z : Z) : float :=
  SF2Prim (binary_normalize prec emax z 0 false).

(** [Math.floor]: NaN, the zeros and the infinities are returned as they
    are, and so is a value with a non-negative exponent, an integer. *)
Definition Math_floor (x : float) : float :=
  match Prim2SF x with
  | S754_finite s m e =>
      if 0 <=? e then x
      else Z2F (Z.shiftr (cond_Zopp s (Zpos m)) (- e))
  | _ => x
  end.

(** [Math.round]: the integer nearest to [x], ties towards +infinity, that
    is the floor of [x + 1/2] computed exactly; a zero result keeps the sign
    of [x]. *)
Definition Math_round (x : float) : float :=
  match Prim2SF x with
  | S754_finite s m e =>
      if 0 <=? e then x
      else
        let q := Z.shiftr (2 * cond_Zopp s (Zpos m) + 2 ^ (- e)) (1 - e) in
        if q =? 0 then (if s then -0 else 0)%float else Z2F q
  | _ => x
  end.

(** [Math.max] and [Math.min] of two arguments: NaN if either is NaN, and
    +0 counts as larger than -0. *)
Definition Math_max (a b : float) : float :=
  if is_nan a || is_nan b then nan
  else if (a <? b)%float then b
  else if (b <? a)%float then a
  else if get_sign a then b else a.

Definition Math_min (a b : float) : float :=
  if is_nan a || is_nan b then nan
  else if (a <? b)%float then a
  else if (b <? a)%float then b
  else if get_sign a then a else b.

(** [n % d] on Numbers: the exact remainder of the truncating division,
    with the sign of the dividend. *)
Definition Number_rem (n d : float) : float :=
  match Prim2SF n, Prim2SF d with
  | S754_nan, _ | _, S754_nan => nan
  | S754_infinity _, _ => nan
  | _, S754_zero _ => nan
  | _, S754_infinity _ => n
  | S754_zero _, _ => n
  | S754_finite sn mn en, S754_finite _ md ed =>
      let e := Z.min en ed in
      let r := Z.rem (Zpos mn * 2 ^ (en - e)) (Zpos md * 2 ^ (ed - e)) in
      if r =? 0 then (if sn then -0 else 0)%float
      else SF2Prim (binary_normalize prec emax (cond_Zopp sn r) e false)
  end.

(** [Math.PI], the binary64 value nearest to pi. *)
Definition Math_PI : float := 3.141592653589793%float.

(** The functions of [Math] whose values ECMAScript leaves to the
    implementation. *)
Class MathLib : Type := {
  Math_sin : float -> float;
  Math_cos : float -> float;
  Math_log : float -> float
}.

(** ** JavaScript strings *)

(** [str.charCodeAt(i)] for the code unit [c] at position [i]. *)
Definition charCodeAt (c : ascii) : Z := Z.of_N (N_of_ascii c).

Definition lower_unit (c : ascii) : ascii :=
  let n := charCodeAt c in
  if (65 <=? n) && (n <=? 90) then ascii_of_N (Z.to_N (n + 32)) else c.

Definition upper_unit (c : ascii) : ascii :=
  let n := charCodeAt c in
  if (97 <=? n) && (n <=? 122) then ascii_of_N (Z.to_N (n - 32)) else c.

Fixpoint toLowerCase (s : string) : string :=
  match s with
  | EmptyString => EmptyString
  | String c rest => String (lower_unit c) (toLowerCase rest)
  end.

Fixpoint toUpperCase (s : string) : string :=
  match s with
  | EmptyString => EmptyString
  | String c rest => String (upper_unit c) (toUpperCase rest)
  end.

(** The character class [[a-zA-Z0-9_]]. *)
Definition is_word_unit (c : ascii) : bool :=
  let n := charCodeAt c in
  ((97 <=? n) && (n <=? 122)) || ((65 <=? n) && (n <=? 90))
  || ((48 <=? n) && (n <=? 57)) || (n =? 95).

Fixpoint all_units (p : ascii -> bool) (s : string) : bool :=
  match s with
  | EmptyString => true
  | String c rest => p c && all_units p rest
  end.

(** [/^[a-zA-Z0-9_]{1,15}$/.test(username) && username.length >= 1] *)
Definition isValidUsername (username : string) : bool :=
  let len := Z.of_nat (String.length username) in
  (all_units is_word_unit username && (1 <=? len) && (len <=? 15))
  && (1 <=? len).

(** ** The category table *)

(** One entry of [this.humorousDescriptions]:
    [{ range: [lo, hi], descriptions: [...] }]. *)
Record Category : Type := {
  range : float * float;
  descriptions : list string
}.

(** The test of the scan in [getDescriptionForSize]:
    [size >= category.range[0] && size <= category.range[1]]. *)
Definition in_range (size : float) (category : Category) : bool :=
  (fst (range category) <=? size)%float && (size <=? snd (range category))%float.

(** The fallback description of [getDescriptionForSize]. *)
Definition fallback_description : string :=
  "You're absolutely unique and that's what makes you special! 🌟".

(** Rounding to one decimal as the script does it, [Math.round(x * 10) / 10]
    (the comment of the source on that expression: Round to 1 decimal). *)
Definition round1 (x : float) : float := (Math_round (x * 10) / 10)%float.


(** ** First copy of class [DickSizeChecker] (sizes 1-13, with percentile) *)

Module Copy1.

(** The record that [generateResults] returns. *)
Record Results : Type := {
  size : float;
  originalSize : float;
  unit : string;
  confidence : Z;
  description : option string;
  percentile : float
}.

(** The fields of the object that the generator and the methods around it
    read or write; the DOM references of [this.elements] are left out, no
    function below reads them. *)
Record DickSizeChecker : Type := {
  loadingMessages : list string;
  humorousDescriptions : list Category;
  currentResults : option (string * Results)
}.

Definition initial_loadingMessages : list string :=
  [ "Analyzing tweet frequency...";
    "Measuring confidence levels...";
    "Calculating proportions...";
    "Assessing personality traits...";
    "Evaluating communication style...";
    "Processing social signals...";
    "Computing final measurements..." ].

Definition initial_humorousDescriptions : list Category :=
  (
  [ {| range := (1.0, 2.5);
       descriptions :=
         [ "Micro but mighty! You're like a secret agent gadget - small, discreet, but probably saves the world daily! 🕵️";
           "Minimalist masterpiece! You've embraced the 'less is more' philosophy. Probably a connoisseur of tiny house living! 🏠";
           "Button-sized brilliance! Like a perfectly crafted espresso shot - small but packs an incredible punch! ☕";
           "Stealth mode activated! You're the ninja of measurements - what you lack in size, you make up for in pure skill! 🥷" ] |};
    {| range := (2.6, 4.0);
       descriptions :=
         [ "Compact and clever! Like a Swiss watch - small, precise, and probably worth more than people realize! ⌚";
           "Fun-size energy! You're the travel-size version of awesome - portable, efficient, and TSA-approved! ✈️";
           "Bite-sized excellence! You've mastered the art of doing more with less. Efficiency expert level: Pro! 🎯";
           "Pocket rocket vibes! Small engine, big performance. You're probably really good at parallel parking! 🚗" ] |};
    {| range := (4.1, 5.5);
       descriptions :=
         [ "Solidly reliable! You're the Honda Civic of measurements - dependable, efficient, and surprisingly fun! 🚙";
           "Classic proportions! Not too big, not too small - you're the Goldilocks zone of measurements! 🐻";
           "Perfectly standard! You represent the everyman with dignity and style. Democracy in action! 🗳️";
           "Comfortable confidence! Like a good pair of jeans - fits just right and goes with everything! 👖" ] |};
    {| range := (5.6, 7.0);
       descriptions :=
         [ "Above average achievement! You're like premium coffee - that extra kick that makes everything better! ☕";
           "Impressive balance! Perfect mix of confidence and humility. The Swiss Army knife of personalities! 🔧";
           "Solid measurements! You probably read instruction manuals AND actually follow them. Respect! 📋";
           "Well-proportioned wisdom! You bring just the right amount of everything to the table! 🍽️" ] |};
    {| range := (7.1, 8.5);
       descriptions :=
         [ "Getting serious now! You're like a luxury sedan - spacious, comfortable, and makes people jealous! 🚙";
           "Substantial presence! You probably give amazing hugs and have strong opinions about pizza toppings! 🍕";
           "Confident proportions! You don't need to honk in traffic - your presence speaks for itself! 📯";
           "Generous dimensions! You probably tip well and remember everyone's birthday. Big heart energy! 💝" ] |};
    {| range := (8.6, 10.0);
       descriptions :=
         [ "Seriously impressive! You're like a pickup truck - practical, powerful, and great at moving furniture! 🛻";
           "Big league player! You probably have to duck through doorways and your personality fills rooms! 🚪";
           "Major measurements! Living proof some people hit the genetic lottery. Great at reaching high shelves! 🎰";
           "Gentle giant energy! Intimidating at first glance but probably gives the best bear hugs in history! 🐻" ] |};
    {| range := (10.1, 11.5);
       descriptions :=
         [ "Legendary status unlocked! You're like a monster truck - impressive, powerful, and turns heads everywhere! 🚛";
           "Absolutely massive! You probably need custom everything and your shadow has its own zip code! 🌘";
           "Epic proportions! You're basically a walking conversation starter. Airport security probably knows you by name! 🛂";
           "Titan-level measurements! You're the final boss of measurements. Probably need a permit for that thing! 📜" ] |};
    {| range := (11.6, 13.0);
       descriptions :=
         [ "MAXIMUM OVERDRIVE! You've transcended human measurements and entered mythical territory! 🐉";
           "Cosmic-level proportions! NASA probably wants to study you. You're basically a natural wonder! 🌌";
           "Legendary mythical status! Ancient civilizations would have written epic poems about your measurements! 📜";
           "Ultimate final form! You've maxed out the character creation slider. Probably need planning permission! 🏗️" ] |} ]
  )%float.

(** The object as the constructor leaves it. *)
Definition constructor : DickSizeChecker :=
  {| loadingMessages := initial_loadingMessages;
     humorousDescriptions := initial_humorousDescriptions;
     currentResults := None |}.

(** [hashUsername], the loop body applied to the code units of [str] in
    order:  [hash = ((hash << 5) - hash) + char; hash = hash & hash]. *)
Fixpoint hash_loop (str : string) (hash : Z) : Z :=
  match str with
  | EmptyString => hash
  | String c rest =>
      let char := charCodeAt c in
      let hash := (JS.shl hash 5 - hash) + char in
      let hash := JS.and hash hash in
      hash_loop rest hash
  end.

Definition hashUsername (username : string) : Z :=
  let hash := 0 in
  let str := toLowerCase username in
  Z.abs (hash_loop str hash).

(** [getDescriptionForSize]: the [for ... of] scan over the table, with
    [return] at the first category that matches. *)
Fixpoint scan_categories (categories : list Category) (size : float) (hash : Z)
  : option string :=
  match categories with
  | [] => Some fallback_description
  | category :: rest =>
      if in_range size category then
        let index := Z.rem hash (Z.of_nat (length (descriptions category))) in
        JS.index (descriptions category) index
      else scan_categories rest size hash
  end.

Definition getDescriptionForSize (this : DickSizeChecker) (size : float) (hash : Z)
  : option string :=
  scan_categories (humorousDescriptions this) size hash.

Section WithMath.
Context {M : MathLib}.

Definition seededRandom (seed : float) : float :=
  let x := (Math_sin seed * 10000)%float in
  Math_floor ((x - Math_floor x) * 1000000)%float.

Definition normalDistribution (seed min max mean : float) : float :=
  let random1 := (Number_rem (seededRandom seed) 1000 / 1000)%float in
  let random2 := (Number_rem (seededRandom (seed + 1)) 1000 / 1000)%float in
  let normal :=
    (sqrt (-2 * Math_log random1) * Math_cos (2 * Math_PI * random2))%float in
  let scaled := (normal * 1.2 + mean)%float in
  Math_max min (Math_min max scaled).

(** [calculatePercentile]: mean 6.5, standard deviation 2. *)
Definition calculatePercentile (size : float) : float :=
  let mean := 6.5%float in
  let stdDev := 2%float in
  let zScore := ((size - mean) / stdDev)%float in
  if (zScore <=? -3)%float then 1%float
  else if (3 <=? zScore)%float then 99%float
  else
    let percentile := Math_round (50 + zScore * 16.67)%float in
    Math_max 1 (Math_min 99 percentile).

(** The local [size] of [generateResults]: the measurement before the
    conversion of units. *)
Definition measurement (hash : Z) : float :=
  let sizeFloat := normalDistribution (Z2F hash) 1 13 6.5 in
  (Math_round (sizeFloat * 10) / 10)%float.

Definition generateResults (this : DickSizeChecker) (username : string) : Results :=
  let hash := hashUsername username in
  let size_ := measurement hash in
  let confidence_ := 75 + Z.rem hash 25 in
  let description_ := getDescriptionForSize this size_ hash in
  let percentile_ := calculatePercentile size_ in
  let useMetric := Z.rem hash 10 =? 0 in
  {| size := if useMetric then (Math_round (size_ * 2.54 * 10) / 10)%float else size_;
     originalSize := size_;
     unit := if useMetric then "cm" else "inches";
     confidence := confidence_;
     description := description_;
     percentile := percentile_ |}.

End WithMath.

(** The methods that assign to a field of the object. *)
Definition displayResults (this : DickSizeChecker) (username : string)
  (results : Results) : DickSizeChecker :=
  {| loadingMessages := loadingMessages this;
     humorousDescriptions := humorousDescriptions this;
     currentResults := Some (username, results) |}.

Definition resetToInitialState (this : DickSizeChecker) : DickSizeChecker :=
  {| loadingMessages := loadingMessages this;
     humorousDescriptions := humorousDescriptions this;
     currentResults := None |}.

(** One method call that changes the object. *)
Inductive step : DickSizeChecker -> DickSizeChecker -> Prop :=
  | step_display this username results :
      step this (displayResults this username results)
  | step_reset this :
      step this (resetToInitialState this).

End Copy1.

(** ** Second copy of class [DickSizeChecker] (sizes 3-10, no percentile) *)

Module Copy2.

Record Results : Type := {
  size : float;
  unit : string;
  confidence : Z;
  description : option string
}.

Record DickSizeChecker : Type := {
  loadingMessages : list string;
  humorousDescriptions : list Category;
  currentResults : option (string * Results)
}.

Definition initial_humorousDescriptions : list Category :=
  (
  [ {| range := (3, 4);
       descriptions :=
         [ "Small but mighty! Like a fun-size candy bar - concentrated goodness that packs a punch. Quality over quantity, my friend! 🍬";
           "A perfectly compact package! Sometimes the best things come in smaller sizes. You're probably really good with your hands! 👌";
           "Bite-sized excellence! You've mastered the art of efficiency. Why use more when less gets the job done perfectly? 🎯";
           "Pocket rocket! Small, portable, and probably gets invited to more parties. You're the life-size action figure of personalities! 🚀" ] |};
    {| range := (4.1, 5.5);
       descriptions :=
         [ "Solidly average and proud of it! You're the reliable Honda Civic of personalities - dependable, efficient, and surprisingly fun! 🚗";
           "Right in the sweet spot! Not too much, not too little - you're the Goldilocks of measurements. Just right for any situation! 🐻";
           "Perfectly standard! You're like a good pair of jeans - comfortable, reliable, and suitable for most occasions. Classic choice! 👖";
           "The people's champion! You represent the everyman with dignity and style. Democracy in action, my friend! 🗳️" ] |};
    {| range := (5.6, 7);
       descriptions :=
         [ "Above average and loving life! You're like a premium coffee - a little extra kick that makes everything better! ☕";
           "Impressive proportions! You've got that perfect balance of confidence and humility. The Swiss Army knife of personalities! 🔧";
           "Solid measurements! You're probably the type who reads instruction manuals and actually follows them. Respect! 📋";
           "Well-endowed in the personality department! You bring just the right amount of everything to the table. Balanced diet of awesomeness! 🍽️" ] |};
    {| range := (7.1, 8.5);
       descriptions :=
         [ "Getting into impressive territory! You're like a luxury sedan - spacious, comfortable, and makes people a little jealous! 🚙";
           "Substantial measurements! You probably give great hugs and have strong opinions about pizza toppings. Living your best life! 🍕";
           "Confidently proportioned! You're the type who doesn't need to honk in traffic - your presence speaks for itself! 📯";
           "Generous dimensions! You probably tip well and remember people's birthdays. Big heart, big personality! 💝" ] |};
    {| range := (8.6, 10);
       descriptions :=
         [ "Absolutely massive energy! You're like a pickup truck - practical, powerful, and probably really good at moving furniture! 🛻";
           "Legendary proportions! You probably have to duck through doorways and your personality fills entire rooms! 🚪";
           "Maximum measurements! You're living proof that some people just hit the genetic lottery. Probably great at reaching high shelves! 🎰";
           "Enormous presence! You're like a gentle giant - intimidating at first glance but probably gives the best bear hugs in history! 🐻" ] |} ]
  )%float.

Definition constructor : DickSizeChecker :=
  {| loadingMessages := Copy1.initial_loadingMessages;
     humorousDescriptions := initial_humorousDescriptions;
     currentResults := None |}.

(** [hashUsername], the loop body applied to the code units of [str] in
    order:  [hash = ((hash << 5) - hash) + char; hash = hash & hash]. *)
Fixpoint hash_loop (str : string) (hash : Z) : Z :=
  match str with
  | EmptyString => hash
  | String c rest =>
      let char := charCodeAt c in
      let hash := (JS.shl hash 5 - hash) + char in
      let hash := JS.and hash hash in
      hash_loop rest hash
  end.

Definition hashUsername (username : string) : Z :=
  let hash := 0 in
  let str := toLowerCase username in
  Z.abs (hash_loop str hash).

(** [getDescriptionForSize]: the [for ... of] scan over the table, with
    [return] at the first category that matches. *)
Fixpoint scan_categories (categories : list Category) (size : float) (hash : Z)
  : option string :=
  match categories with
  | [] => Some fallback_description
  | category :: rest =>
      if in_range size category then
        let index := Z.rem hash (Z.of_nat (length (descriptions category))) in
        JS.index (descriptions category) index
      else scan_categories rest size hash
  end.

Definition getDescriptionForSize (this : DickSizeChecker) (size : float) (hash : Z)
  : option string :=
  scan_categories (humorousDescriptions this) size hash.

Section WithMath.
Context {M : MathLib}.

Definition seededRandom (seed : float) : float :=
  let x := (Math_sin seed * 10000)%float in
  Math_floor ((x - Math_floor x) * 1000000)%float.

Definition normalDistribution (seed min max mean : float) : float :=
  let random1 := (Number_rem (seededRandom seed) 1000 / 1000)%float in
  let random2 := (Number_rem (seededRandom (seed + 1)) 1000 / 1000)%float in
  let normal :=
    (sqrt (-2 * Math_log random1) * Math_cos (2 * Math_PI * random2))%float in
  let scaled := (normal * 1.2 + mean)%float in
  Math_max min (Math_min max scaled).

Definition measurement (hash : Z) : float :=
  let sizeFloat := normalDistribution (Z2F hash) 3 10 6.5 in
  (Math_round (sizeFloat * 10) / 10)%float.

Definition generateResults (this : DickSizeChecker) (username : string) : Results :=
  let hash := hashUsername username in
  let size_ := measurement hash in
  let confidence_ := 75 + Z.rem hash 25 in
  let description_ := getDescriptionForSize this size_ hash in
  let useMetric := Z.rem hash 10 =? 0 in
  {| size := if useMetric then (Math_round (size_ * 2.54 * 10) / 10)%float else size_;
     unit := if useMetric then "cm" else "inches";
     confidence := confidence_;
     description := description_ |}.

End WithMath.

End Copy2.

(** ** A reference instance of [MathLib]

    Sine, cosine and logarithm by series in fixed-point arithmetic with
    [W] fractional bits, the result rounded to the nearest binary64 value.
    It serves to run the generator on concrete inputs; no theorem on the
    generator depends on it. *)

Module RefMath.

(** Fractional bits of the working precision, and of the argument
    reduction (enough for every binary64 argument). *)
Definition W : Z := 256.
Definition K : Z := 1280.

(** [sum_k sgn^k / ((2k+1) * n^(2k+1))]: the arc tangent of [1/n] for
    [sgn = -1], the hyperbolic one for [sgn = 1].  [pow] is the current
    [2^p / n^(2k+1)], [n2] is [n * n]. *)
Fixpoint inv_series (fuel : nat) (sgn n2 pow k acc : Z) : Z :=
  match fuel with
  | O => acc
  | S fuel' =>
      if pow =? 0 then acc
      else inv_series fuel' sgn n2 (sgn * (pow / n2)) (k + 2) (acc + pow / k)
  end.

(** [sum_k t^(2k+1) / (2k+1)], the hyperbolic arc tangent of a fixed-point
    number [t] with [W] fractional bits. *)
Fixpoint atanh_series (fuel : nat) (t2 pow k acc : Z) : Z :=
  match fuel with
  | O => acc
  | S fuel' =>
      if pow =? 0 then acc
      else atanh_series fuel' t2 (Z.shiftr (pow * t2) W) (k + 2) (acc + pow / k)
  end.

Definition atanh_fix (t : Z) : Z :=
  atanh_series 400 (Z.shiftr (t * t) W) t 1 0.

(** pi by Machin's formula, with [K] fractional bits. *)
Definition pi_fix : Z :=
  Eval vm_compute in
    16 * inv_series 4000 (-1) 25 (2 ^ K / 5) 1 0
    - 4 * inv_series 4000 (-1) (239 * 239) (2 ^ K / 239) 1 0.

Definition ln2_fix : Z :=
  Eval vm_compute in 2 * inv_series 4000 1 9 (2 ^ W / 3) 1 0.

(** [sum_k (-1)^k * r^(2k+s) / (2k+s)!]: the sine for [s = 1] and
    [term = r], the cosine for [s = 0] and [term = 1]. *)
Fixpoint trig_series (fuel : nat) (r2 term n acc : Z) : Z :=
  match fuel with
  | O => acc
  | S fuel' =>
      if term =? 0 then acc
      else
        trig_series fuel' r2 (- Z.shiftr (term * r2) W / ((n + 1) * (n + 2)))
          (n + 2) (acc + term)
  end.

(** The argument modulo 2 pi, with [W] fractional bits. *)
Definition reduce (m : positive) (e : Z) : Z :=
  Z.shiftr (Z.shiftl (Zpos m) (e + K) mod (2 * pi_fix)) (K - W).

Definition of_fix (v : Z) : float :=
  SF2Prim (binary_normalize prec emax v (- W) false).

Definition sin (x : float) : float :=
  match Prim2SF x with
  | S754_zero _ => x
  | S754_nan | S754_infinity _ => nan
  | S754_finite s m e =>
      if e <? -200 then x
      else
        let r := reduce m e in
        of_fix (cond_Zopp s (trig_series 400 (Z.shiftr (r * r) W) r 1 0))
  end.

Definition cos (x : float) : float :=
  match Prim2SF x with
  | S754_zero _ => 1%float
  | S754_nan | S754_infinity _ => nan
  | S754_finite s m e =>
      if e <? -200 then 1%float
      else
        let r := reduce m e in
        of_fix (trig_series 400 (Z.shiftr (r * r) W) (2 ^ W) 0 0)
  end.

Definition log (x : float) : float :=
  match Prim2SF x with
  | S754_nan => nan
  | S754_zero _ => neg_infinity
  | S754_infinity s => if s then nan else x
  | S754_finite true _ _ => nan
  | S754_finite false m e =>
      let d := Z.log2 (Zpos m) in
      let t := (Zpos m - 2 ^ d) * 2 ^ W / (Zpos m + 2 ^ d) in
      let v := (e + d) * ln2_fix + 2 * atanh_fix t in
      if v =? 0 then 0%float else of_fix v
  end.

Definition lib : MathLib :=
  {| Math_sin := sin; Math_cos := cos; Math_log := log |}.

End RefMath.

(** ** The wording of the specification, for comparison with the code *)

(** Wrap-around of a 32-bit signed accumulator. *)
Definition signed32 (z : Z) : Z := (z + 2 ^ 31) mod 2 ^ 32 - 2 ^ 31.

Definition codepoints (s : string) : list Z :=
  map charCodeAt (list_ascii_of_string s).

(** The hash as the specification words it: over the code points of the
    lower-cased string accumulate [h * 31 + codepoint] with 32-bit signed
    overflow, and return the absolute value of the accumulator. *)
Definition hash_spec (identifier : string) : Z :=
  Z.abs (fold_left (fun h c => signed32 (h * 31 + c))
           (codepoints (toLowerCase identifier)) 0).

(** The same with the shift of the source, [((h << 5) - h) + codepoint]
    truncated to 32 bits. *)
Definition hash_spec_shift (identifier : string) : Z :=
  Z.abs (fold_left (fun h c => signed32 ((Z.shiftl h 5 - h) + c))
           (codepoints (toLowerCase identifier)) 0).

(** The integers of the interval [[lo, lo + n)], in order. *)
Fixpoint Zrange (lo : Z) (n : nat) : list Z :=
  match n with
  | O => []
  | S n' => lo :: Zrange (lo + 1) n'
  end.

(** The measurement with [k] tenths, as [Math.round(x * 10) / 10] builds it. *)
Definition tenths (k : Z) : float := (Z2F k / 10)%float.

(** The number of categories of a table whose closed range holds [size]. *)
Definition matching_categories (table : list Category) (size : float) : nat :=
  length (filter (in_range size) table).

(** The fractional part as the script takes it, [x - Math.floor(x)]. *)
Definition frac (x : float) : float := (x - Math_floor x)%float.

(** ** Binary64 values as integers

    Every finite binary64 number is an integer multiple of 2^-1074, the
    smallest subnormal.  [ival] is that integer; sums and differences of
    doubles are exact on it, products are exact up to the factor [ONE], and
    the order of finite doubles is the order of their [ival]. *)

Definition sf_finite (x : spec_float) : bool :=
  match x with
  | S754_zero _ | S754_finite _ _ _ => true
  | _ => false
  end.

Definition sf_nan (x : spec_float) : bool :=
  match x with S754_nan => true | _ => false end.

Definition sf_sign (x : spec_float) : bool :=
  match x with
  | S754_zero s | S754_infinity s | S754_finite s _ _ => s
  | S754_nan => false
  end.

Definition sf_mag (x : spec_float) : Z :=
  match x with
  | S754_finite _ m e => Zpos m * 2 ^ (e + 1074)
  | _ => 0
  end.

Definition sf_ival (x : spec_float) : Z :=
  match x with
  | S754_finite s m e => cond_Zopp s (Zpos m * 2 ^ (e + 1074))
  | _ => 0
  end.

Definition ival (x : float) : Z := sf_ival (Prim2SF x).
Definition finite (x : float) : bool := sf_finite (Prim2SF x).

(** [ONE] is [ival 1]; [EPS] is [ival] of 2^-53, the gap between 1 and the
    double below it. *)
Definition ONE : Z := 2 ^ 1074.
Definition EPS : Z := 2 ^ 1021.

(** The double [x] is finite and its value is the integer [k]. *)
Definition holds (x : float) (k : Z) : Prop := finite x = true /\ ival x = k * ONE.

Definition sign_is (sx : bool) (r : spec_float) : Prop :=
  r = S754_zero sx \/ r = S754_infinity sx \/ exists m e, r = S754_finite sx m e.

(** [r], of sign [sx], is a rounding of the exact magnitude [P / 2^k]: it
    is a valid double or an infinity, and no double lies strictly between
    the exact magnitude and [r]. *)
Definition rounding_of (sx : bool) (P k : Z) (r : spec_float) : Prop :=
  valid_binary r = true /\ sign_is sx r /\
  forall (mB : positive) (eB : Z),
    canonical_mantissa prec emax mB eB = true -> eB <= 971 ->
    (Zpos mB * 2 ^ (eB + k) <= P ->
     r = S754_infinity sx \/ (sf_finite r = true /\ Zpos mB * 2 ^ (eB + 1074) <= sf_mag r))
    /\ (P <= Zpos mB * 2 ^ (eB + k) ->
        sf_finite r = true /\ sf_mag r <= Zpos mB * 2 ^ (eB + 1074)).

(** ** What the generator needs of [Math.sin], [Math.cos] and [Math.log] *)

Section Regularity.
Context {M : MathLib}.

(** The uniform samples [random1] and [random2] of [normalDistribution]. *)
Definition uniform (seed : float) : float :=
  (Number_rem (Copy1.seededRandom seed) 1000 / 1000)%float.

(** For the Box-Muller step at [seed]: the logarithm of the first sample is
    at most 0 (minus infinity included), as it is for an argument in [0, 1),
    and the cosine it multiplies by lies in [-1, 1] and is not zero. *)
Definition box_muller_regular (seed : float) : bool :=
  (Math_log (uniform seed) <=? 0)%float
  && ((-1 <=? Math_cos (2 * Math_PI * uniform (seed + 1)))%float
      && (Math_cos (2 * Math_PI * uniform (seed + 1)) <=? 1)%float
      && negb (Math_cos (2 * Math_PI * uniform (seed + 1)) =? 0)%float).

(** For [seededRandom] at [seed]: the sine lies in [-1, 1] and is not a
    negative number above -2^-66.  (The sine of a non-zero double is never
    that close to zero: no double is that close to a multiple of pi.) *)
Definition sin_regular (seed : float) : bool :=
  ((-1 <=? Math_sin seed)%float && (Math_sin seed <=? 1)%float)
  && ((0 <=? Math_sin seed)%float || (Math_sin seed <=? -0x1p-66)%float).

End Regularity.

(** ** The page around the generator

    The methods of [DickSizeChecker] that prepare the username and drive the
    page, the same in both copies of the class.  Strings are strings of code
    units below 256, as above; of the DOM the model keeps what these methods
    read and write: the value of the text field, class lists, the overflow
    style of the body and the focus. *)

Module Page.

(** [str.slice(start, end)] on integer indices: a negative index counts from
    the end of the string, and both are clamped to the string. *)
Definition slice_index (len i : Z) : Z :=
  if i <? 0 then Z.max (len + i) 0 else Z.min i len.

Definition slice (str : string) (start end_ : Z) : string :=
  let len := Z.of_nat (String.length str) in
  let from := slice_index len start in
  let to := slice_index len end_ in
  substring (Z.to_nat from) (Z.to_nat (to - from)) str.

(** [str.slice(start)]: the end defaults to the length. *)
Definition slice_from (str : string) (start : Z) : string :=
  slice str start (Z.of_nat (String.length str)).

(** [str.startsWith(searchString)] *)
Definition startsWith (str searchString : string) : bool :=
  prefix searchString str.

(** [str.replace(/[^a-zA-Z0-9_]/g, '')]: each code unit outside the class is
    deleted. *)
Fixpoint delete_non_word (str : string) : string :=
  match str with
  | EmptyString => EmptyString
  | String c rest =>
      if is_word_unit c then String c (delete_non_word rest)
      else delete_non_word rest
  end.

(** The code units of ASCII; on them [upper_unit] and [lower_unit] are the
    case mappings of ECMAScript. *)
Definition is_ascii_unit (c : ascii) : bool := charCodeAt c <? 128.

(** White space and line terminators of ECMAScript among the code units
    below 256: TAB, LF, VT, FF, CR, SP and NBSP. *)
Definition is_space_unit (c : ascii) : bool :=
  let n := charCodeAt c in
  ((9 <=? n) && (n <=? 13)) || (n =? 32) || (n =? 160).

Fixpoint trimStart (str : string) : string :=
  match str with
  | EmptyString => EmptyString
  | String c rest => if is_space_unit c then trimStart rest else str
  end.

Fixpoint trimEnd (str : string) : string :=
  match str with
  | EmptyString => EmptyString
  | String c rest =>
      match trimEnd rest with
      | EmptyString => if is_space_unit c then EmptyString else String c EmptyString
      | kept => String c kept
      end
  end.

(** [str.trim()] *)
Definition trim (str : string) : string := trimEnd (trimStart str).

(** A [classList]: the class tokens of an element, in order, each once. *)
Definition classList_contains (tokens : list string) (token : string) : bool :=
  existsb (String.eqb token) tokens.

Definition classList_add (tokens : list string) (token : string) : list string :=
  if classList_contains tokens token then tokens else tokens ++ [token].

Definition classList_remove (tokens : list string) (token : string) : list string :=
  filter (fun t => negb (String.eqb t token)) tokens.

(** The text field that [validateAndFormatInput] receives: its [value], and
    the class list of [input.closest('.input-wrapper')]. *)
Record Input : Type := {
  value : string;
  wrapper : list string
}.

Definition validateAndFormatInput (input : Input) : Input :=
  let value0 := value input in
  let value1 := if startsWith value0 "@" then slice_from value0 1 else value0 in
  let value2 := delete_non_word value1 in
  let value3 := slice value2 0 15 in
  {| value := value3;
     wrapper :=
       if (0 <? Z.of_nat (String.length value3)) && isValidUsername value3 then
         classList_remove (classList_add (wrapper input) "valid") "invalid"
       else if 0 <? Z.of_nat (String.length value3) then
         classList_remove (classList_add (wrapper input) "invalid") "valid"
       else
         classList_remove (classList_remove (wrapper input) "valid") "invalid" |}.

(** The calls that [handleFormSubmit] makes, in order: [this.showError],
    [this.performAnalysis] and [console.error] (of which the first argument
    is kept). *)
Inductive Call : Type :=
  | ShowError (message : string)
  | PerformAnalysis (username : string)
  | ConsoleError (label : string).

(** [handleFormSubmit] on the value of the text field; [analysis_fails]
    tells whether the awaited [performAnalysis] throws, which the [catch]
    answers with a log entry and the second message. *)
Definition handleFormSubmit (input_value : string) (analysis_fails : bool)
  : list Call :=
  let username := trim input_value in
  if negb (isValidUsername username) then
    [ShowError "Please enter a valid Twitter username"]
  else
    PerformAnalysis username ::
      (if analysis_fails
       then [ConsoleError "Analysis failed:";
             ShowError "Oops! Something went wrong. Please try again."]
       else []).

(** [this.elements], as far as the sections and the modals go: the class
    list of the element under each key, [None] where the key holds no
    element; the [overflow] style of the body; the key of the element that
    has the focus. *)
Record Elements : Type := {
  classes : string -> option (list string);
  body_overflow : string;
  focused : option string
}.

Definition set_classes (els : Elements) (key : string) (tokens : list string)
  : Elements :=
  {| classes := fun k => if String.eqb k key then Some tokens else classes els k;
     body_overflow := body_overflow els;
     focused := focused els |}.

(** An element is shown when it exists and its class list has no [hidden]. *)
Definition visible (els : Elements) (key : string) : bool :=
  match classes els key with
  | Some tokens => negb (classList_contains tokens "hidden")
  | None => false
  end.

(** The [forEach] of [showSection]; reading [classList] of a missing element
    throws, which is [None]. *)
Fixpoint showSection_forEach (els : Elements) (section : string)
  (sections : list string) : option Elements :=
  match sections with
  | [] => Some els
  | sectionName :: rest =>
      match classes els (sectionName ++ "Section")%string with
      | None => None
      | Some tokens =>
          let tokens' :=
            if String.eqb sectionName section
            then classList_remove tokens "hidden"
            else classList_add tokens "hidden" in
          showSection_forEach (set_classes els (sectionName ++ "Section")%string tokens')
            section rest
      end
  end.

Definition showSection (els : Elements) (section : string) : option Elements :=
  showSection_forEach els section ["input"; "loading"; "results"].

(** [modalType.charAt(0).toUpperCase()] followed by [modalType.slice(1)]. *)
Definition capitalize (modalType : string) : string :=
  (match modalType with
   | EmptyString => EmptyString
   | String c _ => String (upper_unit c) EmptyString
   end ++ slice_from modalType 1)%string.

Definition showModal (els : Elements) (modalType : string) : option Elements :=
  match classes els (modalType ++ "Modal")%string with
  | None => None
  | Some tokens =>
      let els1 := set_classes els (modalType ++ "Modal")%string
                    (classList_remove tokens "hidden") in
      let closeBtn := ("close" ++ capitalize modalType)%string in
      match classes els1 closeBtn with
      | None => None
      | Some _ =>
          Some {| classes := classes els1;
                  body_overflow := "hidden";
                  focused := Some closeBtn |}
      end
  end.

Definition hideModal (els : Elements) (modalType : string) : option Elements :=
  match classes els (modalType ++ "Modal")%string with
  | None => None
  | Some tokens =>
      let els1 := set_classes els (modalType ++ "Modal")%string
                    (classList_add tokens "hidden") in
      Some {| classes := classes els1;
              body_overflow := EmptyString;
              focused := focused els1 |}
  end.

(** [getRandomDelay]; [random] is the value that the call of [Math.random]
    returns. *)
Definition getRandomDelay (random min max : float) : float :=
  (Math_floor (random * (max - min + 1)) + min)%float.

End Page.

(** ** The analysis, as the sequence of what it does *)

Module Analysis.



Section WithMath.
Context {M : MathLib}.


End WithMath.

End Analysis.

(** ** Exact arithmetic, and checks of the tables *)

(** The percentile of a measurement of [k] tenths in exact arithmetic:
    [50 + z * 16.67] with [z = (k / 10 - 6.5) / 2], rounded half up, and
    at most 99. *)
Definition percentile_exact (k : Z) : Z :=
  Z.min 99 ((8335 * (k - 65) + 505000) / 10000).

(** The tenths of centimetres of [k] tenths of inches in exact arithmetic:
    [k * 2.54], rounded half up. *)
Definition metric_exact (k : Z) : Z := (254 * k + 50) / 100.

(** Two doubles compare equal and the first is positive. *)
Definition same_positive (x y : float) : bool :=
  (x =? y)%float && (0 <? x)%float.

(** The category of a measurement of [k] tenths exists in [table], holds
    four descriptions, and none of them is the fallback. *)
Definition grid_category (table : list Category) (k : Z) : bool :=
  match find (in_range (tenths k)) table with
  | Some category =>
      Nat.eqb (length (descriptions category)) 4
      && negb (existsb (String.eqb fallback_description) (descriptions category))
  | None => false
  end.

(** The polynomial of the code units [c1 ... cn] at 31:
    [c1 * 31^(n-1) + ... + cn], in unbounded integers. *)
Fixpoint polynomial31 (units : list Z) : Z :=
  match units with
  | [] => 0
  | c :: rest => c * 31 ^ Z.of_nat (length rest) + polynomial31 rest
  end.

(** The ranges of a table have finite bounds, and each ends below the start
    of every later one. *)
Fixpoint ranges_separated (table : list Category) : bool :=
  match table with
  | [] => true
  | category :: rest =>
      finite (snd (range category))
      && forallb (fun later => finite (fst (range later))
                               && (snd (range category) <? fst (range later))%float)
           rest
      && ranges_separated rest
  end.

(** No description of the table is the fallback string, and no category is
    empty. *)
Definition proper_descriptions (table : list Category) : bool :=
  forallb (fun category =>
             negb (Nat.eqb (length (descriptions category)) 0)
             && negb (existsb (String.eqb fallback_description) (descriptions category)))
    table.

(** ** Facts on [ToInt32] and the hash *)

Lemma ToInt32_signed32 (z : Z) : JS.ToInt32 z = signed32 z.
Proof.
  unfold JS.ToInt32, signed32.
  pose proof (Z.mod_pos_bound z (2 ^ 32) ltac:(lia)) as Hm.
  pose proof (Z.div_mod z (2 ^ 32) ltac:(lia)) as Hz.
  destruct (Z.leb_spec (2 ^ 31) (z mod 2 ^ 32)) as [Hge | Hlt].
  - assert ((z + 2 ^ 31) mod 2 ^ 32 = z mod 2 ^ 32 - 2 ^ 31) as ->; [|lia].
    symmetry. apply Z.mod_unique with (q := z / 2 ^ 32 + 1); lia.
  - assert ((z + 2 ^ 31) mod 2 ^ 32 = z mod 2 ^ 32 + 2 ^ 31) as ->; [|lia].
    symmetry. apply Z.mod_unique with (q := z / 2 ^ 32); lia.
Qed.

Lemma signed32_range (z : Z) : - 2 ^ 31 <= signed32 z < 2 ^ 31.
Proof.
  unfold signed32.
  pose proof (Z.mod_pos_bound (z + 2 ^ 31) (2 ^ 32) ltac:(lia)). lia.
Qed.

Lemma signed32_small (z : Z) : - 2 ^ 31 <= z < 2 ^ 31 -> signed32 z = z.
Proof.
  intros Hz. unfold signed32. rewrite Z.mod_small; lia.
Qed.

Lemma signed32_congr (a b : Z) :
  a mod 2 ^ 32 = b mod 2 ^ 32 -> signed32 a = signed32 b.
Proof.
  intros Hab. unfold signed32.
  rewrite (Z.add_mod a), (Z.add_mod b), Hab by lia. reflexivity.
Qed.

Lemma signed32_mod (z : Z) : signed32 z mod 2 ^ 32 = z mod 2 ^ 32.
Proof.
  unfold signed32.
  pose proof (Z.div_mod (z + 2 ^ 31) (2 ^ 32) ltac:(lia)) as Hz.
  replace ((z + 2 ^ 31) mod 2 ^ 32 - 2 ^ 31)
    with (z + - ((z + 2 ^ 31) / 2 ^ 32) * 2 ^ 32) by lia.
  apply Z_mod_plus_full.
Qed.

(** One turn of the loop, on an accumulator in the 32-bit range, is the
    step of the specification. *)
Lemma hash_step (h c : Z) :
  - 2 ^ 31 <= h < 2 ^ 31 ->
  JS.and ((JS.shl h 5 - h) + c) ((JS.shl h 5 - h) + c) = signed32 (h * 31 + c).
Proof.
  intros Hh. unfold JS.and, JS.shl.
  rewrite Z.land_diag, !ToInt32_signed32.
  rewrite (signed32_small h Hh), (signed32_small (signed32 _)) by apply signed32_range.
  change (5 mod 32) with 5. rewrite Z.shiftl_mul_pow2 by lia.
  apply signed32_congr.
  rewrite <- Zplus_mod_idemp_l, <- Zminus_mod_idemp_l, signed32_mod.
  rewrite Zminus_mod_idemp_l, Zplus_mod_idemp_l. f_equal. lia.
Qed.

(** The Numbers of one turn stay integers far below 2^53, so binary64
    computes them without rounding and [Z] models them exactly. *)
Lemma hash_step_exact (h c : Z) :
  - 2 ^ 31 <= h < 2 ^ 31 -> 0 <= c < 2 ^ 16 ->
  Z.abs (JS.shl h 5) < 2 ^ 53 /\
  Z.abs (JS.shl h 5 - h) < 2 ^ 53 /\
  Z.abs ((JS.shl h 5 - h) + c) < 2 ^ 53.
Proof.
  intros Hh Hc. unfold JS.shl.
  rewrite ToInt32_signed32.
  pose proof (signed32_range (Z.shiftl (JS.ToInt32 h) (5 mod 32))).
  lia.
Qed.

Lemma hash_loop_fold (str : string) (h : Z) :
  - 2 ^ 31 <= h < 2 ^ 31 ->
  Copy1.hash_loop str h =
    fold_left (fun h c => signed32 (h * 31 + c)) (codepoints str) h
  /\ - 2 ^ 31 <= Copy1.hash_loop str h < 2 ^ 31.
Proof.
  revert h. induction str as [|c rest IH]; intros h Hh.
  - split; [reflexivity | exact Hh].
  - cbn [Copy1.hash_loop]. unfold codepoints. cbn [list_ascii_of_string map fold_left].
    rewrite hash_step by exact Hh.
    apply IH, signed32_range.
Qed.

Lemma shift_step (h c : Z) :
  signed32 ((Z.shiftl h 5 - h) + c) = signed32 (h * 31 + c).
Proof.
  rewrite Z.shiftl_mul_pow2 by lia. f_equal. lia.
Qed.

Lemma fold_shift (l : list Z) (h : Z) :
  fold_left (fun h c => signed32 ((Z.shiftl h 5 - h) + c)) l h =
  fold_left (fun h c => signed32 (h * 31 + c)) l h.
Proof.
  revert h. induction l as [|c l IH]; intros h; cbn [fold_left].
  - reflexivity.
  - rewrite shift_step. apply IH.
Qed.

Lemma hashUsername_range (s : string) : 0 <= Copy1.hashUsername s <= 2 ^ 31.
Proof.
  unfold Copy1.hashUsername.
  pose proof (proj2 (hash_loop_fold (toLowerCase s) 0 ltac:(lia))). lia.
Qed.

(** C6: [hashUsername] lower-cases its input and folds [h * 31 + codepoint]
    with 32-bit signed wrap-around (the same as [((h << 5) - h) + codepoint]
    truncated to 32 bits) over the code units, and returns the absolute
    value of the accumulator; it is a total function, and the empty string
    hashes to 0. *)
Theorem hashUsername_spec (s : string) :
  Copy1.hashUsername s = hash_spec s
  /\ Copy1.hashUsername s = hash_spec_shift s
  /\ 0 <= Copy1.hashUsername s <= 2 ^ 31
  /\ Copy1.hashUsername "" = 0.
Proof.
  assert (Copy1.hashUsername s = hash_spec s) as Hs.
  { unfold Copy1.hashUsername, hash_spec.
    f_equal. apply hash_loop_fold. lia. }
  split; [exact Hs | split; [| split]].
  - rewrite Hs. unfold hash_spec, hash_spec_shift. now rewrite fold_shift.
  - apply hashUsername_range.
  - reflexivity.
Qed.

Lemma hash_loop_copies_agree (str : string) (h : Z) :
  Copy1.hash_loop str h = Copy2.hash_loop str h.
Proof.
  revert h. induction str as [|c rest IH]; intros h.
  - reflexivity.
  - cbn [Copy1.hash_loop Copy2.hash_loop]. apply IH.
Qed.

Lemma hashUsername_second (username : string) :
  Copy2.hashUsername username = Copy1.hashUsername username.
Proof.
  unfold Copy1.hashUsername, Copy2.hashUsername.
  exact (f_equal Z.abs (eq_sym (hash_loop_copies_agree (toLowerCase username) 0))).
Qed.

(** C10: the [hashUsername] of the first copy of the class (sizes 1-13, with
    percentile) and the one of the second copy (sizes 3-10) compute the same
    hash for every username string. *)
Theorem hashUsername_copies_agree (username : string) :
  Copy1.hashUsername username = Copy2.hashUsername username.
Proof.
  symmetry. apply hashUsername_second.
Qed.

(** ** Case folding *)

Lemma lower_unit_idem (c : ascii) : lower_unit (lower_unit c) = lower_unit c.
Proof.
  destruct c as [[] [] [] [] [] [] [] []]; reflexivity.
Qed.

Lemma lower_upper_unit (c : ascii) : lower_unit (upper_unit c) = lower_unit c.
Proof.
  destruct c as [[] [] [] [] [] [] [] []]; reflexivity.
Qed.

Lemma toLowerCase_idem (s : string) : toLowerCase (toLowerCase s) = toLowerCase s.
Proof.
  induction s as [|c rest IH]; cbn [toLowerCase].
  - reflexivity.
  - now rewrite lower_unit_idem, IH.
Qed.

Lemma toLowerCase_toUpperCase (s : string) :
  toLowerCase (toUpperCase s) = toLowerCase s.
Proof.
  induction s as [|c rest IH]; cbn [toLowerCase toUpperCase].
  - reflexivity.
  - now rewrite lower_upper_unit, IH.
Qed.

Lemma hashUsername_toLowerCase (s : string) :
  Copy1.hashUsername (toLowerCase s) = Copy1.hashUsername s.
Proof.
  unfold Copy1.hashUsername. now rewrite toLowerCase_idem.
Qed.

Lemma hashUsername_toUpperCase (s : string) :
  Copy1.hashUsername (toUpperCase s) = Copy1.hashUsername s.
Proof.
  unfold Copy1.hashUsername. now rewrite toLowerCase_toUpperCase.
Qed.

(** Case folding keeps a valid username valid. *)
Lemma is_word_lower_unit (c : ascii) : is_word_unit (lower_unit c) = is_word_unit c.
Proof.
  destruct c as [[] [] [] [] [] [] [] []]; reflexivity.
Qed.

Lemma is_word_upper_unit (c : ascii) : is_word_unit (upper_unit c) = is_word_unit c.
Proof.
  destruct c as [[] [] [] [] [] [] [] []]; reflexivity.
Qed.

Lemma isValidUsername_toLowerCase (s : string) :
  isValidUsername (toLowerCase s) = isValidUsername s.
Proof.
  unfold isValidUsername.
  assert (String.length (toLowerCase s) = String.length s) as ->
    by (induction s; cbn; congruence).
  assert (all_units is_word_unit (toLowerCase s) = all_units is_word_unit s) as ->.
  { induction s as [|c rest IH]; cbn [toLowerCase all_units]; [reflexivity|].
    now rewrite is_word_lower_unit, IH. }
  reflexivity.
Qed.

Lemma isValidUsername_toUpperCase (s : string) :
  isValidUsername (toUpperCase s) = isValidUsername s.
Proof.
  unfold isValidUsername.
  assert (String.length (toUpperCase s) = String.length s) as ->
    by (induction s; cbn; congruence).
  assert (all_units is_word_unit (toUpperCase s) = all_units is_word_unit s) as ->.
  { induction s as [|c rest IH]; cbn [toUpperCase all_units]; [reflexivity|].
    now rewrite is_word_upper_unit, IH. }
  reflexivity.
Qed.

(** ** The generator depends on the username through its hash only *)

Section Generator.
Context {M : MathLib}.

Lemma generateResults_hash (this : Copy1.DickSizeChecker) (s s' : string) :
  Copy1.hashUsername s = Copy1.hashUsername s' ->
  Copy1.generateResults this s = Copy1.generateResults this s'.
Proof.
  intros Hh. unfold Copy1.generateResults. now rewrite Hh.
Qed.

Lemma generateResults_table (this this' : Copy1.DickSizeChecker) (s : string) :
  Copy1.humorousDescriptions this' = Copy1.humorousDescriptions this ->
  Copy1.generateResults this' s = Copy1.generateResults this s.
Proof.
  intros Ht. unfold Copy1.generateResults, Copy1.getDescriptionForSize.
  now rewrite Ht.
Qed.

Lemma step_keeps_table (this this' : Copy1.DickSizeChecker) :
  Copy1.step this this' ->
  Copy1.humorousDescriptions this' = Copy1.humorousDescriptions this.
Proof.
  intros Hs. destruct Hs; reflexivity.
Qed.

Lemma steps_keep_table (this this' : Copy1.DickSizeChecker) :
  clos_refl_trans _ Copy1.step this this' ->
  Copy1.humorousDescriptions this' = Copy1.humorousDescriptions this.
Proof.
  intros Hs. induction Hs as [a b Hab | a | a b c _ IH1 _ IH2].
  - now apply step_keeps_table.
  - reflexivity.
  - congruence.
Qed.

(** C1: two invocations of [generateResults] on the same identifier return
    the same record (size, unit, confidence, description, percentile),
    whatever [displayResults] and [resetToInitialState] did to the object
    between them. *)
Theorem generateResults_deterministic
  (this this' : Copy1.DickSizeChecker) (s : string) :
  isValidUsername s = true ->
  clos_refl_trans _ Copy1.step this this' ->
  Copy1.generateResults this' s = Copy1.generateResults this s.
Proof.
  intros _ Hs. apply generateResults_table, steps_keep_table, Hs.
Qed.

(** C2: for a valid identifier, [generateResults] returns the same record
    on the identifier, on its lower-cased form and on its upper-cased form,
    since the hash is taken of the lower-cased string. *)
Theorem generateResults_case_insensitive
  (this : Copy1.DickSizeChecker) (s : string) :
  isValidUsername s = true ->
  Copy1.generateResults this (toLowerCase s) = Copy1.generateResults this s
  /\ Copy1.generateResults this (toUpperCase s) = Copy1.generateResults this s
  /\ isValidUsername (toLowerCase s) = true
  /\ isValidUsername (toUpperCase s) = true.
Proof.
  intros Hv. split; [|split; [|split]].
  - apply generateResults_hash, hashUsername_toLowerCase.
  - apply generateResults_hash, hashUsername_toUpperCase.
  - now rewrite isValidUsername_toLowerCase.
  - now rewrite isValidUsername_toUpperCase.
Qed.

(** C5: [generateResults] picks the unit 'cm' exactly when the hash is a
    multiple of 10; the displayed size is then the measurement times 2.54
    rounded to one decimal, and otherwise the unit is 'inches' and the
    displayed size is the measurement itself. *)
Theorem generateResults_unit (this : Copy1.DickSizeChecker) (s : string) :
  isValidUsername s = true ->
  let r := Copy1.generateResults this s in
  let h := Copy1.hashUsername s in
  (Copy1.unit r = "cm" <-> h mod 10 = 0)
  /\ (h mod 10 = 0 ->
      Copy1.unit r = "cm"
      /\ Copy1.size r = round1 (Copy1.measurement h * 2.54)%float)
  /\ (h mod 10 <> 0 ->
      Copy1.unit r = "inches" /\ Copy1.size r = Copy1.measurement h).
Proof.
  intros _ r h. subst r. unfold Copy1.generateResults. fold h. cbn.
  assert (Z.rem h 10 = h mod 10) as ->.
  { apply Z.rem_mod_nonneg; [apply hashUsername_range | lia]. }
  destruct (Z.eqb_spec (h mod 10) 0) as [He | Hne].
  - split; [|split].
    + split; [intros _; exact He | reflexivity].
    + intros _. split; reflexivity.
    + intros Hne. contradiction.
  - split; [|split].
    + split; [discriminate | intros He; contradiction].
    + intros He. contradiction.
    + intros _. split; reflexivity.
Qed.

End Generator.

Lemma generateResults_deterministic_witness :
  let this := Copy1.constructor in
  let r := Copy1.generateResults (M := RefMath.lib) this "alice" in
  Copy1.generateResults (M := RefMath.lib) (Copy1.displayResults this "alice" r) "alice" = r.
Proof.
  intros this r.
  apply (generateResults_deterministic (M := RefMath.lib)
           this (Copy1.displayResults this "alice" r) "alice").
  - reflexivity.
  - apply rt_step. constructor.
Defined.

Lemma generateResults_case_insensitive_witness :
  Copy1.generateResults (M := RefMath.lib) Copy1.constructor "foo"
  = Copy1.generateResults (M := RefMath.lib) Copy1.constructor "Foo"
  /\ Copy1.generateResults (M := RefMath.lib) Copy1.constructor "FOO"
     = Copy1.generateResults (M := RefMath.lib) Copy1.constructor "Foo".
Proof.
  pose proof (generateResults_case_insensitive (M := RefMath.lib)
                Copy1.constructor "Foo" eq_refl) as H.
  split; [exact (proj1 H) | exact (proj1 (proj2 H))].
Defined.

Lemma generateResults_unit_witness :
  let r := Copy1.generateResults (M := RefMath.lib) Copy1.constructor "alice" in
  Copy1.unit r = "cm"
  /\ Copy1.size r = round1 (Copy1.measurement (M := RefMath.lib) 92903040 * 2.54)%float.
Proof.
  refine (proj1 (proj2 (generateResults_unit (M := RefMath.lib)
                          Copy1.constructor "alice" eq_refl)) _).
  reflexivity.
Defined.

(** ** The category table *)

Lemma Zrange_In (k lo : Z) (n : nat) :
  lo <= k < lo + Z.of_nat n -> In k (Zrange lo n).
Proof.
  revert lo. induction n as [|n IH]; intros lo Hk.
  - lia.
  - cbn [Zrange]. destruct (Z.eq_dec lo k) as [-> | Hne].
    + now left.
    + right. apply IH. lia.
Qed.

Lemma first_table_grid :
  forallb (fun k => Nat.eqb (matching_categories Copy1.initial_humorousDescriptions (tenths k)) 1)
    (Zrange 10 121) = true.
Proof. vm_compute. reflexivity. Qed.

Lemma second_table_grid :
  forallb (fun k => Nat.eqb (matching_categories Copy2.initial_humorousDescriptions (tenths k)) 1)
    (Zrange 30 71) = true.
Proof. vm_compute. reflexivity. Qed.

(** C4: each measurement on the grid of tenths between the bounds (1.0 to
    13.0 for the first table, 3.0 to 10.0 for the second) lies in the closed
    range of exactly one category: on the grid the ranges leave no gap and
    do not overlap. *)
Theorem category_coverage (k : Z) :
  (10 <= k <= 130 ->
   matching_categories Copy1.initial_humorousDescriptions (tenths k) = 1%nat)
  /\ (30 <= k <= 100 ->
      matching_categories Copy2.initial_humorousDescriptions (tenths k) = 1%nat).
Proof.
  split; intros Hk.
  - pose proof first_table_grid as H. rewrite forallb_forall in H.
    apply Nat.eqb_eq, H, Zrange_In. lia.
  - pose proof second_table_grid as H. rewrite forallb_forall in H.
    apply Nat.eqb_eq, H, Zrange_In. lia.
Qed.

Lemma category_coverage_witness :
  matching_categories Copy1.initial_humorousDescriptions (tenths 26) = 1%nat
  /\ matching_categories Copy2.initial_humorousDescriptions (tenths 40) = 1%nat.
Proof.
  split.
  - apply (proj1 (category_coverage 26)). lia.
  - apply (proj2 (category_coverage 40)). lia.
Defined.

Lemma scan_categories_find (table : list Category) (size : float) (hash : Z) :
  Copy1.scan_categories table size hash =
    match find (in_range size) table with
    | Some category =>
        JS.index (descriptions category)
          (Z.rem hash (Z.of_nat (length (descriptions category))))
    | None => Some fallback_description
    end.
Proof.
  induction table as [|category rest IH]; cbn [Copy1.scan_categories find].
  - reflexivity.
  - destruct (in_range size category); [reflexivity | exact IH].
Qed.

Lemma index_in_bounds {A : Type} (arr : list A) (hash : Z) :
  0 <= hash -> arr <> [] ->
  exists a, JS.index arr (Z.rem hash (Z.of_nat (length arr))) = Some a.
Proof.
  intros Hh Hne.
  assert (0 < Z.of_nat (length arr)) as Hlen by (destruct arr; [congruence | cbn; lia]).
  pose proof (Z.rem_bound_pos hash _ Hh Hlen) as Hr.
  unfold JS.index.
  destruct (Z.ltb_spec (Z.rem hash (Z.of_nat (length arr))) 0) as [Hneg | _]; [lia|].
  destruct (nth_error arr (Z.to_nat (Z.rem hash (Z.of_nat (length arr))))) as [a|] eqn:Hn.
  - now exists a.
  - apply nth_error_None in Hn. lia.
Qed.

Lemma first_table_descriptions :
  Forall (fun category => descriptions category <> [])
    Copy1.initial_humorousDescriptions.
Proof. repeat constructor; discriminate. Qed.

(** C8: [getDescriptionForSize] is a total function: it returns
    [descriptions[hash % length]] of the first category whose closed range
    holds the measurement, and the fallback string when no category does;
    on the table of the constructor the result is a string for every
    measurement and every non-negative hash. *)
Theorem getDescriptionForSize_total
  (this : Copy1.DickSizeChecker) (size : float) (hash : Z) :
  Copy1.getDescriptionForSize this size hash =
    match find (in_range size) (Copy1.humorousDescriptions this) with
    | Some category =>
        JS.index (descriptions category)
          (Z.rem hash (Z.of_nat (length (descriptions category))))
    | None => Some fallback_description
    end
  /\ (0 <= hash ->
      exists text, Copy1.getDescriptionForSize Copy1.constructor size hash = Some text).
Proof.
  split.
  - apply scan_categories_find.
  - intros Hh. unfold Copy1.getDescriptionForSize.
    rewrite scan_categories_find.
    destruct (find _ _) as [category|] eqn:Hf.
    + apply index_in_bounds; [exact Hh|].
      apply find_some in Hf. destruct Hf as [Hin _].
      pose proof first_table_descriptions as Hall.
      rewrite Forall_forall in Hall. now apply Hall.
    + now exists fallback_description.
Qed.

Lemma getDescriptionForSize_total_witness :
  exists text,
    Copy1.getDescriptionForSize Copy1.constructor 6.3%float 92903040 = Some text.
Proof.
  apply (proj2 (getDescriptionForSize_total Copy1.constructor 6.3%float 92903040)).
  lia.
Defined.

(** ** Binary64 arithmetic

    The operations of [SpecFloat] round through [binary_round_aux]; the
    lemmas below characterise that rounding on an exact mantissa, derive
    that a product, sum or difference of doubles stays between any two
    doubles that bound its exact value, and lift this to the primitive
    operations through their specification. *)


(** *** Digits *)
Lemma digits2_pos_bounds (m : positive) :
  2 ^ (Zpos (digits2_pos m) - 1) <= Zpos m < 2 ^ Zpos (digits2_pos m).
Proof.
  induction m as [m IH | m IH |]; cbn [digits2_pos].
  - rewrite Pos2Z.inj_succ, Pos2Z.inj_xI.
    replace (Z.succ (Zpos (digits2_pos m)) - 1) with (Z.succ (Zpos (digits2_pos m) - 1)) by lia.
    rewrite !Z.pow_succ_r by lia.
    revert IH. generalize (2 ^ (Zpos (digits2_pos m) - 1)) (2 ^ Zpos (digits2_pos m)). intros; lia.
  - rewrite Pos2Z.inj_succ. change (Zpos m~0) with (2 * Zpos m).
    replace (Z.succ (Zpos (digits2_pos m)) - 1) with (Z.succ (Zpos (digits2_pos m) - 1)) by lia.
    rewrite !Z.pow_succ_r by lia.
    revert IH. generalize (2 ^ (Zpos (digits2_pos m) - 1)) (2 ^ Zpos (digits2_pos m)). intros; lia.
  - cbn. lia.
Qed.

Lemma pow2_pos (n : Z) : 0 <= n -> 0 < 2 ^ n.
Proof. intros. apply Z.pow_pos_nonneg; lia. Qed.

Lemma pow2_le (a b : Z) : 0 <= a <= b -> 2 ^ a <= 2 ^ b.
Proof. intros. apply Z.pow_le_mono_r; lia. Qed.

Lemma pow2_lt (a b : Z) : 0 <= a < b -> 2 ^ a < 2 ^ b.
Proof. intros. apply Z.pow_lt_mono_r; lia. Qed.

(** digits from bounds *)
Lemma digits2_pos_unique (m : positive) (d : Z) :
  2 ^ (d - 1) <= Zpos m < 2 ^ d -> 1 <= d -> Zpos (digits2_pos m) = d.
Proof.
  intros [Hlo Hhi] Hd.
  pose proof (digits2_pos_bounds m) as [Hlo' Hhi'].
  set (d' := Zpos (digits2_pos m)) in *.
  assert (1 <= d') by (subst d'; lia).
  destruct (Z.lt_trichotomy d d') as [Hlt | [Heq | Hgt]]; [|auto|].
  - assert (2 ^ d <= 2 ^ (d' - 1)) by (apply pow2_le; lia). lia.
  - assert (2 ^ d' <= 2 ^ (d - 1)) by (apply pow2_le; lia). lia.
Qed.

(** *** Validity *)
Lemma fexp_eq (e : Z) : fexp prec emax e = Z.max (e - 53) (-1074).
Proof. reflexivity. Qed.

Lemma canonical_inv (m : positive) (e : Z) :
  canonical_mantissa prec emax m e = true ->
  -1074 <= e /\ Zpos m < 2 ^ 53 /\ (-1074 < e -> 2 ^ 52 <= Zpos m).
Proof.
  unfold canonical_mantissa. rewrite fexp_eq. intros H%Z.eqb_eq.
  pose proof (digits2_pos_bounds m) as [Hlo Hhi].
  set (d := Zpos (digits2_pos m)) in *.
  assert (1 <= d) by (subst d; lia).
  split; [lia|]. split.
  - assert (d <= 53) by lia.
    assert (2 ^ d <= 2 ^ 53) by (apply pow2_le; lia). lia.
  - intros He. assert (d = 53) as Hd by lia. rewrite Hd in Hlo. exact Hlo.
Qed.

Lemma valid_finite_inv (s : bool) (m : positive) (e : Z) :
  valid_binary (S754_finite s m e) = true ->
  -1074 <= e <= 971 /\ Zpos m < 2 ^ 53 /\ (-1074 < e -> 2 ^ 52 <= Zpos m).
Proof.
  cbn [SpecFloat.valid_binary]. unfold bounded. intros [Hc He]%andb_true_iff.
  apply canonical_inv in Hc. apply Z.leb_le in He. change (emax - prec) with 971 in He. lia.
Qed.

(** *** Order *)
Lemma scaled_lt (m1 m2 e1 e2 : Z) :
  0 <= e1 < e2 -> 0 < m1 < 2 ^ 53 -> 2 ^ 52 <= m2 ->
  m1 * 2 ^ e1 < m2 * 2 ^ e2.
Proof.
  intros He Hm1 Hm2.
  replace e2 with (e1 + 1 + (e2 - e1 - 1)) by lia.
  rewrite !Z.pow_add_r by lia. change (2 ^ 1) with 2.
  pose proof (pow2_pos e1 ltac:(lia)) as HA.
  pose proof (pow2_pos (e2 - e1 - 1) ltac:(lia)) as HB.
  assert (m1 < 2 * m2) as Hm by lia.
  revert HA HB. generalize (2 ^ e1) (2 ^ (e2 - e1 - 1)). intros A B HA HB.
  assert (m1 * A < 2 * m2 * A) by nia.
  assert (2 * m2 * A <= 2 * m2 * A * B) by nia.
  lia.
Qed.

Lemma mag_compare (m1 m2 : positive) (e1 e2 : Z) :
  canonical_mantissa prec emax m1 e1 = true ->
  canonical_mantissa prec emax m2 e2 = true ->
  (Zpos m1 * 2 ^ (e1 + 1074) ?= Zpos m2 * 2 ^ (e2 + 1074)) =
  match e1 ?= e2 with
  | Lt => Lt
  | Gt => Gt
  | Eq => Pos.compare_cont Eq m1 m2
  end.
Proof.
  intros H1%canonical_inv H2%canonical_inv.
  destruct (Z.compare_spec e1 e2) as [-> | Hlt | Hgt].
  - change (Pos.compare_cont Eq m1 m2) with (Zpos m1 ?= Zpos m2).
    pose proof (pow2_pos (e2 + 1074) ltac:(lia)).
    destruct (Z.compare_spec (Zpos m1) (Zpos m2)) as [E | L | EPS].
    + rewrite E. apply Z.compare_refl.
    + apply Z.compare_lt_iff. nia.
    + apply Z.compare_gt_iff. nia.
  - apply Z.compare_lt_iff. apply scaled_lt; lia.
  - apply Z.compare_gt_iff. apply scaled_lt; lia.
Qed.

Lemma sf_mag_pos (s : bool) (m : positive) (e : Z) :
  -1074 <= e -> 0 < sf_mag (S754_finite s m e).
Proof.
  intros He. cbn [sf_mag]. pose proof (pow2_pos (e + 1074) ltac:(lia)). nia.
Qed.

Lemma SFcompare_ival (x y : spec_float) :
  valid_binary x = true -> valid_binary y = true ->
  sf_finite x = true -> sf_finite y = true ->
  SFcompare x y = Some (sf_ival x ?= sf_ival y).
Proof.
  intros Vx Vy Fx Fy.
  destruct x as [sx | sx | | sx mx ex]; try discriminate;
  destruct y as [sy | sy | | sy my ey]; try discriminate.
  - reflexivity.
  - pose proof (valid_finite_inv _ _ _ Vy) as [He _].
    pose proof (sf_mag_pos sy my ey ltac:(lia)) as Hp. cbn [sf_mag] in Hp.
    cbn [SFcompare sf_ival]. destruct sy; cbn [cond_Zopp]; f_equal; symmetry.
    + apply Z.compare_gt_iff. lia.
    + apply Z.compare_lt_iff. lia.
  - pose proof (valid_finite_inv _ _ _ Vx) as [He _].
    pose proof (sf_mag_pos sx mx ex ltac:(lia)) as Hp. cbn [sf_mag] in Hp.
    cbn [SFcompare sf_ival]. destruct sx; cbn [cond_Zopp]; f_equal; symmetry.
    + apply Z.compare_lt_iff. lia.
    + apply Z.compare_gt_iff. lia.
  - pose proof (valid_finite_inv _ _ _ Vx) as [Hex _].
    pose proof (valid_finite_inv _ _ _ Vy) as [Hey _].
    pose proof (sf_mag_pos sx mx ex ltac:(lia)) as Hpx. cbn [sf_mag] in Hpx.
    pose proof (sf_mag_pos sy my ey ltac:(lia)) as Hpy. cbn [sf_mag] in Hpy.
    cbn [SpecFloat.valid_binary] in Vx, Vy. unfold bounded in Vx, Vy.
    apply andb_true_iff in Vx, Vy. destruct Vx as [Cx _], Vy as [Cy _].
    cbn [SFcompare sf_ival]. f_equal.
    destruct sx, sy; cbn [cond_Zopp].
    + rewrite (Z.compare_opp (Zpos mx * 2 ^ (ex + 1074))).
      rewrite (Z.compare_antisym (Zpos mx * 2 ^ (ex + 1074))).
      rewrite (mag_compare mx my ex ey Cx Cy).
      now destruct (ex ?= ey).
    + symmetry. apply Z.compare_lt_iff. lia.
    + symmetry. apply Z.compare_gt_iff. lia.
    + rewrite <- (mag_compare mx my ex ey Cx Cy). reflexivity.
Qed.

(** *** Shifting right *)
Lemma iter_pos_nat {A : Type} (f : A -> A) (p : positive) (x : A) :
  iter_pos f p x = Nat.iter (Pos.to_nat p) f x.
Proof.
  revert x. induction p as [p IH | p IH |]; intros x; cbn [iter_pos].
  - rewrite !IH, Pos2Nat.inj_xI.
    rewrite <- Nat.iter_succ_r, <- Nat.iter_add. f_equal. lia.
  - rewrite !IH, Pos2Nat.inj_xO, <- Nat.iter_add. f_equal. lia.
  - reflexivity.
Qed.

Lemma shr_1_spec (mrs : shr_record) :
  0 <= shr_m mrs ->
  shr_m (shr_1 mrs) = shr_m mrs / 2 /\ shr_r (shr_1 mrs) = Z.odd (shr_m mrs).
Proof.
  destruct mrs as [m r s]. cbn [shr_m]. intros Hm.
  rewrite <- Z.div2_div.
  destruct m as [|[p|p|]|p]; try lia; cbn; auto.
Qed.

Lemma shr_iter (n : nat) (mrs : shr_record) :
  0 <= shr_m mrs ->
  shr_m (Nat.iter n shr_1 mrs) = shr_m mrs / 2 ^ Z.of_nat n
  /\ ((1 <= n)%nat ->
      shr_r (Nat.iter n shr_1 mrs) = Z.odd (shr_m mrs / 2 ^ (Z.of_nat n - 1))).
Proof.
  intros Hm. induction n as [|n [IHm IHr]].
  - change (Nat.iter 0 shr_1 mrs) with mrs. split; [now rewrite Z.div_1_r | lia].
  - change (Nat.iter (S n) shr_1 mrs) with (shr_1 (Nat.iter n shr_1 mrs)).
    assert (0 <= shr_m (Nat.iter n shr_1 mrs)) as Hpos.
    { rewrite IHm. apply Z.div_pos; [lia | apply pow2_pos; lia]. }
    destruct (shr_1_spec _ Hpos) as [Em Er]. split.
    + pose proof (pow2_pos (Z.of_nat n) ltac:(lia)) as Hp.
      rewrite Em, IHm, Z.div_div by lia.
      f_equal. rewrite Nat2Z.inj_succ, Z.pow_succ_r by lia. apply Z.mul_comm.
    + intros _. rewrite Er, IHm. replace (Z.of_nat (S n) - 1) with (Z.of_nat n) by lia. reflexivity.
Qed.

Lemma rne_bounds (mrs : shr_record) :
  let m1 := round_nearest_even (shr_m mrs) (loc_of_shr_record mrs) in
  shr_m mrs <= m1 <= shr_m mrs + 1 /\ (shr_r mrs = false -> m1 = shr_m mrs).
Proof.
  destruct mrs as [m [|] [|]]; cbn; destruct (Z.even m); split; try lia; try discriminate; auto.
Qed.

Lemma odd_div_pow2 (M n : Z) :
  0 < n -> M mod 2 ^ n = 0 -> Z.odd (M / 2 ^ (n - 1)) = false.
Proof.
  intros Hn Hmod.
  pose proof (pow2_pos n ltac:(lia)) as Hp. pose proof (pow2_pos (n - 1) ltac:(lia)) as Hq.
  assert (M = 2 ^ n * (M / 2 ^ n)) as E.
  { pose proof (Z.div_mod M (2 ^ n) ltac:(lia)). lia. }
  assert (2 ^ n = 2 ^ (n - 1) * 2) as E2.
  { replace n with (n - 1 + 1) at 1 by lia. rewrite Z.pow_add_r by lia. reflexivity. }
  assert (M / 2 ^ (n - 1) = 2 * (M / 2 ^ n)) as ->.
  { rewrite E at 1. rewrite E2 at 1.
    rewrite <- Z.mul_assoc, Z.mul_comm, Z.div_mul by lia. reflexivity. }
  rewrite Z.odd_mul. reflexivity.
Qed.

(** first shift of [binary_round_aux] on an exact mantissa *)
Lemma shr_exact (M : positive) (ex n : Z) :
  0 <= n ->
  exists mrs,
    shr (shr_record_of_loc (Zpos M) loc_Exact) ex n = (mrs, ex + n)
    /\ shr_m mrs = Zpos M / 2 ^ n
    /\ (Zpos M mod 2 ^ n = 0 -> shr_r mrs = false).
Proof.
  intros Hn.
  change (shr_record_of_loc (Zpos M) loc_Exact) with (Build_shr_record (Zpos M) false false).
  destruct n as [|p|p]; [| |lia].
  - eexists. split; [cbn; rewrite Z.add_0_r; reflexivity|].
    cbn [shr_m shr_r]. split; [now rewrite Z.div_1_r | reflexivity].
  - eexists. split; [cbn [shr]; reflexivity|].
    rewrite iter_pos_nat.
    destruct (shr_iter (Pos.to_nat p) (Build_shr_record (Zpos M) false false)) as [Em Er];
      [cbn; lia|].
    rewrite positive_nat_Z in Em, Er. cbn [shr_m] in Em, Er.
    split; [exact Em|].
    intros Hmod. rewrite Er by lia. apply odd_div_pow2; [lia | exact Hmod].
Qed.

(** second shift: only a carry to 2^53 is renormalised *)
Lemma shr_fexp_second (m1 e1 : Z) :
  0 <= m1 <= 2 ^ 53 -> -1074 <= e1 ->
  shr_fexp prec emax m1 e1 loc_Exact =
    if m1 =? 2 ^ 53 then (Build_shr_record (2 ^ 52) false false, e1 + 1)
    else (Build_shr_record m1 false false, e1).
Proof.
  intros Hm He. unfold shr_fexp. rewrite fexp_eq.
  destruct (Z.eqb_spec m1 (2 ^ 53)) as [-> | Hne].
  - change (Zdigits2 (2 ^ 53)) with 54.
    replace (Z.max (54 + e1 - 53) (-1074) - e1) with 1 by lia.
    reflexivity.
  - destruct m1 as [|p|p]; [| |lia].
    + cbn [Zdigits2].
      destruct (Z.max (0 + e1 - 53) (-1074) - e1) eqn:E; try reflexivity. lia.
    + cbn [Zdigits2].
      pose proof (digits2_pos_bounds p) as [Hlo Hhi].
      assert (Zpos (digits2_pos p) <= 53) as Hd.
      { destruct (Z.le_gt_cases (Zpos (digits2_pos p)) 53) as [|Hgt]; [assumption|].
        assert (2 ^ 53 <= 2 ^ (Zpos (digits2_pos p) - 1)) by (apply pow2_le; lia). lia. }
      destruct (Z.max (Zpos (digits2_pos p) + e1 - 53) (-1074) - e1) eqn:E; try reflexivity. lia.
Qed.

Lemma div_pow2_bounds (M d n : Z) :
  0 <= n -> n <= d - 1 -> 2 ^ (d - 1) <= M < 2 ^ d ->
  2 ^ (d - 1 - n) <= M / 2 ^ n < 2 ^ (d - n).
Proof.
  intros Hn Hd [Hlo Hhi].
  pose proof (pow2_pos n Hn) as Hp.
  split.
  - apply Z.div_le_lower_bound; [lia|].
    rewrite <- Z.pow_add_r by lia. replace (n + (d - 1 - n)) with (d - 1) by lia. exact Hlo.
  - apply Z.div_lt_upper_bound; [lia|].
    rewrite <- Z.pow_add_r by lia. replace (n + (d - n)) with d by lia. exact Hhi.
Qed.

Lemma bra_exact (sx : bool) (M : positive) (ex : Z) :
  let d := Zpos (digits2_pos M) in
  let n := Z.max (d - 53) (-1074 - ex) in
  0 <= n ->
  exists m1 : Z,
    Zpos M / 2 ^ n <= m1 <= Zpos M / 2 ^ n + 1
    /\ (Zpos M mod 2 ^ n = 0 -> m1 = Zpos M / 2 ^ n)
    /\ ((m1 = 0 /\ binary_round_aux prec emax sx (Zpos M) ex loc_Exact = S754_zero sx)
        \/ exists m2 e2,
             Zpos m2 * 2 ^ (e2 - (ex + n)) = m1 /\ ex + n <= e2
             /\ canonical_mantissa prec emax m2 e2 = true
             /\ binary_round_aux prec emax sx (Zpos M) ex loc_Exact =
                if e2 <=? 971 then S754_finite sx m2 e2 else S754_infinity sx).
Proof.
  intros d n Hn.
  pose proof (digits2_pos_bounds M) as HM. fold d in HM.
  assert (1 <= d) as Hd1 by (subst d; lia).
  destruct (shr_exact M ex n Hn) as (mrs & Eshr & Em & Er).
  pose proof (rne_bounds mrs) as [Hb Hx]. cbn zeta in Hb, Hx.
  set (m1 := round_nearest_even (shr_m mrs) (loc_of_shr_record mrs)) in *.
  rewrite Em in Hb, Hx.
  assert (0 <= Zpos M / 2 ^ n) as Hq0 by (apply Z.div_pos; [lia | apply pow2_pos; lia]).
  assert (Zpos M / 2 ^ n < 2 ^ 53) as Hq53.
  { apply Z.div_lt_upper_bound; [apply pow2_pos; lia|].
    rewrite <- Z.pow_add_r by lia.
    assert (2 ^ d <= 2 ^ (n + 53)) by (apply pow2_le; lia). lia. }
  assert (binary_round_aux prec emax sx (Zpos M) ex loc_Exact =
          let '(mrs'', e'') := shr_fexp prec emax m1 (ex + n) loc_Exact in
          match shr_m mrs'' with
          | 0 => S754_zero sx
          | Zpos m => if e'' <=? 971 then S754_finite sx m e'' else S754_infinity sx
          | Zneg _ => S754_nan
          end) as Ebra.
  { unfold binary_round_aux, shr_fexp at 1. rewrite fexp_eq. cbn [Zdigits2]. fold d.
    replace (Z.max (d + ex - 53) (-1074) - ex) with n by lia.
    rewrite Eshr. reflexivity. }
  rewrite shr_fexp_second in Ebra by lia.
  exists m1. split; [exact Hb|]. split; [intros Hmod; apply Hx, Er, Hmod|].
  destruct (Z.eqb_spec m1 (2 ^ 53)) as [E53 | Hne].
  - right. exists (2 ^ 52)%positive, (ex + n + 1).
    split; [rewrite E53; replace (ex + n + 1 - (ex + n)) with 1 by lia; reflexivity|].
    split; [lia|]. split.
    + unfold canonical_mantissa. rewrite fexp_eq. apply Z.eqb_eq.
      change (Zpos (digits2_pos (2 ^ 52))) with 53. lia.
    + rewrite Ebra. reflexivity.
  - destruct m1 as [|p1|p1] eqn:Em1; [| |lia].
    + left. split; [reflexivity | exact Ebra].
    + right. exists p1, (ex + n).
      split; [rewrite Z.sub_diag, Z.mul_1_r; reflexivity|]. split; [lia|]. split.
      * unfold canonical_mantissa. rewrite fexp_eq. apply Z.eqb_eq.
        pose proof (digits2_pos_bounds p1) as [Hlo Hhi].
        assert (Zpos (digits2_pos p1) <= 53) as Hd.
        { destruct (Z.le_gt_cases (Zpos (digits2_pos p1)) 53) as [|Hgt]; [assumption|].
          assert (2 ^ 53 <= 2 ^ (Zpos (digits2_pos p1) - 1)) by (apply pow2_le; lia). lia. }
        destruct (Z.max_spec (d - 53) (-1074 - ex)) as [[Hlt Emax] | [Hge Emax]];
          fold n in Emax.
        -- lia.
        -- (* n = d - 53: the quotient has 53 digits *)
           assert (2 ^ 52 <= Zpos M / 2 ^ n) as Hq52.
           { pose proof (div_pow2_bounds (Zpos M) d n Hn ltac:(lia) HM) as [Hl _].
             replace (d - 1 - n) with 52 in Hl by lia. exact Hl. }
           assert (Zpos (digits2_pos p1) = 53) as ->; [|lia].
           apply digits2_pos_unique; [|lia]. change (53 - 1) with 52. lia.
      * exact Ebra.
Qed.

Lemma pow2_split (a b : Z) : 0 <= a -> 0 <= b -> 2 ^ (a + b) = 2 ^ a * 2 ^ b.
Proof. intros. apply Z.pow_add_r; assumption. Qed.

Lemma mul_le_cancel_r (a b c : Z) : 0 < c -> a * c <= b * c -> a <= b.
Proof. intros. nia. Qed.

Lemma mul_lt_cancel_r (a b c : Z) : 0 < c -> a * c < b * c -> a < b.
Proof. intros. nia. Qed.

(** rounding up only past a multiple *)
Lemma round_up_le (M n q m1 c : Z) :
  0 <= n -> q = M / 2 ^ n -> q <= m1 <= q + 1 ->
  (M mod 2 ^ n = 0 -> m1 = q) ->
  M <= c * 2 ^ n -> m1 <= c.
Proof.
  intros Hn -> Hb Hx Hc.
  pose proof (pow2_pos n Hn) as Hp.
  pose proof (Z.div_mod M (2 ^ n) ltac:(lia)) as Hdm.
  pose proof (Z.mod_pos_bound M (2 ^ n) Hp) as Hmod.
  destruct (Z.eq_dec (M mod 2 ^ n) 0) as [E0 | Hne].
  - rewrite (Hx E0). apply Z.div_le_upper_bound; lia.
  - assert (M / 2 ^ n < c); [|lia].
    apply (mul_lt_cancel_r _ _ (2 ^ n) Hp). lia.
Qed.

Lemma bra_valid (sx : bool) (M : positive) (ex : Z) :
  0 <= Z.max (Zpos (digits2_pos M) - 53) (-1074 - ex) ->
  let r := binary_round_aux prec emax sx (Zpos M) ex loc_Exact in
  valid_binary r = true
  /\ (r = S754_zero sx \/ r = S754_infinity sx \/ exists m e, r = S754_finite sx m e).
Proof.
  intros Hn r. subst r.
  destruct (bra_exact sx M ex Hn) as (m1 & _ & _ & [[_ ->] | (m2 & e2 & _ & _ & Hc & ->)]).
  - split; [reflexivity | now left].
  - destruct (Z.leb_spec e2 971) as [Hle | Hgt].
    + split.
      * cbn [SpecFloat.valid_binary]. unfold bounded. rewrite Hc. cbn [andb].
        apply Z.leb_le. exact Hle.
      * right. right. now exists m2, e2.
    + split; [reflexivity | right; now left].
Qed.

Lemma bra_bounds (sx : bool) (M : positive) (ex : Z) (mB : positive) (eB k : Z) :
  let n := Z.max (Zpos (digits2_pos M) - 53) (-1074 - ex) in
  0 <= n ->
  canonical_mantissa prec emax mB eB = true -> eB <= 971 ->
  0 <= ex + k -> 1074 <= k ->
  let r := binary_round_aux prec emax sx (Zpos M) ex loc_Exact in
  (Zpos mB * 2 ^ (eB + k) <= Zpos M * 2 ^ (ex + k) ->
   r = S754_infinity sx \/ (sf_finite r = true /\ Zpos mB * 2 ^ (eB + 1074) <= sf_mag r))
  /\ (Zpos M * 2 ^ (ex + k) <= Zpos mB * 2 ^ (eB + k) ->
      sf_finite r = true /\ sf_mag r <= Zpos mB * 2 ^ (eB + 1074)).
Proof.
  intros n Hn HcB HeB Hk1 Hk2 r.
  pose proof (canonical_inv mB eB HcB) as (HeB0 & HmB & HmBn).
  pose proof (digits2_pos_bounds M) as HM.
  set (d := Zpos (digits2_pos M)) in *.
  assert (1 <= d) as Hd1 by (subst d; lia).
  destruct (bra_exact sx M ex Hn) as (m1 & Hb & Hx & Hres). fold d in Hb, Hx, Hres. fold n in Hb, Hx, Hres.
  set (q := Zpos M / 2 ^ n) in *.
  set (e1 := ex + n) in *.
  pose proof (pow2_pos n Hn) as Hpn.
  pose proof (pow2_pos (ex + k) Hk1) as Hpk.
  assert (0 <= q) as Hq0 by (apply Z.div_pos; lia).
  assert (q * 2 ^ n <= Zpos M) as Hqle.
  { pose proof (Z.div_mod (Zpos M) (2 ^ n) ltac:(lia)).
    pose proof (Z.mod_pos_bound (Zpos M) (2 ^ n) Hpn). fold q in H. lia. }
  assert (-1074 <= e1) as He1 by (subst e1; lia).
  assert (2 ^ (e1 + k) = 2 ^ n * 2 ^ (ex + k)) as Ee1k.
  { unfold e1. replace (ex + n + k) with (n + (ex + k)) by lia. apply pow2_split; lia. }
  (* the two positions of the bound relative to the grid of the result *)
  assert (e1 <= eB -> exists c, Zpos mB * 2 ^ (eB + k) = c * 2 ^ n * 2 ^ (ex + k)
                               /\ Zpos mB * 2 ^ (eB + 1074) = c * 2 ^ (e1 + 1074)) as Hgrid.
  { intros Hle. exists (Zpos mB * 2 ^ (eB - e1)). split.
    - replace (eB + k) with ((eB - e1) + (e1 + k)) by lia.
      rewrite pow2_split, Ee1k by lia. ring.
    - replace (eB + 1074) with ((eB - e1) + (e1 + 1074)) at 1 by lia.
      rewrite pow2_split by lia. ring. }
  assert (eB < e1 -> 2 ^ 52 <= q) as Hnormal.
  { intros Hlt.
    assert (n = d - 53) as En by lia.
    pose proof (div_pow2_bounds (Zpos M) d n Hn ltac:(lia) HM) as [Hl _].
    replace (d - 1 - n) with 52 in Hl by lia. exact Hl. }
  assert (eB < e1 -> Zpos mB * 2 ^ (eB + k) < q * 2 ^ n * 2 ^ (ex + k)) as Hbelow.
  { intros Hlt. specialize (Hnormal Hlt).
    rewrite <- Z.mul_assoc, <- Ee1k. apply scaled_lt; lia. }
  destruct Hres as [[E0 Er] | (m2 & e2 & Em2 & He2 & Hc2 & Er)].
  - (* rounded to zero: the exact value is below every positive double *)
    fold r in Er. rewrite Er. cbn [sf_finite sf_mag].
    assert (q = 0) as Eq0 by lia.
    assert (Zpos M * 2 ^ (ex + k) < Zpos mB * 2 ^ (eB + k)) as Hsmall.
    { destruct (Z.lt_ge_cases eB e1) as [Hlt | Hge].
      - specialize (Hnormal Hlt). lia.
      - destruct (Hgrid Hge) as (c & Ec & _). rewrite Ec.
        assert (Zpos M < 2 ^ n).
        { pose proof (Z.div_mod (Zpos M) (2 ^ n) ltac:(lia)).
          pose proof (Z.mod_pos_bound (Zpos M) (2 ^ n) Hpn). fold q in H. lia. }
        assert (1 <= c).
        { destruct (Z.le_gt_cases 1 c) as [|Hc0]; [assumption|].
          assert (c * 2 ^ n * 2 ^ (ex + k) <= 0) by nia.
          pose proof (pow2_pos (eB + k) ltac:(lia)). nia. }
        nia. }
    split; intros Hcmp.
    + lia.
    + split; [reflexivity|]. pose proof (pow2_pos (eB + 1074) ltac:(lia)).
      apply Z.mul_nonneg_nonneg; lia.
  - fold r in Er. fold e1 in Em2, He2.
    pose proof (canonical_inv m2 e2 Hc2) as (He20 & Hm2 & Hm2n).
    assert (Zpos m2 * 2 ^ (e2 + 1074) = m1 * 2 ^ (e1 + 1074)) as Emag.
    { rewrite <- Em2. replace (e2 + 1074) with ((e2 - e1) + (e1 + 1074)) at 1 by lia.
      rewrite pow2_split by lia. ring. }
    pose proof (mag_compare mB m2 eB e2 HcB Hc2) as Hcmp.
    split; intros Hle.
    + (* lower bound *)
      rewrite Er.
      destruct (Z.leb_spec e2 971) as [Hfin | Hinf]; [|now left]. right.
      cbn [sf_finite sf_mag]. split; [reflexivity|].
      destruct (Z.lt_ge_cases eB e1) as [Hlt | Hge].
      * assert (eB < e2) as Hlt2 by lia. apply Z.compare_lt_iff in Hlt2.
        rewrite Hlt2 in Hcmp. rewrite Z.compare_lt_iff in Hcmp. lia.
      * destruct (Hgrid Hge) as (c & Ec & Ec'). rewrite Ec', Emag.
        assert (c <= q).
        { apply Z.div_le_lower_bound; [lia|]. rewrite Ec in Hle.
          apply (mul_le_cancel_r _ _ (2 ^ (ex + k)) Hpk). lia. }
        pose proof (pow2_pos (e1 + 1074) ltac:(lia)).
        apply Z.mul_le_mono_nonneg_r; lia.
    + (* upper bound *)
      destruct (Z.lt_ge_cases eB e1) as [Hlt | Hge].
      * specialize (Hbelow Hlt). exfalso.
        assert (q * 2 ^ n * 2 ^ (ex + k) <= Zpos M * 2 ^ (ex + k))
          by (apply Z.mul_le_mono_nonneg_r; lia).
        lia.
      * destruct (Hgrid Hge) as (c & Ec & Ec').
        assert (m1 <= c) as Hm1c.
        { apply (round_up_le (Zpos M) n q m1 c Hn eq_refl Hb Hx).
          rewrite Ec in Hle. apply (mul_le_cancel_r _ _ (2 ^ (ex + k)) Hpk). lia. }
        assert (Zpos m2 * 2 ^ (e2 + 1074) <= Zpos mB * 2 ^ (eB + 1074)) as Hfinal.
        { rewrite Ec', Emag. pose proof (pow2_pos (e1 + 1074) ltac:(lia)).
          apply Z.mul_le_mono_nonneg_r; lia. }
        assert (e2 <= eB) as He2B.
        { destruct (Z.compare_spec eB e2) as [E | L | EPS]; try lia.
          rewrite Z.compare_lt_iff in Hcmp. lia. }
        rewrite Er.
        destruct (Z.leb_spec e2 971) as [Hfin | Hinf]; [|lia].
        cbn [sf_finite sf_mag]. split; [reflexivity | exact Hfinal].
Qed.


Lemma bra_rounding (sx : bool) (M : positive) (ex k : Z) :
  0 <= Z.max (Zpos (digits2_pos M) - 53) (-1074 - ex) ->
  0 <= ex + k -> 1074 <= k ->
  rounding_of sx (Zpos M * 2 ^ (ex + k)) k
    (binary_round_aux prec emax sx (Zpos M) ex loc_Exact).
Proof.
  intros Hn Hk1 Hk2.
  destruct (bra_valid sx M ex Hn) as [Hv Hs].
  split; [exact Hv|]. split; [exact Hs|].
  intros mB eB HcB HeB. apply bra_bounds; assumption.
Qed.

(** *** Alignment to the left *)
Lemma iter_xO (m d : positive) : Zpos (Pos.iter xO m d) = Zpos m * 2 ^ Zpos d.
Proof.
  pose proof (shift_pos_correct d m) as H. unfold shift_pos in H.
  rewrite H, Z.pow_pos_fold. apply Z.mul_comm.
Qed.

Lemma shl_align_spec (mx : positive) (ex ex' : Z) :
  exists mz ez,
    shl_align mx ex ex' = (mz, ez) /\ ez = Z.min ex ex'
    /\ Zpos mz = Zpos mx * 2 ^ (ex - ez).
Proof.
  unfold shl_align. destruct (ex' - ex) as [|d|d] eqn:E.
  - exists mx, ex. split; [reflexivity|]. split; [lia|].
    rewrite Z.sub_diag. lia.
  - exists mx, ex. split; [reflexivity|]. split; [lia|].
    rewrite Z.sub_diag. lia.
  - exists (Pos.iter xO mx d), ex'. split; [reflexivity|]. split; [lia|].
    rewrite iter_xO. f_equal. f_equal. lia.
Qed.

Lemma digits_shift (m mz : positive) (s : Z) :
  0 <= s -> Zpos mz = Zpos m * 2 ^ s ->
  Zpos (digits2_pos mz) = Zpos (digits2_pos m) + s.
Proof.
  intros Hs E. pose proof (digits2_pos_bounds m) as [Hlo Hhi].
  set (d := Zpos (digits2_pos m)) in *.
  assert (1 <= d) by (subst d; lia).
  pose proof (pow2_pos s Hs).
  apply digits2_pos_unique; [|lia]. rewrite E.
  replace (d + s - 1) with (d - 1 + s) by lia.
  rewrite !pow2_split by lia. nia.
Qed.

Lemma binary_round_rounding (sx : bool) (mx : positive) (ex : Z) :
  -1074 <= ex ->
  rounding_of sx (Zpos mx * 2 ^ (ex + 1074)) 1074 (binary_round prec emax sx mx ex).
Proof.
  intros Hex. unfold binary_round. rewrite fexp_eq.
  set (d := Zpos (digits2_pos mx)).
  destruct (shl_align_spec mx ex (Z.max (d + ex - 53) (-1074))) as (mz & ez & -> & Eez & Emz).
  assert (0 <= ex - ez) as Hs by lia.
  pose proof (digits_shift mx mz (ex - ez) Hs Emz) as Hdz. fold d in Hdz.
  assert (Zpos mx * 2 ^ (ex + 1074) = Zpos mz * 2 ^ (ez + 1074)) as ->.
  { rewrite Emz. replace (ex + 1074) with ((ex - ez) + (ez + 1074)) by lia.
    rewrite (pow2_split (ex - ez) (ez + 1074)) by lia. ring. }
  apply bra_rounding; lia.
Qed.

Lemma binary_normalize_rounding (z e : Z) (szero : bool) :
  -1074 <= e -> z <> 0 ->
  rounding_of (z <? 0) (Z.abs z * 2 ^ (e + 1074)) 1074
    (binary_normalize prec emax z e szero).
Proof.
  intros He Hz. destruct z as [|p|p]; [congruence| |]; cbn [binary_normalize Z.abs Z.ltb Z.compare];
    apply binary_round_rounding; exact He.
Qed.

(** *** Exact results *)
Lemma mag_inj (m1 m2 : positive) (e1 e2 : Z) :
  canonical_mantissa prec emax m1 e1 = true ->
  canonical_mantissa prec emax m2 e2 = true ->
  Zpos m1 * 2 ^ (e1 + 1074) = Zpos m2 * 2 ^ (e2 + 1074) ->
  m1 = m2 /\ e1 = e2.
Proof.
  intros H1 H2 E. pose proof (mag_compare m1 m2 e1 e2 H1 H2) as Hc.
  rewrite E, Z.compare_refl in Hc.
  destruct (Z.compare_spec e1 e2) as [-> | |]; try discriminate.
  split; [|reflexivity]. symmetry in Hc. now apply Pos.compare_eq in Hc.
Qed.

Lemma rounding_exact (sx : bool) (P k : Z) (r : spec_float) (mB : positive) (eB : Z) :
  rounding_of sx P k r ->
  canonical_mantissa prec emax mB eB = true -> eB <= 971 ->
  P = Zpos mB * 2 ^ (eB + k) ->
  r = S754_finite sx mB eB.
Proof.
  intros (Hv & Hs & Hb) HcB HeB ->.
  destruct (Hb mB eB HcB HeB) as [Hlo Hhi].
  destruct (Hhi (Z.le_refl _)) as [Hf Hle].
  destruct (Hlo (Z.le_refl _)) as [-> | [_ Hge]]; [discriminate|].
  pose proof (canonical_inv mB eB HcB) as (HeB0 & _ & _).
  pose proof (pow2_pos (eB + 1074) ltac:(lia)) as Hp.
  destruct Hs as [-> | [-> | (m & e & ->)]]; cbn [sf_mag] in *; [nia | discriminate |].
  cbn [SpecFloat.valid_binary] in Hv. unfold bounded in Hv.
  apply andb_true_iff in Hv. destruct Hv as [Hc _].
  destruct (mag_inj m mB e eB Hc HcB ltac:(lia)) as [-> ->]. reflexivity.
Qed.

(** every dyadic number with a mantissa below 2^53 in the exponent range is a double *)
Lemma dyadic_representable (r : positive) (e : Z) :
  Zpos r < 2 ^ 53 -> -1074 <= e <= 971 ->
  exists mB eB,
    canonical_mantissa prec emax mB eB = true /\ eB <= 971
    /\ Zpos mB * 2 ^ (eB + 1074) = Zpos r * 2 ^ (e + 1074).
Proof.
  intros Hr He.
  pose proof (digits2_pos_bounds r) as [Hlo Hhi].
  set (d := Zpos (digits2_pos r)) in *.
  assert (1 <= d) as Hd1 by (subst d; lia).
  assert (d <= 53) as Hd53.
  { destruct (Z.le_gt_cases d 53) as [|Hgt]; [assumption|].
    assert (2 ^ 53 <= 2 ^ (d - 1)) by (apply pow2_le; lia). lia. }
  set (eB := Z.max (d + e - 53) (-1074)).
  assert (0 <= e - eB) as Hs by lia.
  destruct (shl_align_spec r e eB) as (mz & ez & _ & Eez & Emz).
  replace ez with eB in Emz by lia.
  exists mz, eB. split; [|split; [lia|]].
  - unfold canonical_mantissa. rewrite fexp_eq. apply Z.eqb_eq.
    rewrite (digits_shift r mz (e - eB) Hs Emz). fold d. lia.
  - rewrite Emz. replace (e + 1074) with ((e - eB) + (eB + 1074)) by lia.
    rewrite (pow2_split (e - eB) (eB + 1074)) by lia. ring.
Qed.

(** *** Multiplication *)
Lemma digits_ge_53 (m : positive) : 2 ^ 52 <= Zpos m -> 53 <= Zpos (digits2_pos m).
Proof.
  intros Hm. pose proof (digits2_pos_bounds m) as [_ Hhi].
  destruct (Z.le_gt_cases 53 (Zpos (digits2_pos m))) as [|Hlt]; [assumption|].
  assert (2 ^ Zpos (digits2_pos m) <= 2 ^ 52) by (apply pow2_le; lia). lia.
Qed.

Lemma SFmul_rounding (sx sy : bool) (mx my : positive) (ex ey : Z) :
  valid_binary (S754_finite sx mx ex) = true ->
  valid_binary (S754_finite sy my ey) = true ->
  rounding_of (xorb sx sy)
    (sf_mag (S754_finite sx mx ex) * sf_mag (S754_finite sy my ey)) 2148
    (SFmul prec emax (S754_finite sx mx ex) (S754_finite sy my ey)).
Proof.
  intros Vx Vy.
  pose proof (valid_finite_inv _ _ _ Vx) as (Hex & Hmx & Hnx).
  pose proof (valid_finite_inv _ _ _ Vy) as (Hey & Hmy & Hny).
  cbn [SFmul sf_mag].
  assert (Zpos mx * 2 ^ (ex + 1074) * (Zpos my * 2 ^ (ey + 1074))
          = Zpos (mx * my) * 2 ^ (ex + ey + 2148)) as ->.
  { replace (ex + ey + 2148) with ((ex + 1074) + (ey + 1074)) by lia.
    rewrite (pow2_split (ex + 1074) (ey + 1074)), Pos2Z.inj_mul by lia. ring. }
  apply bra_rounding; [|lia|lia].
  (* the product has at least 53 digits, or lies in the subnormal range *)
  destruct (Z.eq_dec ex (-1074)) as [Ex | Nx]; destruct (Z.eq_dec ey (-1074)) as [Ey | Ny];
    try lia.
  - assert (2 ^ 52 <= Zpos (mx * my)) as Hp.
    { rewrite Pos2Z.inj_mul. specialize (Hny ltac:(lia)). nia. }
    apply digits_ge_53 in Hp. lia.
  - assert (2 ^ 52 <= Zpos (mx * my)) as Hp.
    { rewrite Pos2Z.inj_mul. specialize (Hnx ltac:(lia)). nia. }
    apply digits_ge_53 in Hp. lia.
  - assert (2 ^ 52 <= Zpos (mx * my)) as Hp.
    { rewrite Pos2Z.inj_mul. specialize (Hnx ltac:(lia)). nia. }
    apply digits_ge_53 in Hp. lia.
Qed.

(** *** From magnitudes to signed values *)
Lemma sign_is_ival (sx : bool) (r : spec_float) :
  sign_is sx r -> sf_ival r = cond_Zopp sx (sf_mag r).
Proof.
  intros [-> | [-> | (m & e & ->)]]; cbn [sf_ival sf_mag]; try reflexivity;
    destruct sx; reflexivity.
Qed.

Lemma rounding_signed (sx : bool) (P j : Z) (r L H : spec_float) :
  rounding_of sx P (1074 + j) r -> 0 <= j -> 0 < P ->
  valid_binary L = true -> sf_finite L = true ->
  valid_binary H = true -> sf_finite H = true ->
  sf_ival L * 2 ^ j <= cond_Zopp sx P <= sf_ival H * 2 ^ j ->
  sf_finite r = true /\ sf_ival L <= sf_ival r <= sf_ival H.
Proof.
  intros (Hv & Hs & Hb) Hj HP VL FL VH FH [HL HH].
  rewrite (sign_is_ival sx r Hs).
  pose proof (pow2_pos j Hj) as Hpj.
  assert (forall s m e, valid_binary (S754_finite s m e) = true ->
            canonical_mantissa prec emax m e = true /\ e <= 971
            /\ Zpos m * 2 ^ (e + (1074 + j)) = Zpos m * 2 ^ (e + 1074) * 2 ^ j
            /\ 0 < Zpos m * 2 ^ (e + 1074)) as Hfin.
  { intros s m e V. pose proof (valid_finite_inv _ _ _ V) as (He & _ & _).
    cbn [SpecFloat.valid_binary] in V. unfold bounded in V.
    apply andb_true_iff in V. destruct V as [Hc _].
    split; [exact Hc|]. split; [lia|]. split.
    - replace (e + (1074 + j)) with ((e + 1074) + j) by lia.
      rewrite (pow2_split (e + 1074) j) by lia. ring.
    - pose proof (pow2_pos (e + 1074) ltac:(lia)). nia. }
  assert (0 <= sf_mag r) as Hmag.
  { destruct r as [| | |s m e]; cbn [sf_mag]; [lia | lia | lia |].
    apply Z.lt_le_incl. apply (Hfin s m e Hv). }
  destruct sx; cbn [cond_Zopp] in *.
  - (* negative result *)
    assert (sf_finite r = true /\ sf_ival L <= - sf_mag r) as [Fr Hlow].
    { destruct L as [sL | | | sL mL eL]; try discriminate; cbn [sf_ival] in *; [nia|].
      destruct (Hfin sL mL eL VL) as (HcL & HeL & EL & HpL).
      destruct sL; cbn [cond_Zopp] in *; [|nia].
      destruct (Hb mL eL HcL HeL) as [_ Hup].
      destruct Hup as [Fr Hle]; [rewrite EL; nia|]. split; [exact Fr | lia]. }
    split; [exact Fr|]. split; [exact Hlow|].
    destruct H as [sH | | | sH mH eH]; try discriminate; cbn [sf_ival] in *; [lia|].
    destruct (Hfin sH mH eH VH) as (HcH & HeH & EH & HpH).
    destruct sH; cbn [cond_Zopp] in *; [|lia].
    destruct (Hb mH eH HcH HeH) as [Hlo _].
    destruct Hlo as [-> | [_ Hge]]; [rewrite EH; nia | discriminate | lia].
  - (* positive result *)
    assert (sf_finite r = true /\ sf_mag r <= sf_ival H) as [Fr Hup].
    { destruct H as [sH | | | sH mH eH]; try discriminate; cbn [sf_ival] in *; [nia|].
      destruct (Hfin sH mH eH VH) as (HcH & HeH & EH & HpH).
      destruct sH; cbn [cond_Zopp] in *; [nia|].
      destruct (Hb mH eH HcH HeH) as [_ Hup].
      destruct Hup as [Fr Hle]; [rewrite EH; nia|]. split; [exact Fr | lia]. }
    split; [exact Fr|]. split; [|exact Hup].
    destruct L as [sL | | | sL mL eL]; try discriminate; cbn [sf_ival] in *; [lia|].
    destruct (Hfin sL mL eL VL) as (HcL & HeL & EL & HpL).
    destruct sL; cbn [cond_Zopp] in *; [lia|].
    destruct (Hb mL eL HcL HeL) as [Hlo _].
    destruct Hlo as [-> | [_ Hge]]; [rewrite EL; nia | discriminate | lia].
Qed.

Lemma ONE_pos : 0 < ONE.
Proof. reflexivity. Qed.

Lemma sf_ival_zero_or (x : spec_float) :
  sf_finite x = true -> valid_binary x = true ->
  (exists s, x = S754_zero s) \/
  (exists s m e, x = S754_finite s m e /\ -1074 <= e <= 971 /\ 0 < Zpos m * 2 ^ (e + 1074)).
Proof.
  intros F V. destruct x as [s | | | s m e]; try discriminate.
  - left. now exists s.
  - right. exists s, m, e. split; [reflexivity|].
    pose proof (valid_finite_inv _ _ _ V) as (He & _ & _). split; [lia|].
    pose proof (pow2_pos (e + 1074) ltac:(lia)). nia.
Qed.

(** *** Multiplication, signed *)
Lemma SFmul_bounds (x y L H : spec_float) :
  valid_binary x = true -> valid_binary y = true ->
  valid_binary L = true -> valid_binary H = true ->
  sf_finite x = true -> sf_finite y = true ->
  sf_finite L = true -> sf_finite H = true ->
  sf_ival L * ONE <= sf_ival x * sf_ival y <= sf_ival H * ONE ->
  sf_finite (SFmul prec emax x y) = true
  /\ sf_ival L <= sf_ival (SFmul prec emax x y) <= sf_ival H.
Proof.
  intros Vx Vy VL VH Fx Fy FL FH Hb.
  pose proof ONE_pos as HU.
  destruct (sf_ival_zero_or x Fx Vx) as [[sx ->] | (sx & mx & ex & -> & Hex & Hpx)];
  destruct (sf_ival_zero_or y Fy Vy) as [[sy ->] | (sy & my & ey & -> & Hey & Hpy)].
  - cbn [SFmul sf_finite sf_ival] in *. split; [reflexivity | nia].
  - cbn [SFmul sf_finite sf_ival] in *. split; [reflexivity | nia].
  - cbn [SFmul sf_finite sf_ival] in *. split; [reflexivity | nia].
  - pose proof (SFmul_rounding sx sy mx my ex ey Vx Vy) as Hr.
    assert (0 < sf_mag (S754_finite sx mx ex) * sf_mag (S754_finite sy my ey)) as HP
      by (cbn [sf_mag]; apply Z.mul_pos_pos; assumption).
    apply (rounding_signed _ _ 1074 _ L H Hr ltac:(lia) HP VL FL VH FH).
    change (2 ^ 1074) with ONE.
    assert (cond_Zopp (xorb sx sy)
              (sf_mag (S754_finite sx mx ex) * sf_mag (S754_finite sy my ey))
            = sf_ival (S754_finite sx mx ex) * sf_ival (S754_finite sy my ey)) as ->.
    { cbn [sf_mag sf_ival]. destruct sx, sy; cbn [xorb cond_Zopp]; ring. }
    exact Hb.
Qed.

(** *** Addition and subtraction, signed *)
Lemma aligned_ival (s : bool) (m : positive) (e ez : Z) :
  -1074 <= ez <= e ->
  cond_Zopp s (Zpos (fst (shl_align m e ez))) * 2 ^ (ez + 1074)
  = sf_ival (S754_finite s m e).
Proof.
  intros He. destruct (shl_align_spec m e ez) as (mz & ez' & -> & Eez & Emz).
  cbn [fst sf_ival]. replace ez' with ez in Emz by lia. rewrite Emz.
  replace (e + 1074) with ((e - ez) + (ez + 1074)) by lia.
  rewrite (pow2_split (e - ez) (ez + 1074)) by lia.
  destruct s; cbn [cond_Zopp]; ring.
Qed.

Lemma normalize_bounds (z ez : Z) (L H : spec_float) :
  -1074 <= ez ->
  valid_binary L = true -> valid_binary H = true ->
  sf_finite L = true -> sf_finite H = true ->
  sf_ival L <= z * 2 ^ (ez + 1074) <= sf_ival H ->
  let r := binary_normalize prec emax z ez false in
  valid_binary r = true /\ sf_finite r = true /\ sf_ival L <= sf_ival r <= sf_ival H.
Proof.
  intros Hez VL VH FL FH Hb r.
  pose proof (pow2_pos (ez + 1074) ltac:(lia)) as Hp.
  destruct (Z.eq_dec z 0) as [-> | Hz].
  - subst r. rewrite Z.mul_0_l in Hb. cbn [binary_normalize sf_finite sf_ival SpecFloat.valid_binary].
    split; [reflexivity|]. split; [reflexivity | exact Hb].
  - pose proof (binary_normalize_rounding z ez false Hez Hz) as Hr. fold r in Hr.
    split; [apply Hr|].
    assert (0 < Z.abs z * 2 ^ (ez + 1074)) as HP by (apply Z.mul_pos_pos; lia).
    apply (rounding_signed _ _ 0 _ L H Hr ltac:(lia) HP VL FL VH FH).
    change (2 ^ 0) with 1. rewrite !Z.mul_1_r.
    assert (cond_Zopp (z <? 0) (Z.abs z * 2 ^ (ez + 1074)) = z * 2 ^ (ez + 1074)) as ->.
    { destruct (Z.ltb_spec z 0); cbn [cond_Zopp];
        [rewrite Z.abs_neq by lia | rewrite Z.abs_eq by lia]; ring. }
    exact Hb.
Qed.

Lemma SFadd_bounds (x y L H : spec_float) :
  valid_binary x = true -> valid_binary y = true ->
  valid_binary L = true -> valid_binary H = true ->
  sf_finite x = true -> sf_finite y = true ->
  sf_finite L = true -> sf_finite H = true ->
  sf_ival L <= sf_ival x + sf_ival y <= sf_ival H ->
  sf_finite (SFadd prec emax x y) = true
  /\ sf_ival L <= sf_ival (SFadd prec emax x y) <= sf_ival H.
Proof.
  intros Vx Vy VL VH Fx Fy FL FH Hb.
  destruct (sf_ival_zero_or x Fx Vx) as [[sx ->] | (sx & mx & ex & -> & Hex & Hpx)];
  destruct (sf_ival_zero_or y Fy Vy) as [[sy ->] | (sy & my & ey & -> & Hey & Hpy)].
  - assert (exists s, SFadd prec emax (S754_zero sx) (S754_zero sy) = S754_zero s) as [s ->]
      by (destruct sx, sy; eexists; reflexivity).
    cbn [sf_finite sf_ival] in *. split; [reflexivity | lia].
  - cbn [SFadd]. change (sf_ival (S754_zero sx)) with 0 in Hb. rewrite Z.add_0_l in Hb.
    split; [reflexivity | exact Hb].
  - cbn [SFadd]. change (sf_ival (S754_zero sy)) with 0 in Hb. rewrite Z.add_0_r in Hb.
    split; [reflexivity | exact Hb].
  - cbn [SFadd].
    rewrite <- (aligned_ival sx mx ex (Z.min ex ey)), <- (aligned_ival sy my ey (Z.min ex ey)) in Hb by lia.
    rewrite <- Z.mul_add_distr_r in Hb.
    assert (-1074 <= Z.min ex ey) as Hmin by lia.
    apply (normalize_bounds _ _ L H Hmin VL VH FL FH Hb).
Qed.

Lemma SFsub_bounds (x y L H : spec_float) :
  valid_binary x = true -> valid_binary y = true ->
  valid_binary L = true -> valid_binary H = true ->
  sf_finite x = true -> sf_finite y = true ->
  sf_finite L = true -> sf_finite H = true ->
  sf_ival L <= sf_ival x - sf_ival y <= sf_ival H ->
  sf_finite (SFsub prec emax x y) = true
  /\ sf_ival L <= sf_ival (SFsub prec emax x y) <= sf_ival H.
Proof.
  intros Vx Vy VL VH Fx Fy FL FH Hb.
  destruct (sf_ival_zero_or x Fx Vx) as [[sx ->] | (sx & mx & ex & -> & Hex & Hpx)];
  destruct (sf_ival_zero_or y Fy Vy) as [[sy ->] | (sy & my & ey & -> & Hey & Hpy)].
  - assert (exists s, SFsub prec emax (S754_zero sx) (S754_zero sy) = S754_zero s) as [s ->]
      by (destruct sx, sy; eexists; reflexivity).
    cbn [sf_finite sf_ival] in *. split; [reflexivity | lia].
  - cbn [SFsub]. change (sf_ival (S754_zero sx)) with 0 in Hb. rewrite Z.sub_0_l in Hb.
    split; [reflexivity|]. cbn [sf_ival] in Hb |- *.
    destruct sy; cbn [negb cond_Zopp] in *; lia.
  - cbn [SFsub]. change (sf_ival (S754_zero sy)) with 0 in Hb. rewrite Z.sub_0_r in Hb.
    split; [reflexivity | exact Hb].
  - cbn [SFsub].
    rewrite <- (aligned_ival sx mx ex (Z.min ex ey)), <- (aligned_ival sy my ey (Z.min ex ey)) in Hb by lia.
    rewrite <- Z.mul_sub_distr_r in Hb.
    assert (-1074 <= Z.min ex ey) as Hmin by lia.
    apply (normalize_bounds _ _ L H Hmin VL VH FL FH Hb).
Qed.

(** *** Primitive floats *)
Lemma finite_valid (x : float) : valid_binary (Prim2SF x) = true.
Proof. apply Prim2SF_valid. Qed.

Lemma leb_ival (x y : float) :
  finite x = true -> finite y = true -> (x <=? y)%float = (ival x <=? ival y).
Proof.
  intros Fx Fy. rewrite FloatAxioms.leb_spec. unfold SFleb.
  rewrite (SFcompare_ival _ _ (finite_valid x) (finite_valid y) Fx Fy).
  unfold ival, Z.leb. now destruct (_ ?= _).
Qed.

Lemma ltb_ival (x y : float) :
  finite x = true -> finite y = true -> (x <? y)%float = (ival x <? ival y).
Proof.
  intros Fx Fy. rewrite FloatAxioms.ltb_spec. unfold SFltb.
  rewrite (SFcompare_ival _ _ (finite_valid x) (finite_valid y) Fx Fy).
  unfold ival, Z.ltb. now destruct (_ ?= _).
Qed.

Lemma mul_bounds (x y L H : float) :
  finite x = true -> finite y = true -> finite L = true -> finite H = true ->
  ival L * ONE <= ival x * ival y <= ival H * ONE ->
  finite (x * y) = true /\ ival L <= ival (x * y) <= ival H.
Proof.
  intros Fx Fy FL FH Hb. unfold finite, ival. rewrite mul_spec.
  apply SFmul_bounds; try apply finite_valid; assumption.
Qed.

Lemma add_bounds (x y L H : float) :
  finite x = true -> finite y = true -> finite L = true -> finite H = true ->
  ival L <= ival x + ival y <= ival H ->
  finite (x + y) = true /\ ival L <= ival (x + y) <= ival H.
Proof.
  intros Fx Fy FL FH Hb. unfold finite, ival. rewrite add_spec.
  apply SFadd_bounds; try apply finite_valid; assumption.
Qed.

Lemma sub_bounds (x y L H : float) :
  finite x = true -> finite y = true -> finite L = true -> finite H = true ->
  ival L <= ival x - ival y <= ival H ->
  finite (x - y) = true /\ ival L <= ival (x - y) <= ival H.
Proof.
  intros Fx Fy FL FH Hb. unfold finite, ival. rewrite sub_spec.
  apply SFsub_bounds; try apply finite_valid; assumption.
Qed.

(** *** Integers as doubles *)
Lemma normalize_exact (z e : Z) :
  -1074 <= e <= 971 -> 0 < Z.abs z < 2 ^ 53 ->
  let r := binary_normalize prec emax z e false in
  valid_binary r = true /\ sf_finite r = true /\ sf_ival r = z * 2 ^ (e + 1074).
Proof.
  intros He Hz r.
  assert (z <> 0) as Hz0 by lia.
  pose proof (binary_normalize_rounding z e false ltac:(lia) Hz0) as Hr. fold r in Hr.
  destruct (dyadic_representable (Z.to_pos (Z.abs z)) e) as (mB & eB & HcB & HeB & EB).
  { rewrite Z2Pos.id by lia. lia. }
  { exact He. }
  rewrite Z2Pos.id in EB by lia.
  rewrite (rounding_exact _ _ _ _ mB eB Hr HcB HeB (eq_sym EB)).
  split.
  - cbn [SpecFloat.valid_binary]. unfold bounded. rewrite HcB. apply Z.leb_le. exact HeB.
  - split; [reflexivity|]. cbn [sf_ival]. rewrite EB.
    destruct (Z.ltb_spec z 0); cbn [cond_Zopp];
      [rewrite Z.abs_neq by lia | rewrite Z.abs_eq by lia]; ring.
Qed.

Lemma Z2F_ival (k : Z) :
  Z.abs k < 2 ^ 53 -> finite (Z2F k) = true /\ ival (Z2F k) = k * ONE.
Proof.
  intros Hk. unfold finite, ival, Z2F.
  destruct (Z.eq_dec k 0) as [-> | Hk0].
  - split; reflexivity.
  - destruct (normalize_exact k 0 ltac:(lia) ltac:(lia)) as (V & F & E).
    rewrite Prim2SF_SF2Prim by exact V. split; [exact F | exact E].
Qed.

Lemma ival_inj (x y : float) :
  finite x = true -> finite y = true -> ival x = ival y -> ival x <> 0 -> x = y.
Proof.
  unfold finite, ival. intros Fx Fy E Hne.
  apply Prim2SF_inj.
  pose proof (finite_valid x) as Vx. pose proof (finite_valid y) as Vy.
  destruct (sf_ival_zero_or _ Fx Vx) as [[sx Ex] | (sx & mx & ex & Ex & Hex & Hpx)];
    rewrite Ex in *; [cbn in Hne; congruence|].
  destruct (sf_ival_zero_or _ Fy Vy) as [[sy Ey] | (sy & my & ey & Ey & Hey & Hpy)];
    rewrite Ey in *; [cbn [sf_ival] in E; destruct sx; cbn [cond_Zopp] in E; lia|].
  cbn [sf_ival] in E.
  cbn [SpecFloat.valid_binary] in Vx, Vy. unfold bounded in Vx, Vy.
  apply andb_true_iff in Vx, Vy. destruct Vx as [Cx _], Vy as [Cy _].
  destruct sx, sy; cbn [cond_Zopp] in E; try lia;
    destruct (mag_inj mx my ex ey Cx Cy ltac:(lia)) as [-> ->]; reflexivity.
Qed.

(** *** NaN *)
Lemma SFeqb_refl (x : spec_float) : SFeqb x x = negb (match x with S754_nan => true | _ => false end).
Proof.
  destruct x as [s | s | | s m e]; unfold SFeqb; cbn [SFcompare negb].
  - reflexivity.
  - now destruct s.
  - reflexivity.
  - rewrite Z.compare_refl, Pos.compare_cont_refl. now destruct s.
Qed.

Lemma is_nan_spec (x : float) :
  is_nan x = match Prim2SF x with S754_nan => true | _ => false end.
Proof.
  unfold is_nan. rewrite FloatAxioms.eqb_spec, SFeqb_refl. apply negb_involutive.
Qed.

Lemma finite_not_nan (x : float) : finite x = true -> is_nan x = false.
Proof.
  unfold finite. rewrite is_nan_spec. now destruct (Prim2SF x).
Qed.

Lemma shr_nonneg (mrs : shr_record) (e n : Z) :
  0 <= shr_m mrs -> 0 <= shr_m (fst (shr mrs e n)).
Proof.
  intros Hm. unfold shr. destruct n as [|p|p]; cbn [fst]; try exact Hm.
  rewrite iter_pos_nat. destruct (shr_iter (Pos.to_nat p) mrs Hm) as [-> _].
  apply Z.div_pos; [exact Hm | apply pow2_pos; lia].
Qed.

Lemma shr_fexp_nonneg (m e : Z) (l : location) :
  0 <= m -> 0 <= shr_m (fst (shr_fexp prec emax m e l)).
Proof.
  intros Hm. unfold shr_fexp. apply shr_nonneg.
  destruct l as [|[]]; exact Hm.
Qed.

Lemma bra_not_nan (sx : bool) (mx ex : Z) (lx : location) :
  0 <= mx -> binary_round_aux prec emax sx mx ex lx <> S754_nan.
Proof.
  intros Hm. unfold binary_round_aux.
  pose proof (shr_fexp_nonneg mx ex lx Hm) as H1.
  destruct (shr_fexp prec emax mx ex lx) as [mrs' e']. cbn [fst] in H1.
  pose proof (rne_bounds mrs') as [Hb _]. cbn zeta in Hb.
  pose proof (shr_fexp_nonneg (round_nearest_even (shr_m mrs') (loc_of_shr_record mrs')) e' loc_Exact ltac:(lia)) as H2.
  destruct (shr_fexp prec emax _ e' loc_Exact) as [mrs'' e'']. cbn [fst] in H2.
  destruct (shr_m mrs'') as [|p|p]; [discriminate | | lia].
  destruct (e'' <=? emax - prec); discriminate.
Qed.


Lemma rounding_not_nan (sx : bool) (P k : Z) (r : spec_float) :
  rounding_of sx P k r -> sf_nan r = false.
Proof.
  intros (_ & [-> | [-> | (m & e & ->)]] & _); reflexivity.
Qed.

Lemma SFmul_not_nan (x y : spec_float) :
  valid_binary x = true -> valid_binary y = true ->
  sf_nan x = false -> sf_nan y = false ->
  (sf_finite x = false -> sf_ival y <> 0 \/ sf_finite y = false) ->
  (sf_finite y = false -> sf_ival x <> 0 \/ sf_finite x = false) ->
  sf_nan (SFmul prec emax x y) = false.
Proof.
  intros Vx Vy Nx Ny Hx Hy.
  destruct x as [sx | sx | | sx mx ex]; try discriminate;
  destruct y as [sy | sy | | sy my ey]; try discriminate; try reflexivity.
  - destruct (Hy eq_refl) as [H | H]; [now contradiction H | discriminate].
  - destruct (Hx eq_refl) as [H | H]; [now contradiction H | discriminate].
  - apply (rounding_not_nan _ _ _ _ (SFmul_rounding sx sy mx my ex ey Vx Vy)).
Qed.

Lemma normalize_not_nan (z e : Z) : -1074 <= e -> sf_nan (binary_normalize prec emax z e false) = false.
Proof.
  intros He. destruct (Z.eq_dec z 0) as [-> | Hz]; [reflexivity|].
  apply (rounding_not_nan _ _ _ _ (binary_normalize_rounding z e false He Hz)).
Qed.

Lemma SFadd_not_nan (x y : spec_float) :
  valid_binary x = true -> valid_binary y = true ->
  sf_nan x = false -> sf_finite y = true ->
  sf_nan (SFadd prec emax x y) = false.
Proof.
  intros Vx Vy Nx Fy.
  destruct x as [sx | sx | | sx mx ex]; try discriminate;
  destruct y as [sy | sy | | sy my ey]; try discriminate; try reflexivity.
  - now destruct sx, sy.
  - cbn [SFadd]. apply normalize_not_nan.
    pose proof (valid_finite_inv _ _ _ Vx). pose proof (valid_finite_inv _ _ _ Vy). lia.
Qed.

Lemma SFsub_not_nan (x y : spec_float) :
  valid_binary x = true -> valid_binary y = true ->
  sf_nan x = false -> sf_finite y = true ->
  sf_nan (SFsub prec emax x y) = false.
Proof.
  intros Vx Vy Nx Fy.
  destruct x as [sx | sx | | sx mx ex]; try discriminate;
  destruct y as [sy | sy | | sy my ey]; try discriminate; try reflexivity.
  - now destruct sx, sy.
  - cbn [SFsub]. apply normalize_not_nan.
    pose proof (valid_finite_inv _ _ _ Vx). pose proof (valid_finite_inv _ _ _ Vy). lia.
Qed.

Lemma SFdiv_not_nan (x : spec_float) (sy : bool) (my : positive) (ey : Z) :
  sf_nan x = false ->
  sf_nan (SFdiv prec emax x (S754_finite sy my ey)) = false.
Proof.
  intros Nx. destruct x as [sx | sx | | sx mx ex]; try discriminate; try reflexivity.
  cbn [SFdiv]. unfold SFdiv_core_binary.
  set (m' := match _ - _ - _ with 0 => Zpos mx | Zpos _ => _ | Zneg _ => 0 end).
  assert (0 <= m') as Hm'.
  { subst m'. destruct (_ - _ - _) as [|p|p]; try lia. apply Z.shiftl_nonneg. lia. }
  assert (0 <= fst (Z.div_eucl m' (Zpos my))) as Hq.
  { change (fst (Z.div_eucl m' (Zpos my))) with (m' / Zpos my). apply Z.div_pos; lia. }
  destruct (Z.div_eucl m' (Zpos my)) as [q r]. cbn [fst] in Hq.
  pose proof (bra_not_nan (xorb sx sy) q
    (Z.min (fexp prec emax (Zdigits2 (Zpos mx) + ex - (Zdigits2 (Zpos my) + ey))) (ex - ey))
    (new_location (Zpos my) r) Hq) as Hn.
  destruct (binary_round_aux _ _ _ _ _ _); try reflexivity. congruence.
Qed.

Lemma SFsqrt_not_nan (x : spec_float) :
  sf_nan x = false ->
  (forall s, x = S754_infinity s -> s = false) ->
  (forall s m e, x = S754_finite s m e -> s = false) ->
  sf_nan (SFsqrt prec emax x) = false
  /\ (forall s, SFsqrt prec emax x = S754_infinity s -> s = false)
  /\ (forall s m e, SFsqrt prec emax x = S754_finite s m e -> s = false).
Proof.
  intros Nx Hi Hf. destruct x as [sx | sx | | sx mx ex]; try discriminate.
  - cbn [SFsqrt]. repeat split; intros; discriminate.
  - rewrite (Hi sx eq_refl). cbn [SFsqrt]. repeat split; intros; try discriminate. congruence.
  - rewrite (Hf sx mx ex eq_refl). cbn [SFsqrt]. unfold SFsqrt_core_binary.
    set (m' := match _ - _ with 0 => Zpos mx | Zpos _ => _ | Zneg _ => 0 end).
    pose proof (Z.sqrtrem_sqrt m') as Es.
    pose proof (Z.sqrt_nonneg m') as Hq.
    destruct (Z.sqrtrem m') as [q r]. cbn [fst] in Es. subst q.
    set (e' := Z.min _ _). set (l := if r =? 0 then _ else _).
    pose proof (bra_not_nan false (Z.sqrt m') e' l Hq) as Hn.
    unfold binary_round_aux in *.
    destruct (shr_fexp prec emax (Z.sqrt m') e' l) as [mrs' e1].
    destruct (shr_fexp prec emax _ e1 loc_Exact) as [mrs'' e2].
    destruct (shr_m mrs'') as [|p|p]; [| |congruence].
    + repeat split; intros; discriminate.
    + destruct (e2 <=? emax - prec); repeat split; intros; try discriminate; congruence.
Qed.

Lemma cond_Zopp_mul (s : bool) (a b : Z) : cond_Zopp s (a * b) = cond_Zopp s a * b.
Proof. destruct s; cbn [cond_Zopp]; ring. Qed.

Lemma cond_Zopp_abs (s : bool) (a : Z) : Z.abs (cond_Zopp s a) = Z.abs a.
Proof. destruct s; cbn [cond_Zopp]; [apply Z.abs_opp | reflexivity]. Qed.

(** the shape of a finite double *)
Lemma finite_cases (x : float) :
  finite x = true ->
  (exists s, Prim2SF x = S754_zero s /\ ival x = 0)
  \/ (exists s m e,
        Prim2SF x = S754_finite s m e /\ -1074 <= e <= 971 /\ Zpos m < 2 ^ 53
        /\ (-1074 < e -> 2 ^ 52 <= Zpos m)
        /\ ival x = cond_Zopp s (Zpos m) * 2 ^ (e + 1074)).
Proof.
  intros F. unfold finite, ival in *. pose proof (finite_valid x) as V.
  destruct (Prim2SF x) as [s | s | | s m e]; try discriminate.
  - left. now exists s.
  - right. exists s, m, e. pose proof (valid_finite_inv _ _ _ V) as (He & Hm & Hn).
    repeat split; try lia; try assumption. cbn [sf_ival]. apply cond_Zopp_mul.
Qed.

Lemma ONE_split (e : Z) : -1074 <= e <= 0 -> ONE = 2 ^ (- e) * 2 ^ (e + 1074).
Proof.
  intros He. unfold ONE. rewrite <- pow2_split by lia. f_equal. lia.
Qed.

Lemma div_abs_le (n d : Z) : 0 < d -> Z.abs (n / d) <= Z.abs n.
Proof.
  intros Hd. destruct (Z.le_gt_cases 0 n) as [Hn | Hn].
  - rewrite !Z.abs_eq; try lia.
    + apply Z.div_le_upper_bound; [lia|]. nia.
    + apply Z.div_pos; lia.
  - assert (n <= n / d) by (apply Z.div_le_lower_bound; [lia | nia]).
    assert (n / d < 0) by (apply Z.div_lt_upper_bound; lia).
    lia.
Qed.

Lemma Math_floor_ival (x : float) :
  finite x = true ->
  finite (Math_floor x) = true /\ ival (Math_floor x) = ival x / ONE * ONE.
Proof.
  intros F. pose proof ONE_pos as HU. unfold Math_floor.
  destruct (finite_cases x F) as [(s & E & Ei) | (s & m & e & E & He & Hm & Hn & Ei)]; rewrite E.
  - split; [exact F|]. rewrite Ei. reflexivity.
  - destruct (Z.leb_spec 0 e) as [Hpos | Hneg].
    + split; [exact F|]. rewrite Ei.
      rewrite (pow2_split e 1074) by lia. fold ONE.
      rewrite Z.mul_assoc, Z.div_mul by lia. reflexivity.
    + set (n := cond_Zopp s (Zpos m)) in *.
      rewrite Z.shiftr_div_pow2 by lia.
      pose proof (pow2_pos (- e) ltac:(lia)) as Hp.
      pose proof (pow2_pos (e + 1074) ltac:(lia)) as Hg.
      assert (Z.abs n = Zpos m) as Habs by (unfold n; rewrite cond_Zopp_abs; reflexivity).
      pose proof (div_abs_le n (2 ^ (- e)) Hp) as Hq.
      destruct (Z2F_ival (n / 2 ^ (- e)) ltac:(lia)) as [Fq Eq].
      split; [exact Fq|]. rewrite Eq, Ei. f_equal.
      rewrite (ONE_split e) by lia. rewrite Z.div_mul_cancel_r by lia. reflexivity.
Qed.

Lemma Math_round_ival (x : float) :
  finite x = true -> Z.abs (ival x) < 2 ^ 52 * ONE ->
  finite (Math_round x) = true
  /\ ival (Math_round x) = (2 * ival x + ONE) / (2 * ONE) * ONE.
Proof.
  intros F Hx. pose proof ONE_pos as HU. unfold Math_round.
  destruct (finite_cases x F) as [(s & E & Ei) | (s & m & e & E & He & Hm & Hn & Ei)]; rewrite E.
  - split; [exact F|]. rewrite Ei.
    rewrite Z.mul_0_r, Z.add_0_l, Z.div_small by lia. reflexivity.
  - set (n := cond_Zopp s (Zpos m)) in *.
    assert (Z.abs n = Zpos m) as Habs by (unfold n; rewrite cond_Zopp_abs; reflexivity).
    destruct (Z.leb_spec 0 e) as [Hpos | Hneg].
    + (* a double with a non-negative exponent is at least 2^52 *)
      exfalso. rewrite Ei, Z.abs_mul, Habs in Hx.
      rewrite (pow2_split e 1074), (Z.abs_eq (_ * _)) in Hx by
        (try apply Z.mul_nonneg_nonneg; try apply Z.lt_le_incl, pow2_pos; lia).
      fold ONE in Hx. pose proof (pow2_pos e Hpos). specialize (Hn ltac:(lia)).
      assert (2 ^ 52 * ONE <= Zpos m * (2 ^ e * ONE)); [|lia].
      assert (1 * 2 ^ 52 <= 2 ^ e * Zpos m) by (apply Z.mul_le_mono_nonneg; lia).
      nia.
    + pose proof (pow2_pos (- e) ltac:(lia)) as Hp.
      pose proof (pow2_pos (e + 1074) ltac:(lia)) as Hg.
      rewrite Z.shiftr_div_pow2 by lia.
      assert (2 ^ (1 - e) = 2 * 2 ^ (- e)) as E2.
      { replace (1 - e) with (1 + - e) by lia. rewrite pow2_split by lia. reflexivity. }
      rewrite E2.
      set (q := (2 * n + 2 ^ (- e)) / (2 * 2 ^ (- e))).
      assert ((2 * ival x + ONE) / (2 * ONE) = q) as Eq.
      { rewrite Ei, (ONE_split e) by lia. unfold q.
        replace (2 * (n * 2 ^ (e + 1074)) + 2 ^ (- e) * 2 ^ (e + 1074))
          with ((2 * n + 2 ^ (- e)) * 2 ^ (e + 1074)) by ring.
        replace (2 * (2 ^ (- e) * 2 ^ (e + 1074)))
          with ((2 * 2 ^ (- e)) * 2 ^ (e + 1074)) by ring.
        apply Z.div_mul_cancel_r; lia. }
      rewrite Eq.
      assert (Z.abs q < 2 ^ 53) as Hq.
      { assert (2 <= 2 ^ (- e)) as Ht by (apply (pow2_le 1 (- e)); lia).
        assert (- 2 ^ 53 < n < 2 ^ 53) as Hnb by lia.
        assert (- 2 ^ 53 + 1 <= q < 2 ^ 53); [|lia]. unfold q.
        revert Ht Hnb Hp. generalize (2 ^ (- e)) (2 ^ 53). intros t K Ht Hnb Hp. split.
        - apply Z.div_le_lower_bound; nia.
        - apply Z.div_lt_upper_bound; nia. }
      destruct (Z.eqb_spec q 0) as [-> | Hq0].
      * split; [now destruct s | now destruct s].
      * destruct (Z2F_ival q Hq) as [Fq Eq']. split; assumption.
Qed.

(** *** Comparisons and clamping *)
Lemma Math_max_ival (a b : float) :
  finite a = true -> finite b = true ->
  finite (Math_max a b) = true /\ ival (Math_max a b) = Z.max (ival a) (ival b).
Proof.
  intros Fa Fb. unfold Math_max.
  rewrite (finite_not_nan a Fa), (finite_not_nan b Fb). cbn [orb].
  rewrite (ltb_ival a b Fa Fb), (ltb_ival b a Fb Fa).
  destruct (Z.ltb_spec (ival a) (ival b)); [split; [assumption | lia]|].
  destruct (Z.ltb_spec (ival b) (ival a)); [split; [assumption | lia]|].
  destruct (get_sign a); split; try assumption; lia.
Qed.

Lemma Math_min_ival (a b : float) :
  finite a = true -> finite b = true ->
  finite (Math_min a b) = true /\ ival (Math_min a b) = Z.min (ival a) (ival b).
Proof.
  intros Fa Fb. unfold Math_min.
  rewrite (finite_not_nan a Fa), (finite_not_nan b Fb). cbn [orb].
  rewrite (ltb_ival a b Fa Fb), (ltb_ival b a Fb Fa).
  destruct (Z.ltb_spec (ival a) (ival b)); [split; [assumption | lia]|].
  destruct (Z.ltb_spec (ival b) (ival a)); [split; [assumption | lia]|].
  destruct (get_sign a); split; try assumption; lia.
Qed.

(** comparison of a finite double with an infinity *)
Lemma ltb_inf (a x : float) (s : bool) :
  finite a = true -> Prim2SF x = S754_infinity s ->
  (a <? x)%float = negb s /\ (x <? a)%float = s.
Proof.
  unfold finite. intros Fa E. rewrite !FloatAxioms.ltb_spec, E. unfold SFltb.
  destruct (Prim2SF a) as [sa | sa | | sa ma ea]; try discriminate; destruct s; split; reflexivity.
Qed.

(** clamping a value that is not NaN *)
Lemma clamp_range (lo hi x : float) :
  finite lo = true -> finite hi = true -> ival lo <= ival hi ->
  is_nan x = false ->
  let r := Math_max lo (Math_min hi x) in
  finite r = true /\ ival lo <= ival r <= ival hi.
Proof.
  intros Flo Fhi Hle Nx r. subst r.
  rewrite is_nan_spec in Nx.
  destruct (Prim2SF x) as [s | s | | s m e] eqn:E; try discriminate.
  - assert (finite x = true) as Fx by (unfold finite; now rewrite E).
    destruct (Math_min_ival hi x Fhi Fx) as [Fm Em].
    destruct (Math_max_ival lo _ Flo Fm) as [Fr Er]. split; [exact Fr | lia].
  - destruct (ltb_inf hi x s Fhi E) as [L1 L2].
    assert (is_nan x = false) as Nx' by (rewrite is_nan_spec, E; reflexivity).
    assert (Math_min hi x = if s then x else hi) as ->.
    { unfold Math_min. rewrite (finite_not_nan hi Fhi), Nx', L1, L2. cbn [orb].
      now destruct s. }
    destruct s.
    + destruct (ltb_inf lo x true Flo E) as [L3 L4].
      assert (Math_max lo x = lo) as ->.
      { unfold Math_max. rewrite (finite_not_nan lo Flo), Nx', L3, L4. reflexivity. }
      split; [exact Flo | lia].
    + destruct (Math_max_ival lo hi Flo Fhi) as [Fr Er]. split; [exact Fr | lia].
  - assert (finite x = true) as Fx by (unfold finite; now rewrite E).
    destruct (Math_min_ival hi x Fhi Fx) as [Fm Em].
    destruct (Math_max_ival lo _ Flo Fm) as [Fr Er]. split; [exact Fr | lia].
Qed.


Lemma holds_lit (x : float) (k : Z) :
  (finite x && (ival x =? k * ONE)) = true -> holds x k.
Proof. intros [F E]%andb_true_iff. split; [exact F | now apply Z.eqb_eq]. Qed.

Ltac lit := apply holds_lit; vm_compute; reflexivity.

Lemma holds_Z2F (x : float) (k : Z) :
  holds x k -> k <> 0 -> Z.abs k < 2 ^ 53 -> x = Z2F k.
Proof.
  intros [F E] Hk0 Hk. destruct (Z2F_ival k Hk) as [Fk Ek].
  pose proof ONE_pos. apply ival_inj; try assumption; [congruence | nia].
Qed.

(** *** NaN, on the primitive operations *)
Lemma sub_not_nan (x y : float) :
  is_nan x = false -> finite y = true -> is_nan (x - y) = false.
Proof.
  rewrite !is_nan_spec, sub_spec. intros Nx Fy.
  apply SFsub_not_nan; try apply finite_valid; assumption.
Qed.

Lemma add_not_nan (x y : float) :
  is_nan x = false -> finite y = true -> is_nan (x + y) = false.
Proof.
  rewrite !is_nan_spec, add_spec. intros Nx Fy.
  apply SFadd_not_nan; try apply finite_valid; assumption.
Qed.

Lemma div_not_nan (x y : float) :
  is_nan x = false -> finite y = true -> ival y <> 0 -> is_nan (x / y) = false.
Proof.
  rewrite !is_nan_spec, div_spec. unfold finite, ival. intros Nx Fy Hy.
  destruct (Prim2SF y) as [s | s | | s m e]; try discriminate; [now contradiction Hy|].
  apply SFdiv_not_nan. exact Nx.
Qed.

(** a comparison that holds excludes NaN and the infinity on the wrong side *)
Lemma not_nan_cases (x : float) :
  is_nan x = false ->
  finite x = true \/ Prim2SF x = S754_infinity false \/ Prim2SF x = S754_infinity true.
Proof.
  rewrite is_nan_spec. unfold finite.
  destruct (Prim2SF x) as [s | [|] | | s m e]; try discriminate; auto.
Qed.


(** The last branch of [calculatePercentile], for a z-score strictly
    between -3 and 3. *)
Lemma percentile_middle (z : float) :
  finite z = true -> -3 * ONE < ival z < 3 * ONE ->
  exists k, 1 <= k <= 99
    /\ Math_max 1 (Math_min 99 (Math_round (50 + z * 16.67)%float)) = Z2F k.
Proof.
  intros Fz Hz. pose proof ONE_pos as HU.
  assert (holds 16.67%float 0 \/ finite 16.67%float = true /\ 0 < ival 16.67%float <= 17 * ONE)
    as [[_ H0] | [Fc Hc]].
  { right. split; [reflexivity|]. split; [vm_compute; reflexivity|].
    apply Z.leb_le. vm_compute. reflexivity. }
  { vm_compute in H0. discriminate. }
  assert (holds (-51)%float (-51)) as [FL EL] by lit.
  assert (holds 51%float 51) as [FH EH] by lit.
  destruct (mul_bounds z 16.67%float (-51)%float 51%float Fz Fc FL FH) as [Ft Ht].
  { rewrite EL, EH. revert Hz Hc. generalize (ival z) (ival 16.67%float). intros a c Hz Hc. nia. }
  rewrite EL, EH in Ht.
  assert (holds 50%float 50) as [F50 E50] by lit.
  assert (holds (-1)%float (-1)) as [FL1 EL1] by lit.
  assert (holds 101%float 101) as [FH1 EH1] by lit.
  destruct (add_bounds 50%float (z * 16.67)%float (-1)%float 101%float F50 Ft FL1 FH1) as [Fy Hy].
  { rewrite EL1, EH1, E50. lia. }
  rewrite EL1, EH1 in Hy.
  destruct (Math_round_ival (50 + z * 16.67)%float Fy) as [Fr Er].
  { assert (101 * ONE < 2 ^ 52 * ONE) by (apply Z.mul_lt_mono_pos_r; [exact HU | reflexivity]). lia. }
  set (q := (2 * ival (50 + z * 16.67)%float + ONE) / (2 * ONE)) in *.
  assert (-1 <= q <= 101) as Hq.
  { assert (-1 <= q < 102); [|lia]. unfold q. split.
    - apply Z.div_le_lower_bound; lia.
    - apply Z.div_lt_upper_bound; lia. }
  assert (holds 99%float 99) as [F99 E99] by lit.
  assert (holds 1%float 1) as [F1 E1] by lit.
  destruct (Math_min_ival 99%float _ F99 Fr) as [Fm Em].
  destruct (Math_max_ival 1%float _ F1 Fm) as [Fx Ex].
  exists (Z.max 1 (Z.min 99 q)). split; [lia|].
  apply holds_Z2F; [|lia|].
  - split; [exact Fx|]. rewrite Ex, Em, Er, E99, E1.
    rewrite Z.mul_min_distr_nonneg_r, Z.mul_max_distr_nonneg_r by lia. reflexivity.
  - assert (Z.max 1 (Z.min 99 q) < 2 ^ 53); [|lia].
    apply Z.le_lt_trans with 99; [lia | reflexivity].
Qed.


(** C7: for every measurement (a Number that is not NaN),
    [calculatePercentile] returns an integer between 1 and 99: with the
    z-score [z = (measurement - 6.5) / 2] it returns 1 when [z <= -3], 99 when
    [z >= 3], and otherwise [Math.round(50 + z * 16.67)] clamped to [1, 99]. *)
Theorem calculatePercentile_range (size : float) :
  is_nan size = false ->
  let z := ((size - 6.5) / 2)%float in
  Copy1.calculatePercentile size =
    (if (z <=? -3)%float then 1%float
     else if (3 <=? z)%float then 99%float
     else Math_max 1 (Math_min 99 (Math_round (50 + z * 16.67)%float)))
  /\ exists k, 1 <= k <= 99 /\ Copy1.calculatePercentile size = Z2F k.
Proof.
  intros Nsize z. split; [reflexivity|].
  unfold Copy1.calculatePercentile. fold z.
  assert (is_nan z = false) as Nz.
  { unfold z. apply div_not_nan; [|reflexivity|vm_compute; discriminate].
    apply sub_not_nan; [exact Nsize | reflexivity]. }
  destruct (z <=? -3)%float eqn:Elo.
  - exists 1. split; [lia | reflexivity].
  - destruct (3 <=? z)%float eqn:Ehi.
    + exists 99. split; [lia | reflexivity].
    + assert (holds (-3)%float (-3)) as [Fm3 Em3] by lit.
      assert (holds 3%float 3) as [F3 E3] by lit.
      destruct (not_nan_cases z Nz) as [Fz | [Ez | Ez]].
      * rewrite (leb_ival z (-3)%float Fz Fm3) in Elo.
        rewrite (leb_ival 3%float z F3 Fz) in Ehi.
        apply Z.leb_gt in Elo, Ehi.
        apply percentile_middle; [exact Fz | lia].
      * rewrite FloatAxioms.leb_spec, Ez in Ehi. vm_compute in Ehi. discriminate.
      * rewrite FloatAxioms.leb_spec, Ez in Elo. vm_compute in Elo. discriminate.
Qed.

Lemma eqb_ival (x y : float) :
  finite x = true -> finite y = true -> (x =? y)%float = (ival x =? ival y).
Proof.
  intros Fx Fy. rewrite FloatAxioms.eqb_spec. unfold SFeqb.
  rewrite (SFcompare_ival _ _ (finite_valid x) (finite_valid y) Fx Fy).
  unfold ival. destruct (Z.compare_spec (sf_ival (Prim2SF x)) (sf_ival (Prim2SF y))) as [E | L | EPS].
  - symmetry. now apply Z.eqb_eq.
  - symmetry. apply Z.eqb_neq. lia.
  - symmetry. apply Z.eqb_neq. lia.
Qed.

Lemma mul_not_nan (x y : float) :
  is_nan x = false -> finite y = true -> ival y <> 0 -> is_nan (x * y) = false.
Proof.
  rewrite !is_nan_spec, mul_spec. unfold finite, ival. intros Nx Fy Hy.
  apply SFmul_not_nan; try apply finite_valid.
  - exact Nx.
  - now destruct (Prim2SF y).
  - intros _. now left.
  - intros Hf. congruence.
Qed.

(** a value between two finite doubles is finite *)
Lemma between_finite (lo hi x : float) :
  finite lo = true -> finite hi = true ->
  (lo <=? x)%float = true -> (x <=? hi)%float = true -> finite x = true.
Proof.
  unfold finite. rewrite !FloatAxioms.leb_spec. unfold SFleb. intros Flo Fhi H1 H2.
  destruct (Prim2SF x) as [s | [|] | | s m e]; try reflexivity.
  - destruct (Prim2SF lo) as [sl | sl | | sl ml el]; discriminate.
  - destruct (Prim2SF hi) as [sh | sh | | sh mh eh]; discriminate.
  - destruct (Prim2SF lo) as [sl | sl | | sl ml el]; discriminate.
Qed.

(** multiplying a value that is at most zero by -2, then taking the root *)
Lemma sqrt_neg2_not_nan (l : float) :
  (l <=? 0)%float = true -> is_nan (sqrt (-2 * l)) = false.
Proof.
  rewrite FloatAxioms.leb_spec, is_nan_spec, sqrt_spec, mul_spec.
  unfold SF64sqrt, SF64mul.
  change (Prim2SF 0) with (S754_zero false).
  change (Prim2SF (-2)) with (S754_finite true 4503599627370496 (-51)).
  pose proof (finite_valid l) as Vl.
  unfold SFleb. intros Hl.
  assert (sf_nan (Prim2SF l) = false
          /\ (forall s, Prim2SF l = S754_infinity s -> s = true)
          /\ (forall s m e, Prim2SF l = S754_finite s m e -> s = true)) as (Nl & Il & Fl).
  { destruct (Prim2SF l) as [s | [|] | | [|] m e]; try discriminate;
      repeat split; intros; congruence. }
  apply SFsqrt_not_nan.
  - destruct (Prim2SF l) as [s | s | | s m e]; try discriminate; try reflexivity.
    apply (rounding_not_nan _ _ _ _
             (SFmul_rounding true s 4503599627370496 m (-51) e eq_refl Vl)).
  - intros s E. destruct (Prim2SF l) as [sl | sl | | sl ml el]; try discriminate.
    + pose proof (Il sl eq_refl) as ->. cbn in E. now inversion E.
    + pose proof (Fl sl ml el eq_refl) as ->.
      destruct (SFmul_rounding true true 4503599627370496 ml (-51) el eq_refl Vl)
        as (_ & Hs & _).
      cbn [xorb] in Hs. rewrite E in Hs.
      destruct Hs as [Hs | [Hs | (m' & e' & Hs)]]; now inversion Hs.
  - intros s m e E. destruct (Prim2SF l) as [sl | sl | | sl ml el]; try discriminate.
    pose proof (Fl sl ml el eq_refl) as ->.
    destruct (SFmul_rounding true true 4503599627370496 ml (-51) el eq_refl Vl)
      as (_ & Hs & _).
    cbn [xorb] in Hs. rewrite E in Hs.
    destruct Hs as [Hs | [Hs | (m' & e' & Hs)]]; now inversion Hs.
Qed.

Section BoxMuller.
Context {M : MathLib}.


Lemma scaled_not_nan (seed mean : float) :
  box_muller_regular seed = true -> finite mean = true ->
  is_nan (sqrt (-2 * Math_log (uniform seed))
          * Math_cos (2 * Math_PI * uniform (seed + 1)) * 1.2 + mean)%float = false.
Proof.
  unfold box_muller_regular.
  intros [Hl [[Hc1 Hc2]%andb_true_iff Hc0]%andb_true_iff]%andb_true_iff Fm.
  set (c := Math_cos _) in *.
  assert (finite c = true) as Fc by (apply (between_finite (-1) 1 c); auto).
  assert (ival c <> 0) as Hc.
  { rewrite (eqb_ival c 0 Fc eq_refl) in Hc0. apply negb_true_iff, Z.eqb_neq in Hc0. exact Hc0. }
  apply add_not_nan; [|exact Fm].
  apply mul_not_nan; [|reflexivity|vm_compute; discriminate].
  apply mul_not_nan; [|exact Fc|exact Hc].
  apply sqrt_neg2_not_nan. exact Hl.
Qed.

End BoxMuller.

(** rounding to one decimal after clamping lands on the grid of tenths *)
Lemma round_clamped (lo hi scaled : float) (klo khi : Z) :
  holds lo klo -> holds hi khi -> 1 <= klo <= khi -> khi <= 2 ^ 40 ->
  is_nan scaled = false ->
  exists k, 10 * klo <= k <= 10 * khi
    /\ Math_round (Math_max lo (Math_min hi scaled) * 10)%float = Z2F k.
Proof.
  intros [Flo Elo] [Fhi Ehi] Hk Hk40 Ns. pose proof ONE_pos as HU.
  destruct (clamp_range lo hi scaled Flo Fhi ltac:(nia) Ns) as [Fv Hv]. cbn zeta in Fv, Hv.
  set (v := Math_max lo (Math_min hi scaled)) in *.
  rewrite Elo, Ehi in Hv.
  assert (2 ^ 40 * 10 < 2 ^ 52) as H52 by reflexivity.
  destruct (Z2F_ival (10 * klo) ltac:(lia)) as [FL EL].
  destruct (Z2F_ival (10 * khi) ltac:(lia)) as [FH EH].
  assert (holds 10%float 10) as [F10 E10] by lit.
  destruct (mul_bounds v 10%float _ _ Fv F10 FL FH) as [Fp Hp].
  { rewrite EL, EH, E10. nia. }
  rewrite EL, EH in Hp.
  destruct (Math_round_ival (v * 10)%float Fp) as [Fr Er].
  { assert (10 * khi * ONE < 2 ^ 52 * ONE) by (apply Z.mul_lt_mono_pos_r; lia). lia. }
  set (q := (2 * ival (v * 10)%float + ONE) / (2 * ONE)) in *.
  assert (10 * klo <= q < 10 * khi + 1) as Hq.
  { unfold q. split.
    - apply Z.div_le_lower_bound; lia.
    - apply Z.div_lt_upper_bound; lia. }
  exists q. split; [lia|].
  apply holds_Z2F; [split; assumption | lia | lia].
Qed.

Lemma first_grid_range :
  forallb (fun k => (1 <=? tenths k)%float && (tenths k <=? 13)%float) (Zrange 10 121) = true.
Proof. vm_compute. reflexivity. Qed.

Lemma second_grid_range :
  forallb (fun k => (3 <=? tenths k)%float && (tenths k <=? 10)%float) (Zrange 30 71) = true.
Proof. vm_compute. reflexivity. Qed.

Section Range.
Context {M : MathLib}.

Lemma measurement_first (h : Z) :
  box_muller_regular (Z2F h) = true ->
  exists k, 10 <= k <= 130 /\ Copy1.measurement h = tenths k.
Proof.
  intros Hreg. unfold Copy1.measurement, Copy1.normalDistribution, tenths.
  pose proof (scaled_not_nan (Z2F h) 6.5 Hreg eq_refl) as Ns.
  destruct (round_clamped 1 13 _ 1 13 ltac:(lit) ltac:(lit) ltac:(lia) ltac:(lia) Ns)
    as (k & Hk & Ek).
  exists k. split; [lia|]. unfold uniform in Ek. rewrite Ek. reflexivity.
Qed.

Lemma measurement_second (h : Z) :
  box_muller_regular (Z2F h) = true ->
  exists k, 30 <= k <= 100 /\ Copy2.measurement h = tenths k.
Proof.
  intros Hreg. unfold Copy2.measurement, Copy2.normalDistribution, tenths.
  pose proof (scaled_not_nan (Z2F h) 6.5 Hreg eq_refl) as Ns.
  destruct (round_clamped 3 10 _ 3 10 ltac:(lit) ltac:(lit) ltac:(lia) ltac:(lia) Ns)
    as (k & Hk & Ek).
  exists k. split; [lia|]. unfold uniform in Ek.
  change Copy2.seededRandom with Copy1.seededRandom. rewrite Ek. reflexivity.
Qed.

(** C3: for a valid identifier, where the logarithm and the cosine of the
    Box-Muller step are regular ([box_muller_regular]), the measurement
    before conversion lies between the bounds, 1 to 13 for the first copy
    and 3 to 10 for the second, on the grid of tenths, and the confidence
    lies between 75 and 99. *)
Theorem measurement_confidence_range (s : string) :
  isValidUsername s = true ->
  let h := Copy1.hashUsername s in
  box_muller_regular (Z2F h) = true ->
  (exists k, 10 <= k <= 130 /\ Copy1.measurement h = tenths k)
  /\ ((1 <=? Copy1.measurement h)%float = true /\ (Copy1.measurement h <=? 13)%float = true)
  /\ (exists k, 30 <= k <= 100 /\ Copy2.measurement h = tenths k)
  /\ ((3 <=? Copy2.measurement h)%float = true /\ (Copy2.measurement h <=? 10)%float = true)
  /\ (forall this, Copy1.originalSize (Copy1.generateResults this s) = Copy1.measurement h
                   /\ 75 <= Copy1.confidence (Copy1.generateResults this s) <= 99)
  /\ (forall this, 75 <= Copy2.confidence (Copy2.generateResults this s) <= 99).
Proof.
  intros _ h Hreg.
  destruct (measurement_first h Hreg) as (k1 & Hk1 & E1).
  destruct (measurement_second h Hreg) as (k2 & Hk2 & E2).
  pose proof (hashUsername_range s) as Hh. fold h in Hh.
  assert (75 <= 75 + Z.rem h 25 <= 99) as Hconf.
  { pose proof (Z.rem_bound_pos h 25 ltac:(lia) ltac:(lia)). lia. }
  split; [now exists k1|]. split.
  { rewrite E1. pose proof first_grid_range as Hgrid. rewrite forallb_forall in Hgrid.
    apply andb_true_iff, Hgrid, Zrange_In. lia. }
  split; [now exists k2|]. split.
  { rewrite E2. pose proof second_grid_range as Hgrid. rewrite forallb_forall in Hgrid.
    apply andb_true_iff, Hgrid, Zrange_In. lia. }
  split.
  - intros this. split; [reflexivity | exact Hconf].
  - intros this. unfold Copy2.generateResults. cbn [Copy2.confidence].
    rewrite hashUsername_second. exact Hconf.
Qed.

End Range.


Lemma ONE_EPS : ONE = 2 ^ 53 * EPS.
Proof. reflexivity. Qed.

Lemma EPS_pos : 0 < EPS.
Proof. reflexivity. Qed.

(** the fractional part of a double, as an exact number, is at most 1 - 2^-53 *)
Lemma frac_bound (x : float) :
  finite x = true -> 0 <= ival x \/ ival x <= - EPS ->
  0 <= ival x mod ONE <= ONE - EPS.
Proof.
  intros F Hx. pose proof ONE_pos as HU. pose proof EPS_pos as HG. pose proof ONE_EPS as EU.
  pose proof (Z.mod_pos_bound (ival x) ONE HU) as Hmod.
  split; [lia|].
  destruct (finite_cases x F) as [(s & E & Ei) | (s & m & e & E & He & Hm & Hn & Ei)].
  - rewrite Ei, Z.mod_0_l by lia. lia.
  - set (n := cond_Zopp s (Zpos m)) in *.
    assert (Z.abs n = Zpos m) as Habs by (unfold n; rewrite cond_Zopp_abs; reflexivity).
    destruct (Z.le_gt_cases (-52) e) as [Hbig | Hsmall].
    + (* a multiple of 2^-52 *)
      assert (ival x = (n * 2 ^ (e + 52)) * (2 * EPS)) as Ex.
      { rewrite Ei. replace (e + 1074) with ((e + 52) + 1022) by lia.
        rewrite (pow2_split (e + 52) 1022) by lia. change (2 ^ 1022) with (2 * EPS). ring. }
      assert (ONE = 2 ^ 52 * (2 * EPS)) as EU2 by reflexivity.
      rewrite Ex, EU2, Z.mul_mod_distr_r by lia.
      pose proof (Z.mod_pos_bound (n * 2 ^ (e + 52)) (2 ^ 52) ltac:(lia)) as Hr.
      revert Hr. generalize ((n * 2 ^ (e + 52)) mod 2 ^ 52). intros r Hr. nia.
    + (* below 1 in magnitude *)
      assert (Zpos m * 2 ^ (e + 1074) <= ONE - EPS) as Hmag.
      { assert (2 ^ (e + 1074) <= EPS) by (apply pow2_le; lia).
        pose proof (pow2_pos (e + 1074) ltac:(lia)).
        assert (Zpos m * 2 ^ (e + 1074) <= (2 ^ 53 - 1) * EPS); [|lia].
        apply Z.mul_le_mono_nonneg; lia. }
      destruct s; cbn [cond_Zopp] in n; subst n.
      * assert (ival x = - (Zpos m * 2 ^ (e + 1074))) as Ex by (rewrite Ei; ring).
        assert (ival x mod ONE = ival x + ONE) as ->; [|lia].
        symmetry. apply Z.mod_unique with (q := -1); lia.
      * rewrite Z.mod_small; lia.
Qed.

(** a double just below 1 *)
Lemma below_one (x : float) :
  finite x = true -> ONE - 2 * EPS < ival x <= ONE - EPS -> x = 0x1.fffffffffffffp-1%float.
Proof.
  intros F Hx. pose proof ONE_pos as HU. pose proof EPS_pos as HG. pose proof ONE_EPS as EU.
  apply ival_inj; [exact F | reflexivity | | lia].
  change (ival 0x1.fffffffffffffp-1) with (ONE - EPS).
  destruct (finite_cases x F) as [(s & E & Ei) | (s & m & e & E & He & Hm & Hn & Ei)]; [lia|].
  destruct s; cbn [cond_Zopp] in Ei.
  { pose proof (pow2_pos (e + 1074) ltac:(lia)). nia. }
  assert (e = -53) as ->.
  { destruct (Z.lt_trichotomy e (-53)) as [Hlt | [Heq | Hgt]]; [|exact Heq|].
    - assert (2 ^ (e + 1074) <= 2 ^ 1020) by (apply pow2_le; lia).
      pose proof (pow2_pos (e + 1074) ltac:(lia)).
      assert (Zpos m * 2 ^ (e + 1074) <= 2 ^ 53 * 2 ^ 1020) by (apply Z.mul_le_mono_nonneg; lia).
      change (2 ^ 53 * 2 ^ 1020) with (ONE - 2 ^ 52 * EPS) in *.
      lia.
    - specialize (Hn ltac:(lia)).
      assert (2 ^ 1022 <= 2 ^ (e + 1074)) by (apply pow2_le; lia).
      assert (2 ^ 52 * 2 ^ 1022 <= Zpos m * 2 ^ (e + 1074)) by (apply Z.mul_le_mono_nonneg; lia).
      change (2 ^ 52 * 2 ^ 1022) with ONE in *. lia. }
  change (2 ^ (-53 + 1074)) with EPS in Ei.
  assert (2 ^ 53 - 2 < Zpos m) by (apply (mul_lt_cancel_r _ _ EPS HG); lia).
  assert (Zpos m = 2 ^ 53 - 1) as Em by lia.
  rewrite Ei, Em. lia.
Qed.

(** *** Signs *)
Lemma SFmul_sign (x y : spec_float) :
  valid_binary x = true -> valid_binary y = true ->
  sf_finite x = true -> sf_finite y = true ->
  sf_sign (SFmul prec emax x y) = xorb (sf_sign x) (sf_sign y).
Proof.
  intros Vx Vy Fx Fy.
  destruct x as [sx | sx | | sx mx ex]; try discriminate;
  destruct y as [sy | sy | | sy my ey]; try discriminate; try reflexivity.
  destruct (SFmul_rounding sx sy mx my ex ey Vx Vy) as (_ & [-> | [-> | (m & e & ->)]] & _);
    reflexivity.
Qed.

Lemma normalize_sign (z e : Z) :
  -1074 <= e -> 0 <= z -> sf_sign (binary_normalize prec emax z e false) = false.
Proof.
  intros He Hz. destruct (Z.eq_dec z 0) as [-> | Hz0]; [reflexivity|].
  destruct (binary_normalize_rounding z e false He Hz0) as (_ & Hs & _).
  replace (z <? 0) with false in Hs by (symmetry; apply Z.ltb_ge; lia).
  destruct Hs as [-> | [-> | (m' & e' & ->)]]; reflexivity.
Qed.

Lemma SFsub_sign (x y : spec_float) :
  valid_binary x = true -> valid_binary y = true ->
  sf_finite x = true -> sf_finite y = true ->
  0 <= sf_ival x - sf_ival y ->
  (x = S754_zero true -> y = S754_zero true) ->
  sf_sign (SFsub prec emax x y) = false.
Proof.
  intros Vx Vy Fx Fy Hd Hz.
  destruct (sf_ival_zero_or x Fx Vx) as [[sx ->] | (sx & mx & ex & -> & Hex & Hpx)];
  destruct (sf_ival_zero_or y Fy Vy) as [[sy ->] | (sy & my & ey & -> & Hey & Hpy)].
  - destruct sx, sy; try reflexivity. specialize (Hz eq_refl). discriminate.
  - cbn [SFsub sf_sign]. cbn [sf_ival] in Hd. destruct sy; cbn [cond_Zopp negb] in *; [reflexivity | lia].
  - cbn [SFsub sf_sign]. cbn [sf_ival] in Hd. destruct sx; cbn [cond_Zopp] in *; [lia | reflexivity].
  - cbn [SFsub].
    rewrite <- (aligned_ival sx mx ex (Z.min ex ey)), <- (aligned_ival sy my ey (Z.min ex ey)) in Hd by lia.
    rewrite <- Z.mul_sub_distr_r in Hd.
    apply normalize_sign; [lia|].
    pose proof (pow2_pos (Z.min ex ey + 1074) ltac:(lia)). nia.
Qed.

Lemma floor_le (x : float) :
  finite x = true -> 0 <= ival x - ival (Math_floor x) /\ ival x - ival (Math_floor x) = ival x mod ONE.
Proof.
  intros F. pose proof ONE_pos as HU.
  destruct (Math_floor_ival x F) as [_ ->].
  pose proof (Z.div_mod (ival x) ONE ltac:(lia)).
  pose proof (Z.mod_pos_bound (ival x) ONE HU). lia.
Qed.

Lemma floor_zero (x : float) (s : bool) :
  Prim2SF x = S754_zero s -> Math_floor x = x.
Proof. intros E. unfold Math_floor. now rewrite E. Qed.

Lemma frac_sign (x : float) :
  finite x = true -> sf_sign (Prim2SF (x - Math_floor x)) = false.
Proof.
  intros F. rewrite sub_spec.
  destruct (Math_floor_ival x F) as [Ffl _].
  destruct (floor_le x F) as [Hd _].
  apply SFsub_sign; try apply finite_valid; try assumption.
  intros E. rewrite (floor_zero x true E). exact E.
Qed.

(** [Math.floor] as an integer *)
Lemma Math_floor_Z2F (x : float) :
  finite x = true -> 0 <= ival x < 2 ^ 52 * ONE -> sf_sign (Prim2SF x) = false ->
  Math_floor x = Z2F (ival x / ONE).
Proof.
  intros F Hx Hs. pose proof ONE_pos as HU.
  destruct (finite_cases x F) as [(s & E & Ei) | (s & m & e & E & He & Hm & Hn & Ei)].
  - rewrite (floor_zero x s E), Ei. rewrite E in Hs. cbn in Hs. subst s.
    apply Prim2SF_inj. rewrite E. reflexivity.
  - destruct (Math_floor_ival x F) as [Ffl Efl].
    destruct (Z.eq_dec (ival x / ONE) 0) as [E0 | Hne].
    + (* between 0 and 1: the exponent is negative *)
      rewrite E0. unfold Math_floor. rewrite E.
      rewrite E in Hs. cbn in Hs. subst s. cbn [cond_Zopp] in *.
      destruct (Z.leb_spec 0 e) as [Hpos | Hneg].
      * exfalso. specialize (Hn ltac:(lia)).
        rewrite (pow2_split e 1074) in Ei by lia. fold ONE in Ei.
        pose proof (pow2_pos e Hpos).
        assert (1 * ONE <= Zpos m * 2 ^ e * ONE) by (apply Z.mul_le_mono_nonneg_r; nia).
        assert (1 <= ival x / ONE); [|lia].
        apply Z.div_le_lower_bound; lia.
      * f_equal. rewrite Z.shiftr_div_pow2 by lia. rewrite <- E0, Ei.
        rewrite (ONE_split e) by lia.
        pose proof (pow2_pos (e + 1074) ltac:(lia)).
        pose proof (pow2_pos (- e) ltac:(lia)).
        rewrite Z.div_mul_cancel_r by lia. reflexivity.
    + apply holds_Z2F; [split; assumption | exact Hne |].
      assert (0 <= ival x / ONE) by (apply Z.div_pos; lia).
      assert (ival x / ONE < 2 ^ 52) by (apply Z.div_lt_upper_bound; lia).
      lia.
Qed.


Lemma mul_sign (x y : float) :
  finite x = true -> finite y = true ->
  sf_sign (Prim2SF (x * y)) = xorb (sf_sign (Prim2SF x)) (sf_sign (Prim2SF y)).
Proof.
  intros Fx Fy. rewrite mul_spec. apply SFmul_sign; try apply finite_valid; assumption.
Qed.

(** the fractional part of a double that is not a tiny negative number *)
Lemma frac_range (x : float) :
  finite x = true -> 0 <= ival x \/ ival x <= - EPS ->
  finite (frac x) = true /\ 0 <= ival (frac x) <= ONE - EPS
  /\ sf_sign (Prim2SF (frac x)) = false.
Proof.
  intros F Hx. unfold frac.
  destruct (Math_floor_ival x F) as [Ffl _].
  destruct (floor_le x F) as [_ Ed].
  pose proof (frac_bound x F Hx) as Hb. rewrite <- Ed in Hb.
  destruct (sub_bounds x (Math_floor x) 0 0x1.fffffffffffffp-1 F Ffl eq_refl eq_refl) as [Ff Hf].
  { change (ival 0) with 0. change (ival 0x1.fffffffffffffp-1) with (ONE - EPS). exact Hb. }
  change (ival 0) with 0 in Hf. change (ival 0x1.fffffffffffffp-1) with (ONE - EPS) in Hf.
  split; [exact Ff|]. split; [exact Hf|]. apply frac_sign. exact F.
Qed.

(** scaling a fractional part by a million stays below a million *)
Lemma scale_million (f : float) :
  finite f = true -> 0 <= ival f <= ONE - EPS -> sf_sign (Prim2SF f) = false ->
  exists k, 0 <= k <= 999999 /\ Math_floor (f * 1000000) = Z2F k.
Proof.
  intros F Hf Hs. pose proof ONE_pos as HU. pose proof EPS_pos as HG. pose proof ONE_EPS as EU.
  assert (finite (f * 1000000) = true
          /\ 0 <= ival (f * 1000000) <= 1000000 * ONE - 2 ^ 20 * EPS) as [Fy Hy].
  { destruct (Z.le_gt_cases (ival f) (ONE - 2 * EPS)) as [Hle | Hgt].
    - assert (holds 1000000 1000000) as [F6 E6] by lit.
      destruct (mul_bounds f 1000000 0 0x1.e847fffffffffp+19 F F6 eq_refl eq_refl) as [Fy Hy].
      + change (ival 0) with 0. change (ival 0x1.e847fffffffffp+19) with (1000000 * ONE - 2 ^ 20 * EPS).
        rewrite E6. split; [nia|].
        assert (ival f * 1000000 <= 1000000 * ONE - 2 ^ 20 * EPS) by lia.
        replace (ival f * (1000000 * ONE)) with (ival f * 1000000 * ONE) by ring.
        apply Z.mul_le_mono_nonneg_r; lia.
      + change (ival 0) with 0 in Hy.
        change (ival 0x1.e847fffffffffp+19) with (1000000 * ONE - 2 ^ 20 * EPS) in Hy.
        split; assumption.
    - rewrite (below_one f F ltac:(lia)). split; [reflexivity|].
      split; apply Z.leb_le; vm_compute; reflexivity. }
  assert (sf_sign (Prim2SF (f * 1000000)) = false) as Hsy.
  { rewrite (mul_sign f 1000000 F eq_refl), Hs. reflexivity. }
  assert (1000000 * ONE < 2 ^ 52 * ONE) by (apply Z.mul_lt_mono_pos_r; [exact HU | reflexivity]).
  exists (ival (f * 1000000) / ONE). split.
  - split; [apply Z.div_pos; lia|].
    assert (ival (f * 1000000) / ONE < 1000000); [|lia].
    apply Z.div_lt_upper_bound; lia.
  - apply Math_floor_Z2F; [exact Fy | lia | exact Hsy].
Qed.

Section SeededRandom.
Context {M : MathLib}.


Lemma sin_scaled (seed : float) :
  sin_regular seed = true ->
  let x := (Math_sin seed * 10000)%float in
  finite x = true /\ (0 <= ival x \/ ival x <= - EPS).
Proof.
  intros Hreg x. subst x. unfold sin_regular in Hreg.
  apply andb_true_iff in Hreg. destruct Hreg as [H12 H3].
  apply andb_true_iff in H12. destruct H12 as [H1 H2].
  pose proof ONE_pos as HU. pose proof EPS_pos as HG.
  set (s := Math_sin seed) in *.
  assert (finite s = true) as Fs by (apply (between_finite (-1) 1 s); auto).
  assert (holds (-1) (-1)) as [Fm1 Em1] by lit.
  assert (holds 1 1) as [F1 E1] by lit.
  assert (holds 10000 10000) as [Ft Et] by lit.
  assert (holds (-10000) (-10000)) as [Fmt Emt] by lit.
  rewrite (leb_ival (-1) s Fm1 Fs), Em1 in H1. rewrite (leb_ival s 1 Fs F1), E1 in H2.
  apply Z.leb_le in H1, H2.
  apply orb_true_iff in H3. destruct H3 as [Hpos | Hneg].
  - rewrite (leb_ival 0 s eq_refl Fs) in Hpos. change (ival 0) with 0 in Hpos.
    apply Z.leb_le in Hpos.
    destruct (mul_bounds s 10000 0 10000 Fs Ft eq_refl Ft) as [Fx Hx].
    { change (ival 0) with 0. rewrite Et. split; [nia|].
      replace (10000 * ONE * ONE) with (ONE * (10000 * ONE)) by ring.
      apply Z.mul_le_mono_nonneg_r; lia. }
    change (ival 0) with 0 in Hx. split; [exact Fx | left; lia].
  - rewrite (leb_ival s (-0x1p-66) Fs eq_refl) in Hneg.
    change (ival (-0x1p-66)) with (- 2 ^ 1008) in Hneg. apply Z.leb_le in Hneg.
    destruct (mul_bounds s 10000 (-10000) (-0x1p-53) Fs Ft Fmt eq_refl) as [Fx Hx].
    { change (ival (-0x1p-53)) with (- EPS). rewrite Emt, Et. split.
      - replace (-10000 * ONE * ONE) with (- ONE * (10000 * ONE)) by ring.
        apply Z.mul_le_mono_nonneg_r; lia.
      - assert (ival s * 10000 <= - EPS).
        { change EPS with (2 ^ 1008 * 8192). lia. }
        replace (ival s * (10000 * ONE)) with (ival s * 10000 * ONE) by ring.
        apply Z.mul_le_mono_nonneg_r; lia. }
    change (ival (-0x1p-53)) with (- EPS) in Hx. split; [exact Fx | right; lia].
Qed.

(** C9: for an integer seed at which the sine is regular ([sin_regular]),
    [seededRandom(seed)] is the floor of the fractional part of
    [sin(seed) * 10000] times 1000000, and it is an integer between 0 and
    999999. *)
Theorem seededRandom_range (seed : Z) :
  sin_regular (Z2F seed) = true ->
  Copy1.seededRandom (Z2F seed)
  = Math_floor (frac (Math_sin (Z2F seed) * 10000) * 1000000)%float
  /\ exists k, 0 <= k <= 999999 /\ Copy1.seededRandom (Z2F seed) = Z2F k.
Proof.
  intros Hreg. split; [reflexivity|].
  destruct (sin_scaled (Z2F seed) Hreg) as [Fx Hx]. cbn zeta in Fx, Hx.
  destruct (frac_range _ Fx Hx) as (Ff & Hf & Hs).
  apply (scale_million _ Ff Hf Hs).
Qed.

End SeededRandom.

(** ** The theorems at a concrete input, with the reference library *)

Lemma calculatePercentile_range_witness :
  exists k, 1 <= k <= 99 /\ Copy1.calculatePercentile 6.3%float = Z2F k.
Proof.
  apply (proj2 (calculatePercentile_range 6.3%float eq_refl)).
Defined.

Lemma measurement_confidence_range_witness :
  (1 <=? Copy1.measurement (M := RefMath.lib) 92903040)%float = true
  /\ (Copy1.measurement (M := RefMath.lib) 92903040 <=? 13)%float = true.
Proof.
  pose proof (measurement_confidence_range (M := RefMath.lib) "alice" eq_refl) as H.
  cbn zeta in H. specialize (H ltac:(vm_compute; reflexivity)).
  exact (proj1 (proj2 H)).
Defined.

Lemma seededRandom_range_witness :
  exists k, 0 <= k <= 999999
    /\ Copy1.seededRandom (M := RefMath.lib) (Z2F 92903040) = Z2F k.
Proof.
  apply (proj2 (seededRandom_range (M := RefMath.lib) 92903040
                  ltac:(vm_compute; reflexivity))).
Defined.

(** ** The text field *)

Lemma substring_all (s : string) : substring 0 (String.length s) s = s.
Proof. induction s as [|c rest IH]; cbn; [reflexivity | now rewrite IH]. Qed.

Lemma substring_short (s : string) (n : nat) :
  (String.length s <= n)%nat -> substring 0 n s = s.
Proof.
  revert n. induction s as [|c rest IH]; intros n Hn.
  - now destruct n.
  - destruct n as [|n]; cbn in *; [lia|]. rewrite IH by lia. reflexivity.
Qed.

Lemma substring_length (s : string) (n : nat) :
  (String.length (substring 0 n s) <= n)%nat.
Proof.
  revert n. induction s as [|c rest IH]; intros [|n]; cbn; try lia.
  specialize (IH n). lia.
Qed.

Lemma substring_all_units (p : ascii -> bool) (s : string) (n : nat) :
  all_units p s = true -> all_units p (substring 0 n s) = true.
Proof.
  revert n. induction s as [|c rest IH]; intros [|n]; cbn; try reflexivity.
  intros [Hc Hr]%andb_true_iff. rewrite Hc. cbn. now apply IH.
Qed.

Lemma slice_prefix (s : string) (n : Z) :
  0 <= n -> Page.slice s 0 n = substring 0 (Z.to_nat n) s.
Proof.
  intros Hn. unfold Page.slice, Page.slice_index.
  destruct (Z.ltb_spec n 0) as [|_]; [lia|]. cbn [Z.ltb Z.compare].
  rewrite Z.min_l, Z.sub_0_r by lia. cbn [Z.to_nat].
  destruct (Z.le_gt_cases n (Z.of_nat (String.length s))) as [Hle | Hgt].
  - now rewrite Z.min_l by lia.
  - rewrite Z.min_r, Nat2Z.id by lia.
    rewrite substring_all. symmetry. apply substring_short. lia.
Qed.

Lemma slice_from_tail (c : ascii) (rest : string) :
  Page.slice_from (String c rest) 1 = rest.
Proof.
  unfold Page.slice_from, Page.slice, Page.slice_index.
  cbn [String.length Z.ltb Z.compare].
  destruct (Z.ltb_spec (Z.of_nat (S (String.length rest))) 0) as [|_]; [lia|].
  rewrite Z.min_l, Z.min_id by lia.
  replace (Z.to_nat (Z.of_nat (S (String.length rest)) - 1)) with (String.length rest) by lia.
  change (Z.to_nat 1) with 1%nat. cbn [substring]. apply substring_all.
Qed.

Lemma delete_non_word_units (s : string) :
  all_units is_word_unit (Page.delete_non_word s) = true.
Proof.
  induction s as [|c rest IH]; cbn; [reflexivity|].
  destruct (is_word_unit c) eqn:E; cbn; [now rewrite E | exact IH].
Qed.

Lemma delete_non_word_id (s : string) :
  all_units is_word_unit s = true -> Page.delete_non_word s = s.
Proof.
  induction s as [|c rest IH]; cbn; [reflexivity|].
  intros [Hc Hr]%andb_true_iff. rewrite Hc, IH by exact Hr. reflexivity.
Qed.

(** the value that [validateAndFormatInput] writes back *)
Lemma formatted_value (input : Page.Input) :
  Page.value (Page.validateAndFormatInput input)
  = substring 0 15 (Page.delete_non_word (Page.value input)).
Proof.
  unfold Page.validateAndFormatInput. cbn [Page.value].
  rewrite slice_prefix by lia. change (Z.to_nat 15) with 15%nat. f_equal.
  unfold Page.startsWith.
  destruct (Page.value input) as [|c rest]; [reflexivity|].
  cbn [prefix]. destruct (ascii_dec "@" c) as [<- | Hne]; [|reflexivity].
  destruct rest; rewrite slice_from_tail; reflexivity.
Qed.

Lemma formatted_units (input : Page.Input) :
  all_units is_word_unit (Page.value (Page.validateAndFormatInput input)) = true
  /\ (String.length (Page.value (Page.validateAndFormatInput input)) <= 15)%nat.
Proof.
  rewrite formatted_value. split.
  - apply substring_all_units, delete_non_word_units.
  - apply substring_length.
Qed.

Lemma word_units_valid (s : string) :
  all_units is_word_unit s = true -> (String.length s <= 15)%nat ->
  isValidUsername s = (0 <? Z.of_nat (String.length s)).
Proof.
  intros Hu Hl. unfold isValidUsername. rewrite Hu. cbn [andb].
  destruct (Z.leb_spec 1 (Z.of_nat (String.length s)));
    destruct (Z.leb_spec (Z.of_nat (String.length s)) 15);
    destruct (Z.ltb_spec 0 (Z.of_nat (String.length s))); cbn; try reflexivity; lia.
Qed.

Lemma isValidUsername_units (s : string) :
  isValidUsername s = true ->
  all_units is_word_unit s = true /\ (1 <= String.length s <= 15)%nat.
Proof.
  unfold isValidUsername. intros [[[Hu H1]%andb_true_iff H15]%andb_true_iff _]%andb_true_iff.
  apply Z.leb_le in H1, H15. split; [exact Hu | lia].
Qed.

(** *** Class lists *)

Lemma contains_add (tokens : list string) (token t : string) :
  Page.classList_contains (Page.classList_add tokens token) t
  = (String.eqb t token || Page.classList_contains tokens t).
Proof.
  unfold Page.classList_add.
  destruct (Page.classList_contains tokens token) eqn:E.
  - destruct (String.eqb_spec t token) as [-> | _]; [now rewrite E | reflexivity].
  - unfold Page.classList_contains. rewrite existsb_app. cbn.
    rewrite orb_false_r. apply orb_comm.
Qed.

Lemma contains_remove (tokens : list string) (token t : string) :
  Page.classList_contains (Page.classList_remove tokens token) t
  = (negb (String.eqb t token) && Page.classList_contains tokens t).
Proof.
  unfold Page.classList_contains, Page.classList_remove.
  induction tokens as [|x rest IH]; cbn.
  - now rewrite andb_false_r.
  - destruct (String.eqb x token) eqn:Ex; cbn; rewrite IH;
      destruct (String.eqb t x) eqn:Etx; destruct (String.eqb t token) eqn:Et;
      cbn; try reflexivity.
    + apply String.eqb_eq in Ex, Etx. apply String.eqb_neq in Et. congruence.
    + apply String.eqb_eq in Et, Etx. apply String.eqb_neq in Ex. congruence.
Qed.

Lemma remove_absent (tokens : list string) (token : string) :
  Page.classList_contains tokens token = false ->
  Page.classList_remove tokens token = tokens.
Proof.
  unfold Page.classList_contains, Page.classList_remove.
  induction tokens as [|x rest IH]; cbn; [reflexivity|].
  intros [Hx Hr]%orb_false_iff. rewrite String.eqb_sym, Hx. cbn. now rewrite IH.
Qed.

Lemma remove_idem (tokens : list string) (token : string) :
  Page.classList_remove (Page.classList_remove tokens token) token
  = Page.classList_remove tokens token.
Proof.
  apply remove_absent. rewrite contains_remove, String.eqb_refl. reflexivity.
Qed.

Lemma add_present (tokens : list string) (token : string) :
  Page.classList_contains tokens token = true ->
  Page.classList_add tokens token = tokens.
Proof. intros H. unfold Page.classList_add. now rewrite H. Qed.

Lemma formatted_valid (input : Page.Input) :
  isValidUsername (Page.value (Page.validateAndFormatInput input))
  = negb (String.eqb (Page.value (Page.validateAndFormatInput input)) "").
Proof.
  destruct (formatted_units input) as [Hu Hl].
  rewrite (word_units_valid _ Hu Hl).
  now destruct (Page.value (Page.validateAndFormatInput input)).
Qed.

(** X1: whatever the text field holds, [validateAndFormatInput] leaves in
    it the first 15 code units of [[a-zA-Z0-9_]] of the old value, in their
    order (the removal of a leading '@' changes nothing, the class has no
    '@'); the new value has at most 15 units, all of the class, and is a
    valid username unless it is empty. *)
Theorem validateAndFormatInput_value (input : Page.Input) :
  let out := Page.validateAndFormatInput input in
  Page.value out = substring 0 15 (Page.delete_non_word (Page.value input))
  /\ all_units is_word_unit (Page.value out) = true
  /\ (String.length (Page.value out) <= 15)%nat
  /\ isValidUsername (Page.value out) = negb (String.eqb (Page.value out) "").
Proof.
  intros out. subst out.
  destruct (formatted_units input) as [Hu Hl].
  split; [apply formatted_value|]. split; [exact Hu|]. split; [exact Hl|].
  apply formatted_valid.
Qed.

Lemma formatted_wrapper (input : Page.Input) (token : string) :
  Page.classList_contains (Page.wrapper (Page.validateAndFormatInput input)) token =
    if String.eqb token "invalid" then false
    else if String.eqb token "valid"
         then negb (String.eqb (Page.value (Page.validateAndFormatInput input)) "")
         else Page.classList_contains (Page.wrapper input) token.
Proof.
  destruct (formatted_units input) as [Hu Hl].
  pose proof (word_units_valid _ Hu Hl) as Hv.
  unfold Page.validateAndFormatInput in *. cbn [Page.value Page.wrapper] in *.
  set (v := Page.slice _ 0 15) in *.
  rewrite Hv, andb_diag.
  destruct (Z.ltb_spec 0 (Z.of_nat (String.length v))) as [Hpos | Hzero].
  - rewrite contains_remove, contains_add.
    destruct (String.eqb_spec token "invalid") as [-> | Hi]; [reflexivity|].
    destruct (String.eqb_spec token "valid") as [-> | Hva]; cbn.
    + now destruct v.
    + reflexivity.
  - rewrite !contains_remove.
    destruct (String.eqb_spec token "invalid") as [-> | Hi]; [reflexivity|].
    destruct (String.eqb_spec token "valid") as [-> | Hva]; cbn.
    + destruct v; [reflexivity | cbn in Hzero; lia].
    + reflexivity.
Qed.

(** X2: after [validateAndFormatInput] the wrapper of the field never has
    the class 'invalid', it has the class 'valid' exactly when the new value
    is not empty, and its other classes are as before: the branch that adds
    'invalid' is never taken. *)
Theorem validateAndFormatInput_feedback (input : Page.Input) (token : string) :
  let out := Page.validateAndFormatInput input in
  Page.classList_contains (Page.wrapper out) token =
    if String.eqb token "invalid" then false
    else if String.eqb token "valid" then negb (String.eqb (Page.value out) "")
    else Page.classList_contains (Page.wrapper input) token.
Proof.
  intros out. apply formatted_wrapper.
Qed.

(** X3: [validateAndFormatInput] is idempotent, on the value and on the
    classes of the wrapper, and it leaves a valid username as it is. *)
Theorem validateAndFormatInput_idempotent (input : Page.Input) :
  Page.validateAndFormatInput (Page.validateAndFormatInput input)
  = Page.validateAndFormatInput input
  /\ forall username tokens,
       isValidUsername username = true ->
       Page.value (Page.validateAndFormatInput
                     {| Page.value := username; Page.wrapper := tokens |})
       = username.
Proof.
  assert (forall i, all_units is_word_unit (Page.value i) = true ->
                    (String.length (Page.value i) <= 15)%nat ->
                    Page.value (Page.validateAndFormatInput i) = Page.value i) as Hfix.
  { intros i Hu Hl. rewrite formatted_value, delete_non_word_id by exact Hu.
    apply substring_short, Hl. }
  split.
  - destruct (formatted_units input) as [Hu Hl].
    pose proof (Hfix _ Hu Hl) as Hval.
    pose proof (word_units_valid _ Hu Hl) as Hv.
    pose proof (formatted_wrapper input) as Hfb.
    set (out := Page.validateAndFormatInput input) in *.
    assert (Page.wrapper (Page.validateAndFormatInput out) = Page.wrapper out) as Hw.
    { transitivity
        (if (0 <? Z.of_nat (String.length (Page.value out))) && isValidUsername (Page.value out)
         then Page.classList_remove (Page.classList_add (Page.wrapper out) "valid") "invalid"
         else if 0 <? Z.of_nat (String.length (Page.value out))
              then Page.classList_remove (Page.classList_add (Page.wrapper out) "invalid") "valid"
              else Page.classList_remove (Page.classList_remove (Page.wrapper out) "valid") "invalid").
      { unfold Page.validateAndFormatInput at 1. cbn [Page.wrapper].
        change (Page.slice _ 0 15) with (Page.value (Page.validateAndFormatInput out)).
        rewrite Hval. reflexivity. }
      rewrite Hv, andb_diag.
      pose proof (Hfb "invalid") as Hinv. rewrite String.eqb_refl in Hinv.
      pose proof (Hfb "valid") as Hval'.
      change (String.eqb "valid" "invalid") with false in Hval'.
      rewrite String.eqb_refl in Hval'.
      destruct (Z.ltb_spec 0 (Z.of_nat (String.length (Page.value out)))) as [Hpos | Hzero].
      - rewrite add_present.
        + now apply remove_absent.
        + rewrite Hval'. destruct (Page.value out); [cbn in Hpos; lia | reflexivity].
      - rewrite (remove_absent (Page.wrapper out) "valid").
        + now apply remove_absent.
        + rewrite Hval'. destruct (Page.value out); [reflexivity | cbn in Hzero; lia]. }
    destruct (Page.validateAndFormatInput out) as [v' w'] eqn:E2.
    cbn [Page.value Page.wrapper] in *. subst v' w'. now destruct out.
  - intros username tokens Hvalid.
    destruct (isValidUsername_units username Hvalid) as [Hu Hl].
    apply (Hfix {| Page.value := username; Page.wrapper := tokens |}); cbn; [exact Hu | lia].
Qed.

Lemma word_not_space (c : ascii) : is_word_unit c = true -> Page.is_space_unit c = false.
Proof. destruct c as [[] [] [] [] [] [] [] []]; cbn; congruence. Qed.

Lemma trimEnd_word (s : string) :
  all_units is_word_unit s = true -> Page.trimEnd s = s.
Proof.
  induction s as [|c rest IH]; cbn; [reflexivity|].
  intros [Hc Hr]%andb_true_iff. rewrite IH by exact Hr.
  rewrite (word_not_space c Hc). now destruct rest.
Qed.

Lemma trim_word (s : string) :
  all_units is_word_unit s = true -> Page.trim s = s.
Proof.
  intros Hu. unfold Page.trim.
  assert (Page.trimStart s = s) as ->.
  { destruct s as [|c rest]; [reflexivity|]. cbn in *.
    apply andb_true_iff in Hu. destruct Hu as [Hc _]. now rewrite (word_not_space c Hc). }
  now apply trimEnd_word.
Qed.

(** X4: on a field that [validateAndFormatInput] has formatted,
    [handleFormSubmit] shows the error 'Please enter a valid Twitter
    username' exactly when the field is empty; otherwise it calls
    [performAnalysis] on the value of the field as it stands ([trim] removes
    nothing), and logs and shows the second error only if that call
    throws. *)
Theorem handleFormSubmit_formatted (input : Page.Input) (analysis_fails : bool) :
  let username := Page.value (Page.validateAndFormatInput input) in
  Page.handleFormSubmit username analysis_fails =
    if String.eqb username "" then
      [Page.ShowError "Please enter a valid Twitter username"]
    else
      Page.PerformAnalysis username ::
        (if analysis_fails
         then [Page.ConsoleError "Analysis failed:";
               Page.ShowError "Oops! Something went wrong. Please try again."]
         else []).
Proof.
  intros username. subst username.
  destruct (formatted_units input) as [Hu _].
  pose proof (formatted_valid input) as Hv.
  unfold Page.handleFormSubmit. rewrite (trim_word _ Hu), Hv, negb_involutive.
  reflexivity.
Qed.

Lemma validateAndFormatInput_idempotent_witness :
  Page.value (Page.validateAndFormatInput
                {| Page.value := "alice"; Page.wrapper := ["input-wrapper"] |})
  = "alice".
Proof.
  apply (proj2 (validateAndFormatInput_idempotent
                  {| Page.value := "@alice"; Page.wrapper := [] |})).
  reflexivity.
Defined.

(** ** Sections and modals *)

Lemma visible_set (els : Page.Elements) (key : string) (tokens : list string) :
  Page.visible (Page.set_classes els key tokens) key
  = negb (Page.classList_contains tokens "hidden").
Proof. unfold Page.visible, Page.set_classes. cbn. now rewrite String.eqb_refl. Qed.

Lemma hidden_removed (tokens : list string) :
  Page.classList_contains (Page.classList_remove tokens "hidden") "hidden" = false.
Proof. rewrite contains_remove, String.eqb_refl. reflexivity. Qed.

Lemma hidden_added (tokens : list string) :
  Page.classList_contains (Page.classList_add tokens "hidden") "hidden" = true.
Proof. rewrite contains_add, String.eqb_refl. reflexivity. Qed.

Lemma other_token_add (tokens : list string) (token : string) :
  token <> "hidden" ->
  Page.classList_contains (Page.classList_add tokens "hidden") token
  = Page.classList_contains tokens token.
Proof.
  intros Hne. rewrite contains_add.
  destruct (String.eqb_spec token "hidden"); [contradiction | reflexivity].
Qed.

Lemma other_token_remove (tokens : list string) (token : string) :
  token <> "hidden" ->
  Page.classList_contains (Page.classList_remove tokens "hidden") token
  = Page.classList_contains tokens token.
Proof.
  intros Hne. rewrite contains_remove.
  destruct (String.eqb_spec token "hidden"); [contradiction | reflexivity].
Qed.

Lemma classes_set_same (els : Page.Elements) (key : string) (tokens : list string) :
  Page.classes (Page.set_classes els key tokens) key = Some tokens.
Proof. cbn. now rewrite String.eqb_refl. Qed.

Lemma classes_set_other (els : Page.Elements) (key key' : string) (tokens : list string) :
  key' <> key ->
  Page.classes (Page.set_classes els key tokens) key' = Page.classes els key'.
Proof. intros Hne. cbn. now destruct (String.eqb_spec key' key). Qed.

Lemma shown_or_hidden (tokens : list string) (shown : bool) (token : string) :
  let tokens' := if shown then Page.classList_remove tokens "hidden"
                 else Page.classList_add tokens "hidden" in
  Page.classList_contains tokens' "hidden" = negb shown
  /\ (token <> "hidden" ->
      Page.classList_contains tokens' token = Page.classList_contains tokens token).
Proof.
  destruct shown; cbn zeta.
  - split; [apply hidden_removed | apply other_token_remove].
  - split; [apply hidden_added | apply other_token_add].
Qed.

(** X5: [showSection(section)] throws when one of the elements
    [inputSection], [loadingSection], [resultsSection] is missing; otherwise
    it leaves each of the three without the class 'hidden' exactly when its
    name is [section] (so at most one is shown, and none for another name),
    and changes no other class, no other element, and neither the overflow
    of the body nor the focus. *)
Theorem showSection_one_visible (els : Page.Elements) (section : string) :
  ((exists name, In name ["input"; "loading"; "results"]
                 /\ Page.classes els (name ++ "Section")%string = None) ->
   Page.showSection els section = None)
  /\ ((forall name, In name ["input"; "loading"; "results"] ->
                    Page.classes els (name ++ "Section")%string <> None) ->
      exists els',
        Page.showSection els section = Some els'
        /\ (forall name, In name ["input"; "loading"; "results"] ->
              Page.visible els' (name ++ "Section")%string = String.eqb name section)
        /\ (forall name token tokens,
              In name ["input"; "loading"; "results"] -> token <> "hidden" ->
              Page.classes els (name ++ "Section")%string = Some tokens ->
              exists tokens',
                Page.classes els' (name ++ "Section")%string = Some tokens'
                /\ Page.classList_contains tokens' token
                   = Page.classList_contains tokens token)
        /\ (forall key,
              ~ In key ["inputSection"; "loadingSection"; "resultsSection"] ->
              Page.classes els' key = Page.classes els key)
        /\ Page.body_overflow els' = Page.body_overflow els
        /\ Page.focused els' = Page.focused els).
Proof.
  unfold Page.showSection. cbn [Page.showSection_forEach String.append].
  split.
  - intros (name & Hin & Hnone). cbn [In] in Hin.
    destruct (Page.classes els "inputSection") as [t1|] eqn:E1; [|reflexivity].
    rewrite classes_set_other by discriminate.
    destruct (Page.classes els "loadingSection") as [t2|] eqn:E2; [|reflexivity].
    rewrite !classes_set_other by discriminate.
    destruct (Page.classes els "resultsSection") as [t3|] eqn:E3; [|reflexivity].
    destruct Hin as [<- | [<- | [<- | []]]]; cbn [String.append] in Hnone; congruence.
  - intros Hall.
    pose proof (Hall "input" ltac:(cbn; auto)) as H1.
    pose proof (Hall "loading" ltac:(cbn; auto)) as H2.
    pose proof (Hall "results" ltac:(cbn; auto)) as H3.
    cbn [String.append] in H1, H2, H3.
    destruct (Page.classes els "inputSection") as [t1|] eqn:E1; [|congruence].
    rewrite classes_set_other by discriminate.
    destruct (Page.classes els "loadingSection") as [t2|] eqn:E2; [|congruence].
    rewrite !classes_set_other by discriminate.
    destruct (Page.classes els "resultsSection") as [t3|] eqn:E3; [|congruence].
    eexists. split; [reflexivity|].
    split; [|split; [|split; [|split; reflexivity]]].
    + intros name Hin. cbn [In] in Hin. unfold Page.visible.
      destruct Hin as [<- | [<- | [<- | []]]]; cbn [String.append];
        rewrite ?classes_set_same, ?(classes_set_other _ _ "inputSection"),
          ?(classes_set_other _ _ "loadingSection"), ?classes_set_same by discriminate;
        match goal with |- context [if ?b then _ else _] =>
          rewrite (proj1 (shown_or_hidden _ b "hidden")) end;
        apply negb_involutive.
    + intros name token tokens Hin Hne Etok. cbn [In] in Hin.
      destruct Hin as [<- | [<- | [<- | []]]]; cbn [String.append] in *;
        rewrite ?classes_set_same, ?(classes_set_other _ _ "inputSection"),
          ?(classes_set_other _ _ "loadingSection"), ?classes_set_same by discriminate;
        eexists; (split; [reflexivity|]);
        match goal with |- context [if ?b then _ else _] =>
          rewrite (proj2 (shown_or_hidden _ b token) Hne) end;
        congruence.
    + intros key Hkey. cbn [In] in Hkey.
      rewrite !classes_set_other; [reflexivity | | |]; intros ->; tauto.
Qed.

Lemma capitalize_cons (c : ascii) (rest : string) :
  Page.capitalize (String c rest) = String (upper_unit c) rest.
Proof. unfold Page.capitalize. rewrite slice_from_tail. reflexivity. Qed.

(** X6: [showModal] and [hideModal] throw when the modal is missing; when
    the modal and its close button exist, for a type of ASCII code units,
    [showModal(modalType)] shows the
    modal, sets the overflow of the body to 'hidden' and gives the focus to
    the element under the key 'close' followed by the capitalised type, and a
    following [hideModal(modalType)] hides the modal again and resets the
    overflow to the empty string; the classes of the other elements are
    untouched throughout. *)
Theorem modal_round_trip (els : Page.Elements) (modalType : string) :
  let modal := (modalType ++ "Modal")%string in
  let closeBtn := ("close" ++ Page.capitalize modalType)%string in
  (Page.classes els modal = None ->
   Page.showModal els modalType = None /\ Page.hideModal els modalType = None)
  /\ (all_units Page.is_ascii_unit modalType = true ->
      Page.classes els modal <> None -> Page.classes els closeBtn <> None ->
      exists shown closed,
        Page.showModal els modalType = Some shown
        /\ Page.visible shown modal = true
        /\ Page.body_overflow shown = "hidden"
        /\ Page.focused shown = Some closeBtn
        /\ Page.hideModal shown modalType = Some closed
        /\ Page.visible closed modal = false
        /\ Page.body_overflow closed = ""
        /\ (forall key, key <> modal ->
              Page.classes shown key = Page.classes els key
              /\ Page.classes closed key = Page.classes els key)).
Proof.
  intros modal closeBtn. split.
  - intros Hnone. unfold Page.showModal, Page.hideModal. fold modal. now rewrite Hnone.
  - intros _ Hmodal Hclose.
    unfold Page.showModal. fold modal closeBtn.
    destruct (Page.classes els modal) as [tokens|] eqn:Em; [|congruence].
    destruct (Page.classes (Page.set_classes els modal (Page.classList_remove tokens "hidden")) closeBtn)
      as [btn|] eqn:Eb.
    + eexists. eexists. split; [reflexivity|].
      unfold Page.hideModal. fold modal. cbn [Page.classes Page.set_classes].
      rewrite String.eqb_refl.
      split; [|split; [reflexivity|split; [reflexivity|split; [reflexivity|]]]].
      * unfold Page.visible. cbn [Page.classes]. rewrite String.eqb_refl, hidden_removed. reflexivity.
      * split; [|split; [reflexivity|]].
        -- unfold Page.visible. cbn [Page.classes]. rewrite String.eqb_refl, hidden_added. reflexivity.
        -- intros key Hkey. cbn [Page.classes].
           destruct (String.eqb_spec key modal); [contradiction|]. split; reflexivity.
    + exfalso. cbn [Page.classes Page.set_classes] in Eb.
      destruct (String.eqb closeBtn modal); congruence.
Qed.

Lemma modal_round_trip_witness :
  let els := {| Page.classes := fun key =>
                  if String.eqb key "aboutModal" then Some ["modal"; "hidden"]
                  else if String.eqb key "closeAbout" then Some ["close"]
                  else None;
                Page.body_overflow := "";
                Page.focused := None |} in
  exists shown closed,
    Page.showModal els "about" = Some shown
    /\ Page.visible shown "aboutModal" = true
    /\ Page.body_overflow shown = "hidden"
    /\ Page.focused shown = Some "closeAbout"
    /\ Page.hideModal shown "about" = Some closed
    /\ Page.visible closed "aboutModal" = false
    /\ Page.body_overflow closed = ""
    /\ (forall key, key <> "aboutModal" ->
          Page.classes shown key = Page.classes els key
          /\ Page.classes closed key = Page.classes els key).
Proof.
  intros els.
  apply (proj2 (modal_round_trip els "about")); [reflexivity | |]; cbn; discriminate.
Defined.

Lemma showSection_one_visible_witness :
  let els := {| Page.classes := fun key =>
                  if String.eqb key "inputSection" then Some ["section"]
                  else if String.eqb key "loadingSection" then Some ["section"; "hidden"]
                  else if String.eqb key "resultsSection" then Some ["section"; "hidden"]
                  else None;
                Page.body_overflow := "";
                Page.focused := None |} in
  exists els',
    Page.showSection els "loading" = Some els'
    /\ Page.visible els' "inputSection" = false
    /\ Page.visible els' "loadingSection" = true
    /\ Page.visible els' "resultsSection" = false.
Proof.
  intros els.
  destruct (proj2 (showSection_one_visible els "loading")) as (els' & E & Hv & _).
  - intros name Hin. cbn [In] in Hin.
    destruct Hin as [<- | [<- | [<- | []]]]; cbn; discriminate.
  - exists els'. split; [exact E|].
    split; [apply (Hv "input"); cbn; auto|].
    split; [apply (Hv "loading"); cbn; auto | apply (Hv "results"); cbn; auto].
Defined.

(** ** The description comes from the table *)


Lemma first_grid_category :
  forallb (grid_category Copy1.initial_humorousDescriptions) (Zrange 10 121) = true.
Proof. vm_compute. reflexivity. Qed.

Lemma second_grid_category :
  forallb (grid_category Copy2.initial_humorousDescriptions) (Zrange 30 71) = true.
Proof. vm_compute. reflexivity. Qed.

Lemma index_nth {A : Type} (arr : list A) (hash : Z) :
  0 <= hash -> length arr = 4%nat ->
  exists a, JS.index arr (Z.rem hash (Z.of_nat (length arr))) = Some a
            /\ nth_error arr (Z.to_nat (hash mod 4)) = Some a.
Proof.
  intros Hh Hl. rewrite Hl. change (Z.of_nat 4) with 4.
  rewrite Z.rem_mod_nonneg by lia.
  pose proof (Z.mod_pos_bound hash 4 ltac:(lia)) as Hm.
  unfold JS.index. destruct (Z.ltb_spec (hash mod 4) 0) as [|_]; [lia|].
  destruct (nth_error arr (Z.to_nat (hash mod 4))) as [a|] eqn:E.
  - exists a. split; reflexivity.
  - apply nth_error_None in E. lia.
Qed.

Lemma grid_description (table : list Category) (k hash : Z) :
  grid_category table k = true -> 0 <= hash ->
  exists category text,
    In category table
    /\ in_range (tenths k) category = true
    /\ nth_error (descriptions category) (Z.to_nat (hash mod 4)) = Some text
    /\ Copy1.scan_categories table (tenths k) hash = Some text
    /\ text <> fallback_description.
Proof.
  unfold grid_category. intros Hg Hh. rewrite scan_categories_find.
  destruct (find (in_range (tenths k)) table) as [category|] eqn:Hf; [|discriminate].
  apply andb_true_iff in Hg. destruct Hg as [Hl Hnf].
  apply Nat.eqb_eq in Hl. apply negb_true_iff in Hnf.
  destruct (index_nth (descriptions category) hash Hh Hl) as (text & Ei & En).
  apply find_some in Hf. destruct Hf as [Hin Hr].
  exists category, text. repeat split; try assumption.
  intros ->. apply nth_error_In in En.
  assert (existsb (String.eqb fallback_description) (descriptions category) = true); [|congruence].
  apply existsb_exists. exists fallback_description. split; [exact En | apply String.eqb_refl].
Qed.

Section Described.
Context {M : MathLib}.

(** X8: where the Box-Muller step is regular, the description that
    [generateResults] returns on the table of the constructor is
    [descriptions[hash % 4]] of a category of the table whose range holds the
    measurement, and it is never the fallback string; this holds for both
    copies of the class. *)
Theorem description_from_table (s : string) :
  let h := Copy1.hashUsername s in
  box_muller_regular (Z2F h) = true ->
  (exists category text,
     In category Copy1.initial_humorousDescriptions
     /\ in_range (Copy1.measurement h) category = true
     /\ nth_error (descriptions category) (Z.to_nat (h mod 4)) = Some text
     /\ Copy1.description (Copy1.generateResults Copy1.constructor s) = Some text
     /\ text <> fallback_description)
  /\ (exists category text,
        In category Copy2.initial_humorousDescriptions
        /\ in_range (Copy2.measurement h) category = true
        /\ nth_error (descriptions category) (Z.to_nat (h mod 4)) = Some text
        /\ Copy2.description (Copy2.generateResults Copy2.constructor s) = Some text
        /\ text <> fallback_description).
Proof.
  intros h Hreg. pose proof (hashUsername_range s) as Hh. fold h in Hh.
  split.
  - destruct (measurement_first h Hreg) as (k & Hk & Ek).
    pose proof first_grid_category as Hg. rewrite forallb_forall in Hg.
    specialize (Hg k (Zrange_In k 10 121 ltac:(lia))).
    destruct (grid_description _ k h Hg ltac:(lia)) as (c & t & H1 & H2 & H3 & H4 & H5).
    exists c, t. rewrite Ek. repeat split; try assumption.
    unfold Copy1.generateResults, Copy1.getDescriptionForSize. cbn [Copy1.description].
    fold h. rewrite Ek. exact H4.
  - destruct (measurement_second h Hreg) as (k & Hk & Ek).
    pose proof second_grid_category as Hg. rewrite forallb_forall in Hg.
    specialize (Hg k (Zrange_In k 30 71 ltac:(lia))).
    destruct (grid_description _ k h Hg ltac:(lia)) as (c & t & H1 & H2 & H3 & H4 & H5).
    exists c, t. rewrite Ek. repeat split; try assumption.
    unfold Copy2.generateResults, Copy2.getDescriptionForSize. cbn [Copy2.description].
    rewrite hashUsername_second. fold h. rewrite Ek. exact H4.
Qed.

End Described.

Lemma description_from_table_witness :
  exists category text,
    In category Copy1.initial_humorousDescriptions
    /\ in_range (Copy1.measurement (M := RefMath.lib) 92903040) category = true
    /\ nth_error (descriptions category) (Z.to_nat (92903040 mod 4)) = Some text
    /\ Copy1.description (Copy1.generateResults (M := RefMath.lib) Copy1.constructor "alice")
       = Some text
    /\ text <> fallback_description.
Proof.
  exact (proj1 (description_from_table (M := RefMath.lib) "alice"
                  ltac:(vm_compute; reflexivity))).
Defined.

(** ** A measurement that is not a number *)

Lemma leb_nan_r (x y : float) : is_nan y = true -> (x <=? y)%float = false.
Proof.
  rewrite is_nan_spec, FloatAxioms.leb_spec. unfold SFleb.
  destruct (Prim2SF y); try discriminate. intros _.
  now destruct (Prim2SF x) as [? | [|] | | [|] ? ?].
Qed.

Lemma leb_nan_l (x y : float) : is_nan x = true -> (x <=? y)%float = false.
Proof.
  rewrite is_nan_spec, FloatAxioms.leb_spec. unfold SFleb.
  destruct (Prim2SF x); try discriminate. reflexivity.
Qed.

Lemma nan_sub (x y : float) : is_nan x = true -> is_nan (x - y) = true.
Proof.
  rewrite !is_nan_spec, sub_spec. destruct (Prim2SF x); try discriminate. reflexivity.
Qed.

Lemma nan_div (x y : float) : is_nan x = true -> is_nan (x / y) = true.
Proof.
  rewrite !is_nan_spec, div_spec. destruct (Prim2SF x); try discriminate. reflexivity.
Qed.

Lemma nan_mul (x y : float) : is_nan x = true -> is_nan (x * y) = true.
Proof.
  rewrite !is_nan_spec, mul_spec. destruct (Prim2SF x); try discriminate. reflexivity.
Qed.

Lemma nan_add_r (x y : float) : is_nan y = true -> is_nan (x + y) = true.
Proof.
  rewrite !is_nan_spec, add_spec. destruct (Prim2SF y); try discriminate. intros _.
  now destruct (Prim2SF x) as [? | [|] | | [|] ? ?].
Qed.

Lemma nan_round (x : float) : is_nan x = true -> Math_round x = x.
Proof.
  rewrite is_nan_spec. unfold Math_round. destruct (Prim2SF x); try discriminate. reflexivity.
Qed.

Lemma nan_min_r (a x : float) : is_nan x = true -> is_nan (Math_min a x) = true.
Proof. intros H. unfold Math_min. rewrite H, orb_true_r. reflexivity. Qed.

Lemma nan_max_r (a x : float) : is_nan x = true -> is_nan (Math_max a x) = true.
Proof. intros H. unfold Math_max. rewrite H, orb_true_r. reflexivity. Qed.

Lemma scan_nan (table : list Category) (size : float) (hash : Z) :
  is_nan size = true -> Copy1.scan_categories table size hash = Some fallback_description.
Proof.
  intros Hn. induction table as [|category rest IH]; cbn [Copy1.scan_categories].
  - reflexivity.
  - unfold in_range. rewrite (leb_nan_r _ size Hn). exact IH.
Qed.

(** X9: a measurement that is NaN matches no category of any table, so
    [getDescriptionForSize] returns the fallback string, in both copies;
    [calculatePercentile] returns NaN on it, and rounding it to one decimal
    gives NaN again. *)
Theorem nan_measurement (size : float) :
  is_nan size = true ->
  (forall this hash,
     Copy1.getDescriptionForSize this size hash = Some fallback_description)
  /\ (forall this hash,
        Copy2.getDescriptionForSize this size hash = Some fallback_description)
  /\ is_nan (Copy1.calculatePercentile size) = true
  /\ is_nan (round1 size) = true.
Proof.
  intros Hn. split; [|split; [|split]].
  - intros this hash. apply scan_nan, Hn.
  - intros this hash. apply (scan_nan (Copy2.humorousDescriptions this)), Hn.
  - unfold Copy1.calculatePercentile.
    assert (is_nan ((size - 6.5) / 2) = true) as Hz by apply nan_div, nan_sub, Hn.
    rewrite (leb_nan_l _ _ Hz), (leb_nan_r _ _ Hz).
    apply nan_max_r, nan_min_r.
    assert (is_nan (50 + (size - 6.5) / 2 * 16.67) = true) as Hs
      by apply nan_add_r, nan_mul, Hz.
    now rewrite (nan_round _ Hs).
  - unfold round1. apply nan_div.
    assert (is_nan (size * 10) = true) as Hs by apply nan_mul, Hn.
    now rewrite (nan_round _ Hs).
Qed.

Lemma nan_measurement_witness :
  Copy1.getDescriptionForSize Copy1.constructor nan 7 = Some fallback_description
  /\ is_nan (Copy1.calculatePercentile nan) = true.
Proof.
  pose proof (nan_measurement nan eq_refl) as (H1 & _ & H3 & _).
  split; [apply H1 | exact H3].
Defined.

(** ** Percentile and metric size on the grid of measurements *)

(** two doubles that compare equal, the first positive, are the same double *)
Lemma eqb_same (x y : float) :
  (x =? y)%float = true -> (0 <? x)%float = true -> x = y.
Proof.
  rewrite FloatAxioms.eqb_spec, FloatAxioms.ltb_spec. unfold SFeqb, SFltb.
  change (Prim2SF 0) with (S754_zero false). intros He Hp.
  apply Prim2SF_inj.
  destruct (Prim2SF x) as [sx | sx | | sx mx ex]; try discriminate;
    destruct (Prim2SF y) as [sy | sy | | sy my ey]; try discriminate;
    destruct sx; try discriminate; destruct sy; try discriminate; try reflexivity.
  cbn [SFcompare] in He.
  destruct (Z.compare_spec ex ey) as [-> | |]; try discriminate.
  destruct (Pos.compare_cont Eq mx my) eqn:Ec; try discriminate.
  apply Pos.compare_eq in Ec. now subst.
Qed.

Lemma same_positive_eq (x y : float) : same_positive x y = true -> x = y.
Proof.
  unfold same_positive. intros [He Hp]%andb_true_iff. now apply eqb_same.
Qed.

Lemma grid_same (f g : Z -> float) (lo : Z) (n : nat) (k : Z) :
  forallb (fun k => same_positive (f k) (g k)) (Zrange lo n) = true ->
  lo <= k < lo + Z.of_nat n -> f k = g k.
Proof.
  intros H Hk. rewrite forallb_forall in H.
  apply same_positive_eq, H, Zrange_In, Hk.
Qed.

Lemma percentile_grid :
  forallb (fun k => same_positive (Copy1.calculatePercentile (tenths k))
                      (Z2F (percentile_exact k)))
    (Zrange 10 121) = true.
Proof. vm_compute. reflexivity. Qed.

Lemma metric_grid :
  forallb (fun k => same_positive (round1 (tenths k * 2.54)) (tenths (metric_exact k)))
    (Zrange 10 121) = true.
Proof. vm_compute. reflexivity. Qed.

Lemma round1_grid :
  forallb (fun k => same_positive (round1 (tenths k)) (tenths k)) (Zrange 10 321) = true.
Proof. vm_compute. reflexivity. Qed.


Lemma percentile_exact_mono (k k' : Z) :
  k <= k' -> percentile_exact k <= percentile_exact k'.
Proof.
  intros Hk. unfold percentile_exact.
  apply Z.min_le_compat_l. apply Z.div_le_mono; lia.
Qed.

Lemma percentile_exact_range (k : Z) :
  10 <= k <= 130 -> 4 <= percentile_exact k <= 99.
Proof.
  intros Hk. split.
  - change 4 with (percentile_exact 10). apply percentile_exact_mono. lia.
  - unfold percentile_exact. apply Z.le_min_l.
Qed.

Lemma metric_exact_range (k : Z) :
  10 <= k <= 130 -> 25 <= metric_exact k <= 330.
Proof.
  intros Hk. unfold metric_exact. split.
  - apply Z.div_le_lower_bound; lia.
  - assert ((254 * k + 50) / 100 < 331); [|lia].
    apply Z.div_lt_upper_bound; lia.
Qed.

Section OnTheGrid.
Context {M : MathLib}.

(** X10: where the Box-Muller step is regular, the percentile of
    [generateResults] is the integer that exact arithmetic gives for the
    measurement of [k] tenths, [50 + (k / 10 - 6.5) / 2 * 16.67] rounded half
    up and capped at 99, and it lies between 4 and 99 (the branch that
    returns 1 is never reached); on the measurements from 1.0 to 13.0 the
    percentile does not decrease when the measurement grows. *)
Theorem percentile_of_results (this : Copy1.DickSizeChecker) (s : string) :
  box_muller_regular (Z2F (Copy1.hashUsername s)) = true ->
  let r := Copy1.generateResults this s in
  (exists k, 10 <= k <= 130
     /\ Copy1.originalSize r = tenths k
     /\ Copy1.percentile r = Z2F (percentile_exact k)
     /\ 4 <= percentile_exact k <= 99)
  /\ (forall k k', 10 <= k <= k' -> k' <= 130 ->
        Copy1.calculatePercentile (tenths k) = Z2F (percentile_exact k)
        /\ Copy1.calculatePercentile (tenths k') = Z2F (percentile_exact k')
        /\ percentile_exact k <= percentile_exact k').
Proof.
  intros Hreg r. split.
  - destruct (measurement_first _ Hreg) as (k & Hk & Ek).
    exists k. split; [exact Hk|]. subst r. unfold Copy1.generateResults.
    cbn [Copy1.originalSize Copy1.percentile]. rewrite Ek.
    split; [reflexivity|]. split; [|apply percentile_exact_range, Hk].
    apply (grid_same (fun k => Copy1.calculatePercentile (tenths k))
             (fun k => Z2F (percentile_exact k)) 10 121 k percentile_grid). lia.
  - intros k k' Hk Hk'. split; [|split].
    + apply (grid_same (fun k => Copy1.calculatePercentile (tenths k))
               (fun k => Z2F (percentile_exact k)) 10 121 k percentile_grid). lia.
    + apply (grid_same (fun k => Copy1.calculatePercentile (tenths k))
               (fun k => Z2F (percentile_exact k)) 10 121 k' percentile_grid). lia.
    + apply percentile_exact_mono. lia.
Qed.

(** X11: where the Box-Muller step is regular, the size that
    [generateResults] displays is a number of tenths: the measurement itself
    in inches, and in centimetres the measurement times 2.54 rounded half up
    to one decimal, between 2.5 and 33.0; rounding the displayed size to one
    decimal again changes nothing. *)
Theorem size_of_results (this : Copy1.DickSizeChecker) (s : string) :
  let h := Copy1.hashUsername s in
  box_muller_regular (Z2F h) = true ->
  let r := Copy1.generateResults this s in
  exists k, 10 <= k <= 130
    /\ Copy1.originalSize r = tenths k
    /\ Copy1.size r = tenths (if h mod 10 =? 0 then metric_exact k else k)
    /\ (h mod 10 = 0 -> 25 <= metric_exact k <= 330)
    /\ round1 (Copy1.size r) = Copy1.size r.
Proof.
  intros h Hreg r.
  destruct (measurement_first h Hreg) as (k & Hk & Ek).
  pose proof (hashUsername_range s) as Hh. fold h in Hh.
  pose proof (metric_exact_range k Hk) as Hm.
  exists k. split; [exact Hk|]. subst r. unfold Copy1.generateResults. fold h.
  cbn [Copy1.originalSize Copy1.size]. rewrite Ek.
  rewrite Z.rem_mod_nonneg by lia.
  assert (round1 (tenths k * 2.54) = tenths (metric_exact k)) as Em.
  { apply (grid_same (fun k => round1 (tenths k * 2.54))
             (fun k => tenths (metric_exact k)) 10 121 k metric_grid). lia. }
  fold (round1 (tenths k * 2.54)). rewrite Em.
  split; [reflexivity|]. split; [now destruct (h mod 10 =? 0)|].
  split; [intros _; exact Hm|].
  destruct (h mod 10 =? 0).
  - apply (grid_same (fun k => round1 (tenths k)) tenths 10 321 _ round1_grid). lia.
  - apply (grid_same (fun k => round1 (tenths k)) tenths 10 321 _ round1_grid). lia.
Qed.

End OnTheGrid.

Lemma percentile_of_results_witness :
  exists k, 10 <= k <= 130
    /\ Copy1.originalSize (Copy1.generateResults (M := RefMath.lib) Copy1.constructor "alice")
       = tenths k
    /\ Copy1.percentile (Copy1.generateResults (M := RefMath.lib) Copy1.constructor "alice")
       = Z2F (percentile_exact k)
    /\ 4 <= percentile_exact k <= 99.
Proof.
  exact (proj1 (percentile_of_results (M := RefMath.lib) Copy1.constructor "alice"
                  ltac:(vm_compute; reflexivity))).
Defined.

Lemma size_of_results_witness :
  exists k, 10 <= k <= 130
    /\ Copy1.originalSize (Copy1.generateResults (M := RefMath.lib) Copy1.constructor "alice")
       = tenths k
    /\ Copy1.size (Copy1.generateResults (M := RefMath.lib) Copy1.constructor "alice")
       = tenths (if 92903040 mod 10 =? 0 then metric_exact k else k)
    /\ (92903040 mod 10 = 0 -> 25 <= metric_exact k <= 330)
    /\ round1 (Copy1.size (Copy1.generateResults (M := RefMath.lib) Copy1.constructor "alice"))
       = Copy1.size (Copy1.generateResults (M := RefMath.lib) Copy1.constructor "alice").
Proof.
  exact (size_of_results (M := RefMath.lib) Copy1.constructor "alice"
           ltac:(vm_compute; reflexivity)).
Defined.

(** ** The uniform samples *)

(** the shape of an integer between 1 and 2^53 as a double *)
Lemma Z2F_shape (k : Z) :
  0 < k < 2 ^ 53 ->
  exists m e, Prim2SF (Z2F k) = S754_finite false m e
              /\ -52 <= e <= 0 /\ Zpos m * 2 ^ (e + 52) = k * 2 ^ 52.
Proof.
  intros Hk. destruct (Z2F_ival k ltac:(lia)) as [F E].
  pose proof ONE_pos as HU.
  destruct (finite_cases (Z2F k) F) as [(s & _ & Ei) | (s & m & e & Ep & He & Hm & Hn & Ei)].
  - rewrite Ei in E. nia.
  - rewrite Ei in E.
    pose proof (pow2_pos (e + 1074) ltac:(lia)) as Hp.
    destruct s; cbn [cond_Zopp] in E; [nia|].
    exists m, e. split; [exact Ep|].
    assert (e <= 0) as Hle.
    { destruct (Z.le_gt_cases e 0) as [|Hgt]; [assumption|]. exfalso.
      specialize (Hn ltac:(lia)).
      assert (2 ^ 1075 <= 2 ^ (e + 1074)) by (apply pow2_le; lia).
      assert (2 ^ 52 * 2 ^ 1075 <= Zpos m * 2 ^ (e + 1074)) by (apply Z.mul_le_mono_nonneg; lia).
      assert (k * ONE < 2 ^ 53 * ONE) by (apply Z.mul_lt_mono_pos_r; lia).
      unfold ONE in *. change (2 ^ 1075) with (2 * 2 ^ 1074) in *. lia. }
    assert (-52 <= e) as Hge.
    { destruct (Z.le_gt_cases (-52) e) as [|Hlt]; [assumption|]. exfalso.
      assert (2 ^ (e + 1074) <= 2 ^ 1021) by (apply pow2_le; lia).
      assert (Zpos m * 2 ^ (e + 1074) <= 2 ^ 53 * 2 ^ 1021) by (apply Z.mul_le_mono_nonneg; lia).
      assert (1 * ONE <= k * ONE) by (apply Z.mul_le_mono_nonneg_r; lia).
      change (2 ^ 53 * 2 ^ 1021) with ONE in *.
      assert (Zpos m * 2 ^ (e + 1074) < 2 ^ 53 * 2 ^ (e + 1074)) by (apply Z.mul_lt_mono_pos_r; lia).
      assert (2 ^ 53 * 2 ^ (e + 1074) <= 2 ^ 53 * 2 ^ 1021) by (apply Z.mul_le_mono_nonneg_l; lia).
      change (2 ^ 53 * 2 ^ 1021) with ONE in *. lia. }
    split; [lia|].
    replace (e + 1074) with ((e + 52) + 1022) in E by lia.
    rewrite (pow2_split (e + 52) 1022) in E by lia.
    unfold ONE in E. change (2 ^ 1074) with (2 ^ 52 * 2 ^ 1022) in E.
    apply (Z.mul_reg_r _ _ (2 ^ 1022)); [discriminate|].
    rewrite <- !Z.mul_assoc. exact E.
Qed.

Lemma Number_rem_Z2F (k : Z) :
  0 <= k < 2 ^ 53 -> Number_rem (Z2F k) 1000 = Z2F (k mod 1000).
Proof.
  intros Hk. destruct (Z.eq_dec k 0) as [-> | Hk0]; [reflexivity|].
  destruct (Z2F_shape k ltac:(lia)) as (m & e & Ep & He & Em).
  unfold Number_rem. rewrite Ep.
  change (Prim2SF 1000) with (S754_finite false 8796093022208000 (-43)).
  cbv beta iota zeta.
  set (e0 := Z.min e (-43)).
  pose proof (Z.mod_pos_bound k 1000 ltac:(lia)) as Hj.
  set (t := - e0).
  pose proof (pow2_pos t ltac:(lia)) as Ht.
  assert (Zpos m * 2 ^ (e - e0) = k * 2 ^ t) as E1.
  { apply (Z.mul_reg_r _ _ (2 ^ (52 - t))); [pose proof (pow2_pos (52 - t) ltac:(lia)); lia|].
    rewrite <- !Z.mul_assoc, <- !pow2_split by lia.
    replace (e - e0 + (52 - t)) with (e + 52) by lia.
    replace (t + (52 - t)) with 52 by lia. exact Em. }
  assert (8796093022208000 * 2 ^ (-43 - e0) = 1000 * 2 ^ t) as E2.
  { change 8796093022208000 with (1000 * 2 ^ 43).
    rewrite <- Z.mul_assoc, <- pow2_split by lia. f_equal. f_equal. lia. }
  rewrite E1, E2.
  rewrite Z.rem_mod_nonneg by lia.
  rewrite Z.mul_mod_distr_r by lia.
  destruct (Z.eqb_spec (k mod 1000 * 2 ^ t) 0) as [E0 | Hne].
  - assert (k mod 1000 = 0) as -> by nia. reflexivity.
  - cbn [cond_Zopp].
    destruct (Z2F_ival (k mod 1000) ltac:(lia)) as [Fj Ej].
    destruct (normalize_bounds (k mod 1000 * 2 ^ t) e0 (Prim2SF (Z2F (k mod 1000)))
                (Prim2SF (Z2F (k mod 1000))) ltac:(lia)
                (finite_valid _) (finite_valid _) Fj Fj) as (V & F & Hb).
    { fold (ival (Z2F (k mod 1000))). rewrite Ej.
      assert (ONE = 2 ^ t * 2 ^ (e0 + 1074)) as ->; [|lia].
      unfold ONE. rewrite <- pow2_split by lia. f_equal. lia. }
    fold (ival (Z2F (k mod 1000))) in Hb. cbn zeta in V, F, Hb.
    set (r := binary_normalize prec emax (k mod 1000 * 2 ^ t) e0 false) in *.
    pose proof ONE_pos.
    apply ival_inj; unfold finite, ival; rewrite ?Prim2SF_SF2Prim by exact V.
    + exact F.
    + exact Fj.
    + fold (ival (Z2F (k mod 1000))). lia.
    + fold (ival (Z2F (k mod 1000))) in Hb. nia.
Qed.


Lemma uniform_grid :
  forallb (fun j => (0 <=? Z2F j / 1000)%float && (Z2F j / 1000 <? 1)%float
                    && Bool.eqb (Z2F j / 1000 =? 0)%float (j =? 0))
    (Zrange 0 1000) = true.
Proof. vm_compute. reflexivity. Qed.

Section Uniform.
Context {M : MathLib}.

Lemma seededRandom_integer (seed : float) :
  sin_regular seed = true ->
  exists k, 0 <= k <= 999999 /\ Copy1.seededRandom seed = Z2F k.
Proof.
  intros Hreg.
  destruct (sin_scaled seed Hreg) as [Fx Hx]. cbn zeta in Fx, Hx.
  destruct (frac_range _ Fx Hx) as (Ff & Hf & Hs).
  apply (scale_million _ Ff Hf Hs).
Qed.

(** X12: where the sine is regular at [seed], the uniform sample that
    [normalDistribution] draws, [seededRandom(seed) % 1000 / 1000], is
    [j / 1000] for the integer [j] of the last three digits of
    [seededRandom(seed)]; it lies in [0, 1), and it is zero, the case in
    which the logarithm is taken of 0, exactly when [seededRandom(seed)] is a
    multiple of 1000. *)
Theorem uniform_samples (seed : float) :
  sin_regular seed = true ->
  exists k j,
    0 <= k <= 999999 /\ j = k mod 1000
    /\ Copy1.seededRandom seed = Z2F k
    /\ uniform seed = (Z2F j / 1000)%float
    /\ (0 <=? uniform seed)%float = true
    /\ (uniform seed <? 1)%float = true
    /\ (uniform seed =? 0)%float = (j =? 0).
Proof.
  intros Hreg. destruct (seededRandom_integer seed Hreg) as (k & Hk & Ek).
  exists k, (k mod 1000). split; [exact Hk|]. split; [reflexivity|]. split; [exact Ek|].
  assert (uniform seed = (Z2F (k mod 1000) / 1000)%float) as Eu.
  { unfold uniform. rewrite Ek, Number_rem_Z2F; [reflexivity|].
    assert (999999 < 2 ^ 53) by reflexivity. lia. }
  split; [exact Eu|]. rewrite Eu.
  pose proof (Z.mod_pos_bound k 1000 ltac:(lia)) as Hj.
  pose proof uniform_grid as Hg. rewrite forallb_forall in Hg.
  assert (0 <= k mod 1000 < 0 + Z.of_nat 1000) as Hin
    by (change (Z.of_nat 1000) with 1000; lia).
  specialize (Hg (k mod 1000) (Zrange_In _ 0 1000 Hin)).
  apply andb_true_iff in Hg. destruct Hg as [[H0 H1]%andb_true_iff He].
  apply Bool.eqb_prop in He. auto.
Qed.

End Uniform.

Lemma uniform_samples_witness :
  exists k j,
    0 <= k <= 999999 /\ j = k mod 1000
    /\ Copy1.seededRandom (M := RefMath.lib) (Z2F 92903040) = Z2F k
    /\ uniform (M := RefMath.lib) (Z2F 92903040) = (Z2F j / 1000)%float
    /\ (0 <=? uniform (M := RefMath.lib) (Z2F 92903040))%float = true
    /\ (uniform (M := RefMath.lib) (Z2F 92903040) <? 1)%float = true
    /\ (uniform (M := RefMath.lib) (Z2F 92903040) =? 0)%float = (j =? 0).
Proof.
  exact (uniform_samples (M := RefMath.lib) (Z2F 92903040) ltac:(vm_compute; reflexivity)).
Defined.

(** ** Clamping *)

(** the value of [Math.max(lo, Math.min(hi, x))] *)
Lemma clamp_ival (lo hi x : float) :
  finite lo = true -> finite hi = true -> ival lo <= ival hi ->
  is_nan x = false ->
  let r := Math_max lo (Math_min hi x) in
  finite r = true
  /\ ((finite x = true /\ ival r = Z.max (ival lo) (Z.min (ival hi) (ival x)))
      \/ (Prim2SF x = S754_infinity false /\ ival r = ival hi)
      \/ (Prim2SF x = S754_infinity true /\ ival r = ival lo)).
Proof.
  intros Flo Fhi Hle Nx r. subst r.
  destruct (not_nan_cases x Nx) as [Fx | [E | E]].
  - destruct (Math_min_ival hi x Fhi Fx) as [Fm Em].
    destruct (Math_max_ival lo _ Flo Fm) as [Fr Er].
    split; [exact Fr|]. left. split; [exact Fx|]. now rewrite Er, Em.
  - destruct (ltb_inf hi x false Fhi E) as [L1 L2].
    assert (Math_min hi x = hi) as ->.
    { unfold Math_min. rewrite (finite_not_nan hi Fhi), Nx, L1. reflexivity. }
    destruct (Math_max_ival lo hi Flo Fhi) as [Fr Er].
    split; [exact Fr|]. right. left. split; [exact E | lia].
  - destruct (ltb_inf hi x true Fhi E) as [L1 L2].
    assert (Math_min hi x = x) as ->.
    { unfold Math_min. rewrite (finite_not_nan hi Fhi), Nx, L1, L2. reflexivity. }
    destruct (ltb_inf lo x true Flo E) as [L3 L4].
    assert (Math_max lo x = lo) as ->.
    { unfold Math_max. rewrite (finite_not_nan lo Flo), Nx, L3, L4. reflexivity. }
    split; [exact Flo|]. right. right. split; [exact E | reflexivity].
Qed.

(** with the bounds the wrong way round the lower bound wins *)
Lemma clamp_inverted (lo hi x : float) :
  finite lo = true -> finite hi = true -> ival hi < ival lo ->
  is_nan x = false -> Math_max lo (Math_min hi x) = lo.
Proof.
  intros Flo Fhi Hlt Nx.
  assert (forall m, finite m = true -> ival m <= ival hi -> Math_max lo m = lo) as Hmax.
  { intros m Fm Hm. unfold Math_max.
    rewrite (finite_not_nan lo Flo), (finite_not_nan m Fm). cbn [orb].
    rewrite (ltb_ival lo m Flo Fm), (ltb_ival m lo Fm Flo).
    destruct (Z.ltb_spec (ival lo) (ival m)); [lia|].
    destruct (Z.ltb_spec (ival m) (ival lo)); [reflexivity | lia]. }
  destruct (not_nan_cases x Nx) as [Fx | [E | E]].
  - destruct (Math_min_ival hi x Fhi Fx) as [Fm Em]. apply Hmax; [exact Fm | lia].
  - destruct (ltb_inf hi x false Fhi E) as [L1 L2].
    assert (Math_min hi x = hi) as ->.
    { unfold Math_min. rewrite (finite_not_nan hi Fhi), Nx, L1. reflexivity. }
    apply Hmax; [exact Fhi | lia].
  - destruct (ltb_inf hi x true Fhi E) as [L1 L2].
    assert (Math_min hi x = x) as ->.
    { unfold Math_min. rewrite (finite_not_nan hi Fhi), Nx, L1, L2. reflexivity. }
    destruct (ltb_inf lo x true Flo E) as [L3 L4].
    unfold Math_max. rewrite (finite_not_nan lo Flo), Nx, L3, L4. reflexivity.
Qed.

(** clamping to an interval inside the first one *)
Lemma clamp_nest (lo1 hi1 lo2 hi2 x : float) :
  finite lo1 = true -> finite hi1 = true -> finite lo2 = true -> finite hi2 = true ->
  0 < ival lo2 -> ival lo1 <= ival lo2 -> ival lo2 <= ival hi2 -> ival hi2 <= ival hi1 ->
  is_nan x = false ->
  Math_max lo2 (Math_min hi2 (Math_max lo1 (Math_min hi1 x)))
  = Math_max lo2 (Math_min hi2 x).
Proof.
  intros F1 F2 F3 F4 Hpos H12 H23 H34 Nx.
  destruct (clamp_ival lo1 hi1 x F1 F2 ltac:(lia) Nx) as [Fv Hv]. cbn zeta in Fv, Hv.
  set (v := Math_max lo1 (Math_min hi1 x)) in *.
  destruct (clamp_ival lo2 hi2 v F3 F4 H23 (finite_not_nan v Fv)) as [Fa Ha]. cbn zeta in Fa, Ha.
  destruct (clamp_ival lo2 hi2 x F3 F4 H23 Nx) as [Fb Hb]. cbn zeta in Fb, Hb.
  destruct Ha as [[_ Ea] | [[Ea _] | [Ea _]]];
    try (unfold finite in Fv; rewrite Ea in Fv; discriminate).
  apply ival_inj; [exact Fa | exact Fb | | lia].
  destruct Hv as [[Fx Ev] | [[Ex Ev] | [Ex Ev]]];
    destruct Hb as [[Fx' Eb] | [[Ex' Eb] | [Ex' Eb]]];
    try (unfold finite in Fx; rewrite Ex' in Fx; discriminate);
    try (unfold finite in Fx'; rewrite Ex in Fx'; discriminate);
    try congruence; lia.
Qed.

(** a value inside the interval is left alone *)
Lemma clamp_id (lo hi v : float) :
  finite lo = true -> finite hi = true -> finite v = true ->
  0 < ival lo -> ival lo <= ival v <= ival hi ->
  Math_max lo (Math_min hi v) = v.
Proof.
  intros Flo Fhi Fv Hpos Hv.
  destruct (clamp_ival lo hi v Flo Fhi ltac:(lia) (finite_not_nan v Fv)) as [Fr Hr].
  cbn zeta in Fr, Hr.
  destruct Hr as [[_ Er] | [[E _] | [E _]]];
    try (unfold finite in Fv; rewrite E in Fv; discriminate).
  apply ival_inj; [exact Fr | exact Fv | lia | lia].
Qed.

(** rounding to one decimal commutes with the narrower clamp *)
Lemma round1_narrow (v : float) :
  finite v = true -> 1 * ONE <= ival v <= 13 * ONE ->
  exists k, 10 <= k <= 130
    /\ round1 v = tenths k
    /\ round1 (Math_max 3 (Math_min 10 v)) = tenths (Z.max 30 (Z.min 100 k)).
Proof.
  intros Fv Hv. pose proof ONE_pos as HU.
  assert (holds 1 1) as H1 by lit. assert (holds 3 3) as H3 by lit.
  assert (holds 10 10) as H10 by lit. assert (holds 13 13) as H13 by lit.
  pose proof (finite_not_nan v Fv) as Nv.
  destruct (Z.lt_ge_cases (ival v) (3 * ONE)) as [Hlo | Hge3].
  - destruct (round_clamped 1 3 v 1 3 H1 H3 ltac:(lia) ltac:(lia) Nv) as (k & Hk & Ek).
    rewrite (clamp_id 1 3 v (proj1 H1) (proj1 H3) Fv) in Ek
      by (rewrite ?(proj2 H1), ?(proj2 H3); lia).
    exists k. split; [lia|]. split; [unfold round1, tenths; now rewrite Ek|].
    assert (Math_max 3 (Math_min 10 v) = 3%float) as ->.
    { destruct (clamp_ival 3 10 v (proj1 H3) (proj1 H10)
                  ltac:(rewrite (proj2 H3), (proj2 H10); lia) Nv) as [Fr Hr].
      cbn zeta in Fr, Hr.
      destruct Hr as [[_ Er] | [[E _] | [E _]]];
        try (unfold finite in Fv; rewrite E in Fv; discriminate).
      rewrite (proj2 H3), (proj2 H10) in Er.
      apply ival_inj; [exact Fr | reflexivity | rewrite (proj2 H3); lia | lia]. }
    replace (Z.max 30 (Z.min 100 k)) with 30 by lia. reflexivity.
  - destruct (Z.le_gt_cases (ival v) (10 * ONE)) as [Hle10 | Hhi].
    + destruct (round_clamped 3 10 v 3 10 H3 H10 ltac:(lia) ltac:(lia) Nv) as (k & Hk & Ek).
      rewrite (clamp_id 3 10 v (proj1 H3) (proj1 H10) Fv)
        by (rewrite ?(proj2 H3), ?(proj2 H10); lia).
      rewrite (clamp_id 3 10 v (proj1 H3) (proj1 H10) Fv) in Ek
        by (rewrite ?(proj2 H3), ?(proj2 H10); lia).
      exists k. split; [lia|].
      replace (Z.max 30 (Z.min 100 k)) with k by lia.
      split; unfold round1, tenths; now rewrite Ek.
    + destruct (round_clamped 10 13 v 10 13 H10 H13 ltac:(lia) ltac:(lia) Nv) as (k & Hk & Ek).
      rewrite (clamp_id 10 13 v (proj1 H10) (proj1 H13) Fv) in Ek
        by (rewrite ?(proj2 H10), ?(proj2 H13); lia).
      exists k. split; [lia|]. split; [unfold round1, tenths; now rewrite Ek|].
      assert (Math_max 3 (Math_min 10 v) = 10%float) as ->.
      { destruct (clamp_ival 3 10 v (proj1 H3) (proj1 H10)
                    ltac:(rewrite (proj2 H3), (proj2 H10); lia) Nv) as [Fr Hr].
        cbn zeta in Fr, Hr.
        destruct Hr as [[_ Er] | [[E _] | [E _]]];
          try (unfold finite in Fv; rewrite E in Fv; discriminate).
        rewrite (proj2 H3), (proj2 H10) in Er.
        apply ival_inj; [exact Fr | reflexivity | rewrite (proj2 H10); lia | lia]. }
      replace (Z.max 30 (Z.min 100 k)) with 100 by lia. reflexivity.
Qed.

Section Clamped.
Context {M : MathLib}.

(** X13: where the Box-Muller step is regular at [seed], for all finite
    [min], [max] and [mean], [normalDistribution(seed, min, max, mean)] lies
    between [min] and [max] when [min <= max], and is [min] when
    [max < min]; both copies of the class compute the same value. *)
Theorem normalDistribution_clamped (seed min max mean : float) :
  box_muller_regular seed = true ->
  finite mean = true -> finite min = true -> finite max = true ->
  let r := Copy1.normalDistribution seed min max mean in
  Copy2.normalDistribution seed min max mean = r
  /\ ((min <=? max)%float = true ->
      (min <=? r)%float = true /\ (r <=? max)%float = true)
  /\ ((max <? min)%float = true -> r = min).
Proof.
  intros Hreg Fmean Fmin Fmax r. subst r.
  pose proof (scaled_not_nan seed mean Hreg Fmean) as Ns.
  unfold Copy1.normalDistribution. fold (uniform seed) (uniform (seed + 1)).
  split; [reflexivity|]. split.
  - rewrite (leb_ival min max Fmin Fmax). intros Hle%Z.leb_le.
    destruct (clamp_range min max _ Fmin Fmax Hle Ns) as [Fr Hr]. cbn zeta in Fr, Hr.
    rewrite (leb_ival _ _ Fmin Fr), (leb_ival _ _ Fr Fmax).
    split; apply Z.leb_le; lia.
  - rewrite (ltb_ival max min Fmax Fmin). intros Hlt%Z.ltb_lt.
    apply clamp_inverted; assumption.
Qed.

(** X14: for one username the two copies of [generateResults] return the
    same unit and the same confidence, and, where the Box-Muller step is
    regular, the measurement of the second copy is the measurement of the
    first, of [k] tenths, clamped to the tenths from 30 to 100; when the
    first measurement lies between 3.0 and 10.0 the displayed sizes are
    equal. *)
Theorem second_copy_clamps
  (this1 : Copy1.DickSizeChecker) (this2 : Copy2.DickSizeChecker) (s : string) :
  let h := Copy1.hashUsername s in
  box_muller_regular (Z2F h) = true ->
  let r1 := Copy1.generateResults this1 s in
  let r2 := Copy2.generateResults this2 s in
  Copy2.unit r2 = Copy1.unit r1
  /\ Copy2.confidence r2 = Copy1.confidence r1
  /\ exists k, 10 <= k <= 130
       /\ Copy1.originalSize r1 = tenths k
       /\ Copy2.measurement h = tenths (Z.max 30 (Z.min 100 k))
       /\ (30 <= k <= 100 -> Copy2.size r2 = Copy1.size r1).
Proof.
  intros h Hreg r1 r2. subst r1 r2.
  unfold Copy1.generateResults, Copy2.generateResults.
  rewrite hashUsername_second. fold h.
  cbn [Copy1.unit Copy2.unit Copy1.confidence Copy2.confidence Copy1.originalSize
       Copy1.size Copy2.size].
  split; [reflexivity|]. split; [reflexivity|].
  pose proof (scaled_not_nan (Z2F h) 6.5 Hreg eq_refl) as Ns.
  set (sc := (sqrt (-2 * Math_log (uniform (Z2F h)))
              * Math_cos (2 * Math_PI * uniform (Z2F h + 1)) * 1.2 + 6.5)%float) in *.
  assert (holds 1 1) as H1 by lit. assert (holds 3 3) as H3 by lit.
  assert (holds 10 10) as H10 by lit. assert (holds 13 13) as H13 by lit.
  pose proof ONE_pos as HU.
  destruct (clamp_range 1 13 sc (proj1 H1) (proj1 H13)
              ltac:(rewrite (proj2 H1), (proj2 H13); lia) Ns) as [Fv Hv].
  cbn zeta in Fv, Hv. rewrite (proj2 H1), (proj2 H13) in Hv.
  destruct (round1_narrow _ Fv Hv) as (k & Hk & E1 & E2).
  rewrite (clamp_nest 1 13 3 10 sc) in E2;
    try apply H1; try apply H13; try apply H3; try apply H10; try exact Ns;
    rewrite ?(proj2 H1), ?(proj2 H3), ?(proj2 H10), ?(proj2 H13); try lia.
  assert (Copy1.measurement h = tenths k) as Em1 by exact E1.
  assert (Copy2.measurement h = tenths (Z.max 30 (Z.min 100 k))) as Em2 by exact E2.
  exists k. split; [exact Hk|]. split; [exact Em1|]. split; [exact Em2|].
  intros Hin. rewrite Em1, Em2.
  replace (Z.max 30 (Z.min 100 k)) with k by lia. reflexivity.
Qed.

End Clamped.

Lemma normalDistribution_clamped_witness :
  (1 <=? Copy1.normalDistribution (M := RefMath.lib) (Z2F 92903040) 1 13 6.5)%float = true
  /\ (Copy1.normalDistribution (M := RefMath.lib) (Z2F 92903040) 1 13 6.5 <=? 13)%float = true.
Proof.
  exact (proj1 (proj2 (normalDistribution_clamped (M := RefMath.lib) (Z2F 92903040) 1 13 6.5
                         ltac:(vm_compute; reflexivity) eq_refl eq_refl eq_refl)) eq_refl).
Defined.

Lemma second_copy_clamps_witness :
  Copy2.unit (Copy2.generateResults (M := RefMath.lib) Copy2.constructor "alice")
  = Copy1.unit (Copy1.generateResults (M := RefMath.lib) Copy1.constructor "alice")
  /\ Copy2.confidence (Copy2.generateResults (M := RefMath.lib) Copy2.constructor "alice")
     = Copy1.confidence (Copy1.generateResults (M := RefMath.lib) Copy1.constructor "alice").
Proof.
  pose proof (second_copy_clamps (M := RefMath.lib) Copy1.constructor Copy2.constructor "alice"
                ltac:(vm_compute; reflexivity)) as (H1 & H2 & _).
  split; [exact H1 | exact H2].
Defined.

(** ** The random delay *)

(** the round bit after the first shift of [binary_round_aux] *)
Lemma shr_round_bit (M : positive) (ex n : Z) :
  0 < n ->
  exists mrs,
    shr (shr_record_of_loc (Zpos M) loc_Exact) ex n = (mrs, ex + n)
    /\ shr_m mrs = Zpos M / 2 ^ n
    /\ shr_r mrs = Z.odd (Zpos M / 2 ^ (n - 1)).
Proof.
  intros Hn.
  change (shr_record_of_loc (Zpos M) loc_Exact) with (Build_shr_record (Zpos M) false false).
  destruct n as [|p|p]; try lia.
  eexists. split; [cbn [shr]; reflexivity|].
  rewrite iter_pos_nat.
  destruct (shr_iter (Pos.to_nat p) (Build_shr_record (Zpos M) false false)) as [Em Er];
    [cbn; lia|].
  rewrite positive_nat_Z in Em, Er. cbn [shr_m] in Em, Er.
  split; [exact Em | apply Er; lia].
Qed.

(** a mantissa whose round bit is clear is truncated *)
Lemma bra_round_down (sx : bool) (M : positive) (ex : Z) :
  let n := Zpos (digits2_pos M) - 53 in
  0 < n -> -1074 - ex <= n -> ex + n <= 971 ->
  Z.odd (Zpos M / 2 ^ (n - 1)) = false ->
  binary_round_aux prec emax sx (Zpos M) ex loc_Exact
  = S754_finite sx (Z.to_pos (Zpos M / 2 ^ n)) (ex + n).
Proof.
  intros n Hn Hsub Htop Hbit.
  pose proof (digits2_pos_bounds M) as HM.
  set (d := Zpos (digits2_pos M)) in *.
  destruct (shr_round_bit M ex n Hn) as (mrs & Eshr & Em & Er).
  pose proof (rne_bounds mrs) as [_ Hx]. cbn zeta in Hx.
  rewrite Er in Hx. specialize (Hx Hbit).
  pose proof (div_pow2_bounds (Zpos M) d n ltac:(lia) ltac:(lia) HM) as [Hlo Hhi].
  replace (d - 1 - n) with 52 in Hlo by lia. replace (d - n) with 53 in Hhi by lia.
  set (q := Zpos M / 2 ^ n) in *.
  assert (binary_round_aux prec emax sx (Zpos M) ex loc_Exact =
          let '(mrs'', e'') := shr_fexp prec emax q (ex + n) loc_Exact in
          match shr_m mrs'' with
          | 0 => S754_zero sx
          | Zpos m => if e'' <=? 971 then S754_finite sx m e'' else S754_infinity sx
          | Zneg _ => S754_nan
          end) as ->.
  { unfold binary_round_aux, shr_fexp at 1. rewrite fexp_eq. cbn [Zdigits2]. fold d.
    replace (Z.max (d + ex - 53) (-1074) - ex) with n by lia.
    rewrite Eshr, Hx, Em. reflexivity. }
  rewrite shr_fexp_second by lia.
  destruct (Z.eqb_spec q (2 ^ 53)) as [E | _]; [lia|].
  cbn [shr_m]. destruct q as [|p|p] eqn:Eq; try lia.
  destruct (Z.leb_spec (ex + n) 971); [|lia]. reflexivity.
Qed.

(** the double below 1 times a double that is not a power of two *)
Lemma SFmul_below_one (m : positive) (e : Z) :
  valid_binary (S754_finite false m e) = true -> 2 ^ 52 < Zpos m ->
  SFmul prec emax (S754_finite false 9007199254740991 (-53)) (S754_finite false m e)
  = S754_finite false (m - 1) e.
Proof.
  intros V Hm. pose proof (valid_finite_inv _ _ _ V) as (He & Hm53 & _).
  cbn [SFmul xorb].
  set (M := (9007199254740991 * m)%positive).
  assert (Zpos M = Zpos m * 2 ^ 53 - Zpos m) as EM by (unfold M; lia).
  assert (Zpos (digits2_pos M) = 106) as Ed.
  { apply digits2_pos_unique; [|lia]. rewrite EM.
    change (2 ^ (106 - 1)) with (2 ^ 52 * 2 ^ 53). change (2 ^ 106) with (2 ^ 53 * 2 ^ 53).
    nia. }
  pose proof (bra_round_down false M (-53 + e)) as H. cbn zeta in H. rewrite Ed in H.
  change (106 - 53) with 53 in H. change (53 - 1) with 52 in H.
  assert (Zpos M / 2 ^ 53 = Zpos m - 1) as Eq.
  { symmetry. apply (Z.div_unique _ _ _ (2 ^ 53 - Zpos m)); lia. }
  assert (Zpos M / 2 ^ 52 = 2 * (Zpos m - 1)) as Eq'.
  { symmetry. apply (Z.div_unique _ _ _ (2 ^ 53 - Zpos m)); [lia|].
    change (2 ^ 53) with (2 * 2 ^ 52) in *. lia. }
  rewrite Eq, Eq' in H.
  rewrite H; try lia.
  - f_equal; [|lia]. lia.
  - rewrite Z.odd_mul. reflexivity.
Qed.

Lemma double_exists (z e : Z) :
  0 < z < 2 ^ 53 -> -1074 <= e <= 971 ->
  exists H : float, finite H = true /\ ival H = z * 2 ^ (e + 1074).
Proof.
  intros Hz He.
  destruct (normalize_exact z e He ltac:(lia)) as (V & F & E).
  exists (SF2Prim (binary_normalize prec emax z e false)).
  unfold finite, ival. rewrite Prim2SF_SF2Prim by exact V. split; assumption.
Qed.

(** a positive integer as a double: its mantissa and exponent *)
Lemma integer_shape (y : float) (n : Z) :
  holds y n -> 1 <= n < 2 ^ 53 ->
  exists m e, Prim2SF y = S754_finite false m e
              /\ -52 <= e <= 0 /\ 2 ^ 52 <= Zpos m < 2 ^ 53
              /\ n * ONE = Zpos m * 2 ^ (e + 1074).
Proof.
  intros [F E] Hn. pose proof ONE_pos as HU.
  destruct (finite_cases y F) as [(s & _ & Ei) | (s & m & e & Ep & He & Hm & Hnorm & Ei)].
  - rewrite Ei in E. nia.
  - rewrite Ei in E.
    pose proof (pow2_pos (e + 1074) ltac:(lia)) as Hp.
    destruct s; cbn [cond_Zopp] in E; [nia|].
    assert (-52 <= e) as Hge.
    { destruct (Z.le_gt_cases (-52) e) as [|Hlt]; [assumption|]. exfalso.
      assert (2 ^ (e + 1074) <= 2 ^ 1021) by (apply pow2_le; lia).
      assert (1 * ONE <= n * ONE) by (apply Z.mul_le_mono_nonneg_r; lia).
      assert (Zpos m * 2 ^ (e + 1074) < 2 ^ 53 * 2 ^ (e + 1074)) by (apply Z.mul_lt_mono_pos_r; lia).
      assert (2 ^ 53 * 2 ^ (e + 1074) <= 2 ^ 53 * 2 ^ 1021) by (apply Z.mul_le_mono_nonneg_l; lia).
      change (2 ^ 53 * 2 ^ 1021) with ONE in *. lia. }
    specialize (Hnorm ltac:(lia)).
    assert (e <= 0) as Hle.
    { destruct (Z.le_gt_cases e 0) as [|Hgt]; [assumption|]. exfalso.
      assert (2 ^ 1075 <= 2 ^ (e + 1074)) by (apply pow2_le; lia).
      assert (2 ^ 52 * 2 ^ 1075 <= Zpos m * 2 ^ (e + 1074)) by (apply Z.mul_le_mono_nonneg; lia).
      assert (n * ONE < 2 ^ 53 * ONE) by (apply Z.mul_lt_mono_pos_r; lia).
      unfold ONE in *. change (2 ^ 1075) with (2 * 2 ^ 1074) in *. lia. }
    exists m, e. repeat split; try lia. exact Ep.
Qed.

(** a double below 1 times a positive integer stays below the integer *)
Lemma random_times (r y : float) (n : Z) :
  finite r = true -> 0 <= ival r < ONE -> holds y n -> 1 <= n < 2 ^ 53 ->
  finite (r * y) = true /\ 0 <= ival (r * y) < n * ONE.
Proof.
  intros Fr Hr Hy Hn.
  pose proof ONE_pos as HU. pose proof EPS_pos as HG. pose proof ONE_EPS as EU.
  destruct (integer_shape y n Hy Hn) as (m & e & Ep & He & Hm & En).
  destruct Hy as [Fy Ey].
  pose proof (pow2_pos (e + 1074) ltac:(lia)) as Hp.
  set (g := 2 ^ (e + 1074)) in *.
  assert (g <= 2 * EPS * n) as Hgap.
  { apply (mul_le_cancel_r _ _ (2 ^ 52)); [lia|].
    replace (2 * EPS * n * 2 ^ 52) with (n * ONE) by (rewrite EU; ring).
    rewrite En. nia. }
  destruct (Z.le_gt_cases (ival r) (ONE - 2 * EPS)) as [Hsmall | Hbig].
  - destruct (double_exists (Zpos m - 1) e ltac:(lia) ltac:(lia)) as (H & FH & EH).
    fold g in EH.
    destruct (mul_bounds r y 0 H Fr Fy eq_refl FH) as [Fp Hp'].
    + change (ival 0) with 0. rewrite Ey, EH. split; [nia|].
      rewrite Z.mul_assoc. apply Z.mul_le_mono_nonneg_r; [lia|].
      assert (ival r * n <= (ONE - 2 * EPS) * n) by (apply Z.mul_le_mono_nonneg_r; lia).
      lia.
    + change (ival 0) with 0 in Hp'. rewrite EH in Hp'. split; [exact Fp | lia].
  - pose proof (frac_bound r Fr ltac:(lia)) as Hfb.
    rewrite Z.mod_small in Hfb by lia.
    rewrite (below_one r Fr ltac:(lia)).
    destruct (Z.eq_dec (Zpos m) (2 ^ 52)) as [Epow | Hnp].
    + destruct (double_exists (2 ^ 53 - 1) (e - 1) ltac:(lia) ltac:(lia)) as (H & FH & EH).
      assert (g = 2 * 2 ^ (e - 1 + 1074)) as Eg.
      { unfold g. replace (e + 1074) with (1 + (e - 1 + 1074)) by lia.
        rewrite pow2_split by lia. reflexivity. }
      destruct (mul_bounds 0x1.fffffffffffffp-1 y H H eq_refl Fy FH FH) as [Fp Hp'].
      * change (ival 0x1.fffffffffffffp-1) with (ONE - EPS). rewrite Ey, EH.
        assert ((ONE - EPS) * n = (2 ^ 53 - 1) * 2 ^ (e - 1 + 1074)) as E1.
        { apply (Z.mul_reg_r _ _ (2 ^ 53)); [lia|].
          replace ((ONE - EPS) * n * 2 ^ 53) with ((2 ^ 53 - 1) * (n * ONE)) by (rewrite EU; ring).
          rewrite En, Epow, Eg. ring. }
        rewrite Z.mul_assoc, E1. lia.
      * rewrite EH in Hp'. split; [exact Fp|].
        pose proof (pow2_pos (e - 1 + 1074) ltac:(lia)). nia.
    + assert (valid_binary (S754_finite false m e) = true) as V
        by (rewrite <- Ep; apply finite_valid).
      assert (Prim2SF (0x1.fffffffffffffp-1 * y) = S754_finite false (m - 1) e) as Eprod.
      { rewrite mul_spec, Ep.
        change (Prim2SF 0x1.fffffffffffffp-1) with (S754_finite false 9007199254740991 (-53)).
        apply SFmul_below_one; [exact V | lia]. }
      unfold finite, ival. rewrite Eprod. cbn [sf_finite sf_ival cond_Zopp].
      split; [reflexivity|]. fold g. rewrite Pos2Z.inj_sub by lia. nia.
Qed.

Lemma unit_interval (random : float) :
  (0 <=? random)%float = true -> (random <? 1)%float = true ->
  finite random = true /\ 0 <= ival random < ONE.
Proof.
  intros H0 H1.
  assert (finite random = true) as F.
  { unfold finite. rewrite FloatAxioms.leb_spec in H0. rewrite FloatAxioms.ltb_spec in H1.
    unfold SFleb, SFltb in *. change (Prim2SF 0) with (S754_zero false) in H0.
    change (Prim2SF 1) with (S754_finite false 4503599627370496 (-52)) in H1.
    destruct (Prim2SF random) as [s | [|] | | s m e]; try reflexivity; discriminate. }
  split; [exact F|].
  rewrite (leb_ival 0 random eq_refl F) in H0. rewrite (ltb_ival random 1 F eq_refl) in H1.
  apply Z.leb_le in H0. apply Z.ltb_lt in H1.
  change (ival 0) with 0 in H0. change (ival 1) with ONE in H1. lia.
Qed.

Lemma exact_sum (x y : float) (i j : Z) :
  holds x i -> holds y j -> Z.abs (i + j) < 2 ^ 53 -> holds (x + y) (i + j).
Proof.
  intros [Fx Ex] [Fy Ey] Hs. destruct (Z2F_ival (i + j) Hs) as [Fz Ez].
  destruct (add_bounds x y _ _ Fx Fy Fz Fz) as [F H]; [rewrite Ex, Ey, Ez; lia|].
  split; [exact F | lia].
Qed.

Lemma exact_difference (x y : float) (i j : Z) :
  holds x i -> holds y j -> Z.abs (i - j) < 2 ^ 53 -> holds (x - y) (i - j).
Proof.
  intros [Fx Ex] [Fy Ey] Hs. destruct (Z2F_ival (i - j) Hs) as [Fz Ez].
  destruct (sub_bounds x y _ _ Fx Fy Fz Fz) as [F H]; [rewrite Ex, Ey, Ez; lia|].
  split; [exact F | lia].
Qed.

Lemma getRandomDelay_integer (random : float) (min max : Z) :
  (0 <=? random)%float = true -> (random <? 1)%float = true ->
  - 2 ^ 51 <= min -> min <= max -> max <= 2 ^ 51 ->
  exists k, min <= k <= max
            /\ holds (Page.getRandomDelay random (Z2F min) (Z2F max)) k.
Proof.
  intros H0 H1 Hlo Hle Hhi. pose proof ONE_pos as HU.
  destruct (unit_interval random H0 H1) as [Fr Hr].
  assert (2 ^ 51 + 2 ^ 51 + 1 < 2 ^ 53) as H53 by reflexivity.
  assert (holds (Z2F min) min) as Hmin by (apply Z2F_ival; lia).
  assert (holds (Z2F max) max) as Hmax by (apply Z2F_ival; lia).
  assert (holds 1 1) as Hone by lit.
  pose proof (exact_difference _ _ _ _ Hmax Hmin ltac:(lia)) as Hd.
  pose proof (exact_sum _ _ _ _ Hd Hone ltac:(lia)) as Hspan.
  destruct (random_times random _ _ Fr Hr Hspan ltac:(lia)) as [Fp Hp].
  destruct (Math_floor_ival _ Fp) as [Ff Ef].
  set (p := (random * (Z2F max - Z2F min + 1))%float) in *.
  set (q := ival p / ONE) in *.
  assert (0 <= q < max - min + 1) as Hq.
  { unfold q. split; [apply Z.div_pos; lia | apply Z.div_lt_upper_bound; lia]. }
  assert (holds (Math_floor p) q) as Hfl by (split; assumption).
  exists (q + min). split; [lia|].
  unfold Page.getRandomDelay. fold p.
  apply exact_sum; [exact Hfl | exact Hmin | lia].
Qed.

(** X7: for integers [min <= max] between -2^51 and 2^51, and whatever
    value in [0, 1) [Math.random] returns, [getRandomDelay(min, max)] is an
    integer between [min] and [max], both included: the product
    [random * (max - min + 1)] never rounds up to [max - min + 1]. *)
Theorem getRandomDelay_range (random : float) (min max : Z) :
  (0 <=? random)%float = true -> (random <? 1)%float = true ->
  - 2 ^ 51 <= min -> min <= max -> max <= 2 ^ 51 ->
  exists k, min <= k <= max
            /\ holds (Page.getRandomDelay random (Z2F min) (Z2F max)) k.
Proof. apply getRandomDelay_integer. Qed.

Lemma getRandomDelay_range_witness :
  exists k, 3000 <= k <= 6000 /\ holds (Page.getRandomDelay 0.5 (Z2F 3000) (Z2F 6000)) k.
Proof.
  apply (getRandomDelay_range 0.5 3000 6000); try reflexivity; lia.
Defined.

(** ** The second copy, and colliding usernames *)

Section SecondCopy.
Context {M : MathLib}.

Lemma second_generateResults_hash (this : Copy2.DickSizeChecker) (s s' : string) :
  Copy2.hashUsername s = Copy2.hashUsername s' ->
  Copy2.generateResults this s = Copy2.generateResults this s'.
Proof.
  intros Hh. unfold Copy2.generateResults. now rewrite Hh.
Qed.

(** X15: the second copy of [generateResults] reads of the object only
    the table of descriptions, and for a valid username it returns the same
    record on the username, on its lower-cased and on its upper-cased
    form. *)
Theorem second_generateResults_stable
  (this this' : Copy2.DickSizeChecker) (s : string) :
  isValidUsername s = true ->
  Copy2.humorousDescriptions this' = Copy2.humorousDescriptions this ->
  Copy2.generateResults this' s = Copy2.generateResults this s
  /\ Copy2.generateResults this (toLowerCase s) = Copy2.generateResults this s
  /\ Copy2.generateResults this (toUpperCase s) = Copy2.generateResults this s.
Proof.
  intros _ Ht. split; [|split].
  - unfold Copy2.generateResults, Copy2.getDescriptionForSize. now rewrite Ht.
  - apply second_generateResults_hash.
    rewrite !hashUsername_second. apply hashUsername_toLowerCase.
  - apply second_generateResults_hash.
    rewrite !hashUsername_second. apply hashUsername_toUpperCase.
Qed.

(** X16: [hashUsername] is not injective on valid usernames, even up to
    case: there are two valid usernames with different lower-cased forms
    that have the same hash, and so get the same record from
    [generateResults], in both copies and whatever the object holds. *)
Theorem colliding_usernames :
  exists s s',
    isValidUsername s = true /\ isValidUsername s' = true
    /\ toLowerCase s <> toLowerCase s'
    /\ Copy1.hashUsername s = Copy1.hashUsername s'
    /\ (forall this, Copy1.generateResults this s = Copy1.generateResults this s')
    /\ (forall this, Copy2.generateResults this s = Copy2.generateResults this s').
Proof.
  exists "an", "c0".
  split; [reflexivity|]. split; [reflexivity|]. split; [discriminate|].
  split; [reflexivity|]. split.
  - intros this. now apply generateResults_hash.
  - intros this. now apply second_generateResults_hash.
Qed.

End SecondCopy.

Lemma second_generateResults_stable_witness :
  Copy2.generateResults (M := RefMath.lib) Copy2.constructor "foo"
  = Copy2.generateResults (M := RefMath.lib) Copy2.constructor "Foo"
  /\ Copy2.generateResults (M := RefMath.lib) Copy2.constructor "FOO"
     = Copy2.generateResults (M := RefMath.lib) Copy2.constructor "Foo".
Proof.
  pose proof (second_generateResults_stable (M := RefMath.lib)
                Copy2.constructor Copy2.constructor "Foo" eq_refl eq_refl) as H.
  split; [exact (proj1 (proj2 H)) | exact (proj2 (proj2 H))].
Defined.

(** ** The loading sequence *)




Section Sequence.
Context {M : MathLib}.


End Sequence.


(** ** The hash as a polynomial *)

Lemma fold_plain (units : list Z) (h : Z) :
  fold_left (fun h c => h * 31 + c) units h
  = h * 31 ^ Z.of_nat (length units) + polynomial31 units.
Proof.
  revert h. induction units as [|c rest IH]; intros h; cbn [fold_left polynomial31 length].
  - change (Z.of_nat 0) with 0. lia.
  - rewrite IH, Nat2Z.inj_succ, Z.pow_succ_r by lia. ring.
Qed.

Lemma fold_wrapped (units : list Z) (h h' : Z) :
  h mod 2 ^ 32 = h' mod 2 ^ 32 ->
  fold_left (fun h c => signed32 (h * 31 + c)) units h mod 2 ^ 32
  = fold_left (fun h c => h * 31 + c) units h' mod 2 ^ 32.
Proof.
  revert h h'. induction units as [|c rest IH]; intros h h' Hh; cbn [fold_left].
  - exact Hh.
  - apply IH. rewrite signed32_mod.
    rewrite (Z.add_mod (h * 31)), (Z.add_mod (h' * 31)) by lia.
    rewrite (Z.mul_mod h), (Z.mul_mod h'), Hh by lia. reflexivity.
Qed.

Lemma hashUsername_polynomial_aux (s : string) :
  Copy1.hashUsername s = Z.abs (signed32 (polynomial31 (codepoints (toLowerCase s)))).
Proof.
  unfold Copy1.hashUsername.
  destruct (hash_loop_fold (toLowerCase s) 0 ltac:(lia)) as [E R].
  rewrite <- (signed32_small _ R), E. f_equal. apply signed32_congr.
  rewrite (fold_wrapped _ 0 0 eq_refl), fold_plain. reflexivity.
Qed.

Lemma codepoints_bound (s : string) :
  Forall (fun c => 0 <= c <= 255) (codepoints s).
Proof.
  unfold codepoints. induction s as [|c rest IH]; cbn; constructor; [|exact IH].
  unfold charCodeAt. pose proof (N_ascii_bounded c). lia.
Qed.

Lemma polynomial31_bound (units : list Z) :
  Forall (fun c => 0 <= c <= 255) units ->
  0 <= polynomial31 units
  /\ 30 * polynomial31 units <= 255 * (31 ^ Z.of_nat (length units) - 1).
Proof.
  induction 1 as [|c rest Hc _ IH]; cbn [polynomial31 length].
  - change (Z.of_nat 0) with 0. lia.
  - rewrite Nat2Z.inj_succ, Z.pow_succ_r by lia.
    pose proof (Z.pow_pos_nonneg 31 (Z.of_nat (length rest)) ltac:(lia) ltac:(lia)). nia.
Qed.

Lemma codepoints_length (s : string) : length (codepoints s) = String.length s.
Proof. unfold codepoints. induction s; cbn; [reflexivity | now f_equal]. Qed.

Lemma toLowerCase_length (s : string) : String.length (toLowerCase s) = String.length s.
Proof. induction s; cbn; [reflexivity | now f_equal]. Qed.

(** X18: [hashUsername] is the absolute value of the polynomial of the code
    units of the lower-cased username at 31 (the hash code of Java strings),
    wrapped once to 32 signed bits; for a valid username of at most five
    characters nothing wraps and the hash is the polynomial itself. *)
Theorem hashUsername_polynomial (s : string) :
  Copy1.hashUsername s = Z.abs (signed32 (polynomial31 (codepoints (toLowerCase s))))
  /\ (isValidUsername s = true -> (String.length s <= 5)%nat ->
      Copy1.hashUsername s = polynomial31 (codepoints (toLowerCase s))).
Proof.
  split; [apply hashUsername_polynomial_aux|].
  intros _ Hlen. rewrite hashUsername_polynomial_aux.
  destruct (polynomial31_bound _ (codepoints_bound (toLowerCase s))) as [H0 Hb].
  rewrite codepoints_length, toLowerCase_length in Hb.
  assert (31 ^ Z.of_nat (String.length s) <= 31 ^ 5) as Hp
    by (apply Z.pow_le_mono_r; lia).
  change (31 ^ 5) with 28629151 in Hp.
  assert (2 ^ 31 = 2147483648) as E31 by reflexivity.
  rewrite signed32_small by lia. lia.
Qed.

Lemma hashUsername_polynomial_witness :
  Copy1.hashUsername "alice" = polynomial31 (codepoints (toLowerCase "alice")).
Proof.
  apply (proj2 (hashUsername_polynomial "alice")); [reflexivity | cbn; lia].
Defined.

(** ** Ranges that do not overlap *)

(** a value at most [hi] is below every bound above [hi] *)
Lemma leb_ltb_chain (x hi lo : float) :
  finite hi = true -> finite lo = true ->
  (x <=? hi)%float = true -> (hi <? lo)%float = true -> (lo <=? x)%float = false.
Proof.
  intros Fhi Flo Hx Hlt.
  rewrite (ltb_ival hi lo Fhi Flo) in Hlt. apply Z.ltb_lt in Hlt.
  assert (is_nan x = false) as Nx.
  { destruct (is_nan x) eqn:E; [|reflexivity].
    rewrite FloatAxioms.leb_spec in Hx. rewrite is_nan_spec in E. unfold SFleb in Hx.
    destruct (Prim2SF x); discriminate. }
  destruct (not_nan_cases x Nx) as [Fx | [E | E]].
  - rewrite (leb_ival x hi Fx Fhi) in Hx. apply Z.leb_le in Hx.
    rewrite (leb_ival lo x Flo Fx). apply Z.leb_gt. lia.
  - exfalso. rewrite FloatAxioms.leb_spec, E in Hx. unfold finite in Fhi. unfold SFleb in Hx.
    destruct (Prim2SF hi) as [? | ? | | [|] ? ?]; discriminate.
  - rewrite FloatAxioms.leb_spec, E. unfold finite in Flo. unfold SFleb.
    destruct (Prim2SF lo) as [? | ? | | [|] ? ?]; try discriminate; reflexivity.
Qed.

Lemma later_ranges_miss (category : Category) (rest : list Category) (size : float) :
  finite (snd (range category)) = true ->
  forallb (fun later => finite (fst (range later))
                        && (snd (range category) <? fst (range later))%float) rest = true ->
  in_range size category = true ->
  filter (in_range size) rest = [].
Proof.
  intros Fhi Hall Hin. unfold in_range in Hin. apply andb_true_iff in Hin.
  destruct Hin as [_ Hle].
  induction rest as [|later rest IH]; [reflexivity|].
  cbn [forallb] in Hall. apply andb_true_iff in Hall. destruct Hall as [Hl Hrest].
  apply andb_true_iff in Hl. destruct Hl as [Flo Hlt].
  cbn [filter]. unfold in_range at 1.
  rewrite (leb_ltb_chain size _ _ Fhi Flo Hle Hlt). cbn [andb]. apply IH, Hrest.
Qed.

Lemma separated_at_most_one (table : list Category) (size : float) :
  ranges_separated table = true ->
  (matching_categories table size <= 1)%nat.
Proof.
  unfold matching_categories.
  induction table as [|category rest IH]; intros Hs; cbn [filter length]; [lia|].
  cbn [ranges_separated] in Hs. apply andb_true_iff in Hs. destruct Hs as [Hs Hrest].
  apply andb_true_iff in Hs. destruct Hs as [Fhi Hall].
  destruct (in_range size category) eqn:Hin.
  - rewrite (later_ranges_miss category rest size Fhi Hall Hin). cbn. lia.
  - apply IH, Hrest.
Qed.

Lemma find_filter {A : Type} (p : A -> bool) (l : list A) :
  find p l = None <-> length (filter p l) = 0%nat.
Proof.
  induction l as [|a l IH]; cbn; [tauto|].
  destruct (p a); cbn; [split; [discriminate | lia] | exact IH].
Qed.

Lemma proper_description (table : list Category) (category : Category) (hash : Z) :
  proper_descriptions table = true -> In category table -> 0 <= hash ->
  exists text,
    JS.index (descriptions category)
      (Z.rem hash (Z.of_nat (length (descriptions category)))) = Some text
    /\ text <> fallback_description.
Proof.
  unfold proper_descriptions. rewrite forallb_forall. intros Hall Hin Hh.
  specialize (Hall _ Hin). apply andb_true_iff in Hall. destruct Hall as [Hne Hnf].
  apply negb_true_iff, Nat.eqb_neq in Hne. apply negb_true_iff in Hnf.
  destruct (index_in_bounds (descriptions category) hash Hh) as (text & Et).
  { intros E. rewrite E in Hne. now apply Hne. }
  exists text. split; [exact Et|]. intros ->.
  assert (existsb (String.eqb fallback_description) (descriptions category) = true); [|congruence].
  apply existsb_exists. exists fallback_description. split; [|apply String.eqb_refl].
  unfold JS.index in Et. destruct (_ <? 0); [discriminate|].
  now apply nth_error_In in Et.
Qed.

Lemma first_table_separated :
  ranges_separated Copy1.initial_humorousDescriptions = true
  /\ proper_descriptions Copy1.initial_humorousDescriptions = true.
Proof. split; vm_compute; reflexivity. Qed.

Lemma second_table_separated :
  ranges_separated Copy2.initial_humorousDescriptions = true
  /\ proper_descriptions Copy2.initial_humorousDescriptions = true.
Proof. split; vm_compute; reflexivity. Qed.

Lemma fallback_iff (table : list Category) (size : float) (hash : Z) :
  proper_descriptions table = true -> 0 <= hash ->
  (Copy1.scan_categories table size hash = Some fallback_description
   <-> matching_categories table size = 0%nat).
Proof.
  intros Hp Hh. rewrite scan_categories_find. unfold matching_categories.
  rewrite <- find_filter.
  destruct (find (in_range size) table) as [category|] eqn:Hf.
  - apply find_some in Hf. destruct Hf as [Hin _].
    destruct (proper_description table category hash Hp Hin Hh) as (text & -> & Hne).
    split; [intros [= E]; contradiction | discriminate].
  - tauto.
Qed.

(** X19: on the tables of both constructors the ranges do not overlap: every
    double, on the grid of tenths or not, lies in at most one range; and for
    a hash that is not negative [getDescriptionForSize] returns the fallback
    string exactly for the sizes that lie in no range (the gaps between the
    ranges, the sizes beyond the ends, NaN). *)
Theorem ranges_do_not_overlap (size : float) (hash : Z) :
  (matching_categories Copy1.initial_humorousDescriptions size <= 1)%nat
  /\ (matching_categories Copy2.initial_humorousDescriptions size <= 1)%nat
  /\ (0 <= hash ->
      (Copy1.getDescriptionForSize Copy1.constructor size hash = Some fallback_description
       <-> matching_categories Copy1.initial_humorousDescriptions size = 0%nat)
      /\ (Copy2.getDescriptionForSize Copy2.constructor size hash = Some fallback_description
          <-> matching_categories Copy2.initial_humorousDescriptions size = 0%nat)).
Proof.
  destruct first_table_separated as [S1 P1]. destruct second_table_separated as [S2 P2].
  split; [apply separated_at_most_one, S1|].
  split; [apply separated_at_most_one, S2|].
  intros Hh. split.
  - apply (fallback_iff _ size hash P1 Hh).
  - apply (fallback_iff Copy2.initial_humorousDescriptions size hash P2 Hh).
Qed.

Lemma ranges_do_not_overlap_witness :
  Copy1.getDescriptionForSize Copy1.constructor 2.55 7 = Some fallback_description
  <-> matching_categories Copy1.initial_humorousDescriptions 2.55 = 0%nat.
Proof.
  apply (proj1 (proj2 (proj2 (ranges_do_not_overlap 2.55 7)) ltac:(lia))).
Defined.

(** ** The logarithm of zero *)

(** an infinity times a finite number that is not zero *)
Lemma infinity_times (c : float) :
  finite c = true ->
  ((0 <? c)%float = true -> (infinity * c)%float = infinity)
  /\ ((c <? 0)%float = true -> (infinity * c)%float = neg_infinity).
Proof.
  intros Fc.
  rewrite (ltb_ival 0 c eq_refl Fc), (ltb_ival c 0 Fc eq_refl). change (ival 0) with 0.
  destruct (finite_cases c Fc) as [(s & E & Ei) | (s & m & e & E & He & Hm & Hn & Ei)].
  - rewrite Ei. split; intros H%Z.ltb_lt; lia.
  - pose proof (pow2_pos (e + 1074) ltac:(lia)) as Hp.
    split; intros H%Z.ltb_lt; apply Prim2SF_inj; rewrite mul_spec, E;
      destruct s; cbn [cond_Zopp] in Ei; try nia; reflexivity.
Qed.

Lemma infinity_plus (s : bool) (x mean : float) :
  Prim2SF x = S754_infinity s -> finite mean = true ->
  Prim2SF (x + mean) = S754_infinity s.
Proof.
  intros E F. rewrite add_spec, E. unfold finite in F.
  destruct (Prim2SF mean) as [? | ? | | ? ? ?]; try discriminate; reflexivity.
Qed.

(** clamping an infinity *)
Lemma clamp_infinity (lo hi x : float) (s : bool) :
  finite lo = true -> finite hi = true -> (lo <? hi)%float = true ->
  Prim2SF x = S754_infinity s ->
  Math_max lo (Math_min hi x) = if s then lo else hi.
Proof.
  intros Flo Fhi Hlt E.
  assert (is_nan x = false) as Nx by (rewrite is_nan_spec, E; reflexivity).
  destruct (ltb_inf hi x s Fhi E) as [L1 L2].
  destruct s.
  - assert (Math_min hi x = x) as ->.
    { unfold Math_min. rewrite (finite_not_nan hi Fhi), Nx, L1, L2. reflexivity. }
    destruct (ltb_inf lo x true Flo E) as [L3 L4].
    unfold Math_max. rewrite (finite_not_nan lo Flo), Nx, L3, L4. reflexivity.
  - assert (Math_min hi x = hi) as ->.
    { unfold Math_min. rewrite (finite_not_nan hi Fhi), Nx, L1. reflexivity. }
    unfold Math_max. rewrite (finite_not_nan lo Flo), (finite_not_nan hi Fhi), Hlt.
    reflexivity.
Qed.

Section LogOfZero.
Context {M : MathLib}.

Lemma normal_infinite (seed mean : float) (s : bool) :
  Math_log (uniform seed) = neg_infinity ->
  finite mean = true ->
  (infinity * Math_cos (2 * Math_PI * uniform (seed + 1)))%float
    = (if s then neg_infinity else infinity) ->
  forall min max, finite min = true -> finite max = true -> (min <? max)%float = true ->
  Copy1.normalDistribution seed min max mean = if s then min else max.
Proof.
  intros Hlog Fmean Hn min max Fmin Fmax Hlt.
  unfold Copy1.normalDistribution. fold (uniform seed) (uniform (seed + 1)).
  rewrite Hlog. change (sqrt (-2 * neg_infinity))%float with infinity. rewrite Hn.
  apply clamp_infinity; try assumption.
  apply infinity_plus; [|exact Fmean]. now destruct s.
Qed.

(** X20: when the first uniform sample is zero and the library returns minus
    infinity for its logarithm, as ECMAScript prescribes for [Math.log(0)],
    the result is not NaN: with a cosine that is finite and positive
    [normalDistribution] returns [max], with a negative one [min], so that
    the measurement is 13.0 or 1.0 in the first copy and 10.0 or 3.0 in the
    second. *)
Theorem log_of_zero (h : Z) :
  let seed := Z2F h in
  let c := Math_cos (2 * Math_PI * uniform (seed + 1)) in
  Math_log (uniform seed) = neg_infinity -> finite c = true ->
  (forall min max mean,
     finite min = true -> finite max = true -> finite mean = true ->
     (min <? max)%float = true ->
     ((0 <? c)%float = true -> Copy1.normalDistribution seed min max mean = max)
     /\ ((c <? 0)%float = true -> Copy1.normalDistribution seed min max mean = min))
  /\ ((0 <? c)%float = true ->
      Copy1.measurement h = 13%float /\ Copy2.measurement h = 10%float)
  /\ ((c <? 0)%float = true ->
      Copy1.measurement h = 1%float /\ Copy2.measurement h = 3%float).
Proof.
  intros seed c Hlog Fc. destruct (infinity_times c Fc) as [Hpos Hneg].
  unfold seed in *. clear seed.
  split; [|split].
  - intros min max mean Fmin Fmax Fmean Hlt. split; intros Hc.
    + apply (normal_infinite (Z2F h) mean false Hlog Fmean (Hpos Hc)); assumption.
    + apply (normal_infinite (Z2F h) mean true Hlog Fmean (Hneg Hc)); assumption.
  - intros Hc. split.
    + unfold Copy1.measurement.
      rewrite (normal_infinite (Z2F h) 6.5 false Hlog eq_refl (Hpos Hc) 1 13); reflexivity.
    + unfold Copy2.measurement.
      change (Copy2.normalDistribution (Z2F h) 3 10 6.5)
        with (Copy1.normalDistribution (Z2F h) 3 10 6.5).
      rewrite (normal_infinite (Z2F h) 6.5 false Hlog eq_refl (Hpos Hc) 3 10); reflexivity.
  - intros Hc. split.
    + unfold Copy1.measurement.
      rewrite (normal_infinite (Z2F h) 6.5 true Hlog eq_refl (Hneg Hc) 1 13); reflexivity.
    + unfold Copy2.measurement.
      change (Copy2.normalDistribution (Z2F h) 3 10 6.5)
        with (Copy1.normalDistribution (Z2F h) 3 10 6.5).
      rewrite (normal_infinite (Z2F h) 6.5 true Hlog eq_refl (Hneg Hc) 3 10); reflexivity.
Qed.

End LogOfZero.

Lemma log_of_zero_witness :
  Copy1.measurement (M := RefMath.lib) 0 = 13%float
  /\ Copy2.measurement (M := RefMath.lib) 0 = 10%float.
Proof.
  apply (proj1 (proj2 (log_of_zero (M := RefMath.lib) 0
                         ltac:(vm_compute; reflexivity) ltac:(vm_compute; reflexivity)))).
  vm_compute. reflexivity.
Defined.
